(** * Urban Explorer: walking-tour generation and route links

    A shallow embedding of the tour pipeline of the repository:

    - [App.getFullRouteUrl] and the wizard of the React component
      ([src/unnamed/part_000]): the combined-route link derived from the
      place references of a grounded itinerary, and the steps that lead
      to a request;
    - the two grounded-mode services [generateWalkingTour]
      ([src/unnamed/part_001] and [src/unnamed/part_002]);
    - the structured-mode HTTP handler of [src/server.ts].

    JavaScript strings are modelled as [string], read as the bytes of
    their UTF-8 encoding, a surrogate that stands alone as the three
    bytes of its code point; the built-ins the sources call are modelled
    in [Js]. *)

From Stdlib Require Import String Ascii List Bool Arith NArith ZArith Lia.
From Stdlib Require Import DecimalString PrimFloat.
Import ListNotations.
Set Warnings "-register-all".
Local Open Scope list_scope.
Local Open Scope string_scope.

(** ** JavaScript built-ins used by the sources *)

Module Js.

(** The double quote and line feed that occur inside template literals. *)
Definition DQ : string := String "034"%char EmptyString.
Definition LF : string := String "010"%char EmptyString.

(** A value in quotes, as the templates write ["${category}"]. *)
Definition quoted (s : string) : string := DQ ++ s ++ DQ.

(** ToBoolean on a string: only the empty string is falsy. *)
Definition truthy_string (s : string) : bool :=
  match s with EmptyString => false | String _ _ => true end.

(** A thrown [Error]: its class name and its message. *)
Record JsError := { errorName : string; message : string }.

Definition newError (msg : string) : JsError :=
  {| errorName := "Error"; message := msg |}.
Definition typeError (msg : string) : JsError :=
  {| errorName := "TypeError"; message := msg |}.
Definition syntaxError (msg : string) : JsError :=
  {| errorName := "SyntaxError"; message := msg |}.

Definition uriError (msg : string) : JsError :=
  {| errorName := "URIError"; message := msg |}.

(** Sequencing of steps that may throw. *)
Definition andThen {A B} (r : JsError + A) (k : A -> JsError + B)
    : JsError + B :=
  match r with inl e => inl e | inr a => k a end.

Fixpoint mapM {A B} (f : A -> JsError + B) (l : list A) : JsError + list B :=
  match l with
  | [] => inr []
  | x :: l' =>
      andThen (f x) (fun y => andThen (mapM f l') (fun ys => inr (y :: ys)))
  end.

(** [String.prototype.startsWith] and [String.prototype.includes]. *)
Fixpoint startsWith (s p : string) {struct p} : bool :=
  match p, s with
  | EmptyString, _ => true
  | String _ _, EmptyString => false
  | String a p', String b s' => Ascii.eqb a b && startsWith s' p'
  end.

Fixpoint includes (s p : string) : bool :=
  startsWith s p ||
  match s with
  | EmptyString => false
  | String _ s' => includes s' p
  end.

(** The propositional reading of [includes]: [p] occurs in [s]. *)
Definition Contains (s p : string) : Prop :=
  exists pre post, s = pre ++ p ++ post.

(** [Array.prototype.join]. *)
Fixpoint join (sep : string) (l : list string) : string :=
  match l with
  | [] => EmptyString
  | [x] => x
  | x :: rest => x ++ sep ++ join sep rest
  end.

(** [Array.prototype.slice(start, end)] with relative (negative) indices. *)
Definition relIndex (len i : Z) : Z :=
  if (i <? 0)%Z then Z.max (len + i) 0 else Z.min i len.

Definition slice {A} (start stop : Z) (l : list A) : list A :=
  let len := Z.of_nat (length l) in
  let k := relIndex len start in
  let final := relIndex len stop in
  firstn (Z.to_nat (final - k)) (skipn (Z.to_nat k) l).

(** [new Set(iterable)] keeps insertion order and ignores a value already
    present; [Array.from] lists the set in that order. *)
Definition Set_add (s : list string) (x : string) : list string :=
  if existsb (String.eqb x) s then s else (s ++ [x])%list.

Definition Set_new (l : list string) : list string := fold_left Set_add l [].

Definition Array_from (s : list string) : list string := s.

(** The text [encodeURIComponent] returns: the unreserved characters
    [A-Z a-z 0-9 - _ . ! ~ * ' ( )] stay, every other byte of the UTF-8
    encoding becomes [%XX] with upper-case hexadecimal digits. *)
Definition uriUnreserved (c : ascii) : bool :=
  let n := nat_of_ascii c in
  ((65 <=? n)%nat && (n <=? 90)%nat) || ((97 <=? n)%nat && (n <=? 122)%nat) ||
  ((48 <=? n)%nat && (n <=? 57)%nat) ||
  existsb (Nat.eqb n) [45; 95; 46; 33; 126; 42; 39; 40; 41].

Definition hexDigit (n : nat) : ascii :=
  match String.get n "0123456789ABCDEF" with
  | Some c => c
  | None => "0"%char
  end.

Definition percentEncode (c : ascii) : string :=
  let n := nat_of_ascii c in
  String "%"%char (String (hexDigit (n / 16)) (String (hexDigit (n mod 16)) EmptyString)).

Fixpoint uriEncode (s : string) : string :=
  match s with
  | EmptyString => EmptyString
  | String c s' =>
      (if uriUnreserved c then String c EmptyString else percentEncode c)
      ++ uriEncode s'
  end.

(** Well-formed UTF-8: the bytes of a text without lone surrogates.  A
    surrogate that stands alone in a JavaScript string is read as the
    three bytes [ED A0..BF 80..BF] of its code point, which no
    well-formed UTF-8 contains. *)
Definition inRange (lo hi : nat) (c : ascii) : bool :=
  let n := nat_of_ascii c in ((lo <=? n)%nat && (n <=? hi)%nat).

Definition isTrail (c : ascii) : bool := inRange 128 191 c.

Fixpoint isWellFormed (s : string) : bool :=
  match s with
  | EmptyString => true
  | String a s1 =>
      if inRange 0 127 a then isWellFormed s1 else
      match s1 with
      | EmptyString => false
      | String b s2 =>
          if inRange 194 223 a then isTrail b && isWellFormed s2 else
          match s2 with
          | EmptyString => false
          | String c s3 =>
              if inRange 224 239 a then
                (if inRange 224 224 a then inRange 160 191 b
                 else if inRange 237 237 a then inRange 128 159 b
                 else isTrail b)
                && isTrail c && isWellFormed s3
              else
              match s3 with
              | EmptyString => false
              | String d s4 =>
                  inRange 240 244 a
                  && (if inRange 240 240 a then inRange 144 191 b
                      else if inRange 244 244 a then inRange 128 143 b
                      else isTrail b)
                  && isTrail c && isTrail d && isWellFormed s4
              end
          end
      end
  end.

(** [encodeURIComponent]: a [URIError] on a string with a lone
    surrogate. *)
Definition malformed : JsError := uriError "URI malformed".

Definition encodeURIComponent (s : string) : JsError + string :=
  if isWellFormed s then inr (uriEncode s) else inl malformed.

(** [String.prototype.trim]: white space and line terminators, as UTF-8
    byte sequences, are removed at both ends. *)
Definition bytes (codes : list nat) : string :=
  string_of_list_ascii (map ascii_of_nat codes).

Definition whiteSpaces : list string :=
  map bytes
    [ [9]; [10]; [11]; [12]; [13]; [32]; [194; 160]; [225; 154; 128];
      [226; 128; 128]; [226; 128; 129]; [226; 128; 130]; [226; 128; 131];
      [226; 128; 132]; [226; 128; 133]; [226; 128; 134]; [226; 128; 135];
      [226; 128; 136]; [226; 128; 137]; [226; 128; 138];
      [226; 128; 168]; [226; 128; 169]; [226; 128; 175]; [226; 129; 159];
      [227; 128; 128]; [239; 187; 191] ].

Fixpoint dropChars (n : nat) (s : string) : string :=
  match n, s with
  | S n', String _ s' => dropChars n' s'
  | _, _ => s
  end.

Definition stripWhiteSpace (s : string) : option string :=
  match find (startsWith s) whiteSpaces with
  | Some w => Some (dropChars (String.length w) s)
  | None => None
  end.

Fixpoint trimStartFuel (fuel : nat) (s : string) : string :=
  match fuel with
  | O => s
  | S fuel' =>
      match stripWhiteSpace s with
      | Some s' => trimStartFuel fuel' s'
      | None => s
      end
  end.

Definition trimStart (s : string) : string :=
  trimStartFuel (String.length s) s.

Fixpoint trimEnd (s : string) : string :=
  match s with
  | EmptyString => EmptyString
  | String c s' =>
      if String.eqb (trimStart s) EmptyString then EmptyString
      else String c (trimEnd s')
  end.

Definition trim (s : string) : string := trimEnd (trimStart s).

(** [Number.prototype.toString] on a non-negative integer (below 10^21,
    where JavaScript prints plain decimal digits). *)
Definition Integer_toString (n : N) : string :=
  NilZero.string_of_uint (N.to_uint n).

End Js.

(** ** The choices of the wizard ([App], part_000) *)

Module Wizard.

(** [interface Category], without its icon. *)
Record Category := {
  id : string;
  title : string;
  description : string;
  color : string
}.

Definition CATEGORIES : list Category :=
  [ {| id := "Food tour";
       title := "Food Tour";
       description := "Unique local restaurants, snacks, and beverages.";
       color := "bg-orange-100 text-orange-700 border-orange-200" |};
    {| id := "Nature walk";
       title := "Nature Walk";
       description := "Parks, lakes, gardens, and scenic viewpoints.";
       color := "bg-emerald-100 text-emerald-700 border-emerald-200" |};
    {| id := "Points of interest";
       title := "Points of Interest";
       description := "The most popular landmarks and attractions.";
       color := "bg-blue-100 text-blue-700 border-blue-200" |};
    {| id := "Historical";
       title := "Historical";
       description := "Deep dive into the area's rich history.";
       color := "bg-amber-100 text-amber-700 border-amber-200" |} ].

Definition DURATIONS : list N := [30; 60; 90; 120]%N.

End Wizard.

(** ** The route link of the result page ([App], part_000) *)

Module App.
Import Js.

(** A place reference of the grounding side channel: [chunk.maps] with its
    [title] and [uri], each possibly absent. *)
Record Maps := { title : option string; uri : option string }.
Record GroundingChunk := { maps : option Maps }.

(** The component state [itinerary]: [{ text, groundingChunks } | null]. *)
Record Itinerary := {
  text : string;
  groundingChunks : option (list GroundingChunk)
}.

(** [chunk.maps && chunk.maps.title] as a condition. *)
Definition hasMapsTitle (chunk : GroundingChunk) : bool :=
  match maps chunk with
  | Some m => match title m with Some t => truthy_string t | None => false end
  | None => false
  end.

(** [chunk.maps.title], read on a chunk that passed the filter. *)
Definition mapsTitle (chunk : GroundingChunk) : string :=
  match maps chunk with
  | Some m => match title m with Some t => t | None => EmptyString end
  | None => EmptyString
  end.

(** The titles of the attached place references, in order, duplicates
    included. *)
Definition attachedTitles (chunks : list GroundingChunk) : list string :=
  map mapsTitle (filter hasMapsTitle chunks).

(** [places]: the unique map titles in order. *)
Definition uniquePlaces (chunks : list GroundingChunk) : list string :=
  Array_from (Set_new (attachedTitles chunks)).

Definition searchUrl : string :=
  "https://www.google.com/maps/search/?api=1&query=".

Definition dirUrl : string :=
  "https://www.google.com/maps/dir/?api=1&origin=".

Definition getFullRouteUrl (itinerary : option Itinerary)
    : JsError + option string :=
  match itinerary with
  | None => inr None
  | Some it =>
    match groundingChunks it with
    | None => inr None
    | Some chunks =>
      let places := uniquePlaces chunks in
      (* [places[i]] is read only where [i] is in range *)
      if (length places <? 2)%nat then
        if (length places =? 1)%nat then
          andThen (encodeURIComponent (nth 0 places EmptyString)) (fun query =>
          inr (Some (searchUrl ++ query)))
        else inr None
      else
        andThen (encodeURIComponent (nth 0 places EmptyString)) (fun origin =>
        andThen (encodeURIComponent
                   (nth (length places - 1) places EmptyString))
          (fun destination =>
        andThen (if (2 <? length places)%nat
                 then andThen (mapM encodeURIComponent (slice 1 (-1) places))
                        (fun encoded => inr (join "|" encoded))
                 else inr EmptyString) (fun waypoints =>
        inr (Some (dirUrl ++ origin ++ "&destination=" ++ destination
                   ++ (if truthy_string waypoints
                       then "&waypoints=" ++ waypoints else EmptyString)
                   ++ "&travelmode=walking")))))
    end
  end.

(** The place references a grounded itinerary carries ([[]] when there is
    no itinerary or no reference list). *)
Definition chunksOf (itinerary : option Itinerary) : list GroundingChunk :=
  match itinerary with
  | Some it => match groundingChunks it with Some c => c | None => [] end
  | None => []
  end.

End App.

(** ** Shared types of the tour services *)

Module Tour.

Record LatLng := { latitude : float; longitude : float }.

(** [interface TourRequest]; [duration] is a whole number of minutes. *)
Record TourRequest := {
  category : string;
  location : string;
  duration : N;
  latLng : option LatLng
}.

End Tour.

(** ** The generative-model client ([@google/genai]) and the effects of a run *)

Module GenAI.
Import Js Tour.

(** [new GoogleGenAI({ apiKey })]. *)
Record GoogleGenAI := { apiKey : option string }.

(** [Type.STRING], [Type.NUMBER], [Type.ARRAY], [Type.OBJECT] schemas. *)
Inductive Schema :=
| SString
| SNumber
| SArray (items : Schema)
| SObject (properties : list (string * Schema)) (required : list string).

Inductive Tool := GoogleMaps.

Record RetrievalConfig := { retrievalLatLng : option LatLng }.
Record ToolConfig := { retrievalConfig : RetrievalConfig }.

Record GenerateContentConfig := {
  tools : option (list Tool);
  toolConfig : option ToolConfig;
  responseMimeType : option string;
  responseSchema : option Schema
}.

Record GenerateContentParameters := {
  model : string;
  contents : string;
  config : GenerateContentConfig
}.

(** The part of a response the services read. *)
Record GroundingMetadata := {
  metaGroundingChunks : option (list App.GroundingChunk)
}.
Record Candidate := { groundingMetadata : option GroundingMetadata }.
Record GenerateContentResponse := {
  responseText : option string;
  candidates : option (list Candidate)
}.

(** The constructor of the library: it keeps the key it is given and
    throws, with an error of its own, when it is given none. *)
Definition keyRequired : JsError :=
  newError "API key must be set when using the Gemini API.".

Definition newGoogleGenAI (key : option string) : JsError + GoogleGenAI :=
  match key with
  | Some k =>
      if truthy_string k then inr {| apiKey := Some k |} else inl keyRequired
  | None => inl keyRequired
  end.

(** What a run does to the outside: console lines (the rendered
    arguments) and calls of [ai.models.generateContent]. *)
Inductive Event :=
| ConsoleLog (args : list string)
| ConsoleError (args : list string)
| ModelCall (client : GoogleGenAI) (params : GenerateContentParameters).

Definition isModelCall (e : Event) : bool :=
  match e with ModelCall _ _ => true | _ => false end.

(** The number of outbound model calls of a run. *)
Definition modelCalls (trace : list Event) : nat :=
  length (filter isModelCall trace).

(** A computation: the events it emitted, in order, and either the value
    thrown or the result. *)
Definition Eff (A : Type) : Type := list Event * (JsError + A).

Definition ret {A} (a : A) : Eff A := ([], inr a).

Definition throw {A} (e : JsError) : Eff A := ([], inl e).

Definition bind {A B} (m : Eff A) (k : A -> Eff B) : Eff B :=
  match m with
  | (t, inl e) => (t, inl e)
  | (t, inr a) => let (t', r) := k a in ((t ++ t')%list, r)
  end.

(** [try { body } catch (e) { handler e }]. *)
Definition tryCatch {A} (body : Eff A) (handler : JsError -> Eff A) : Eff A :=
  match body with
  | (t, inl e) => let (t', r) := handler e in ((t ++ t')%list, r)
  | (t, inr a) => (t, inr a)
  end.

Definition emit (e : Event) : Eff unit := ([e], inr tt).

Definition lift {A} (r : JsError + A) : Eff A := ([], r).

End GenAI.

Declare Scope eff_scope.
Delimit Scope eff_scope with eff.
Notation "x <- m ;; k" := (GenAI.bind m (fun x => k))
  (at level 61, m at next level, right associativity) : eff_scope.
Notation "m ;; k" := (GenAI.bind m (fun _ => k))
  (at level 61, right associativity) : eff_scope.

(** ** JavaScript values: the parsed model response *)

Module JsValue.
Import Js GenAI.

(** A value as [JSON.parse] builds it and the handler rewrites it.  An
    array carries its elements and the named (non-index) properties set on
    it; an object lists its properties in the order the engine keeps. *)
Inductive value :=
| VUndefined
| VNull
| VBool (b : bool)
| VNum (n : float)
| VStr (s : string)
| VArr (elems : list value) (named : list (string * value))
| VObj (props : list (string * value)).

Definition props := list (string * value).

Fixpoint lookup (k : string) (ps : props) : option value :=
  match ps with
  | [] => None
  | (k', v) :: ps' => if String.eqb k k' then Some v else lookup k ps'
  end.

(** Assignment to a property: an existing one keeps its place.  A key
    occurs once in an object, so entries of the same key further on,
    which no JavaScript object has, are dropped. *)
Definition without (k : string) (ps : props) : props :=
  filter (fun p => negb (String.eqb k (fst p))) ps.

Fixpoint assign (k : string) (v : value) (ps : props) : props :=
  match ps with
  | [] => [(k, v)]
  | (k', v') :: ps' =>
      if String.eqb k k' then (k', v) :: without k ps'
      else (k', v') :: assign k v ps'
  end.

(** ToBoolean. *)
Definition truthy (v : value) : bool :=
  match v with
  | VUndefined | VNull => false
  | VBool b => b
  | VNum n => negb (PrimFloat.is_zero n || PrimFloat.is_nan n)
  | VStr s => truthy_string s
  | VArr _ _ | VObj _ => true
  end.

(** [v.k] for a key [k] that is neither an array index nor [length] (the
    handler reads [stops], [directions], [lat], [lng], [fromLatLng] and
    [toLatLng]). *)
Definition getProp (v : value) (k : string) : JsError + value :=
  match v with
  | VUndefined | VNull =>
      inl (typeError ("Cannot read properties of null or undefined (reading '" ++ k ++ "')"))
  | VObj ps => inr (match lookup k ps with Some x => x | None => VUndefined end)
  | VArr _ named =>
      inr (match lookup k named with Some x => x | None => VUndefined end)
  | VBool _ | VNum _ | VStr _ => inr VUndefined
  end.

(** [v.k = x] in strict mode (the server is an ES module): a primitive
    cannot take a property. *)
Definition setProp (v : value) (k : string) (x : value) : JsError + value :=
  match v with
  | VObj ps => inr (VObj (assign k x ps))
  | VArr elems named => inr (VArr elems (assign k x named))
  | VUndefined | VNull =>
      inl (typeError ("Cannot set properties of null or undefined (setting '" ++ k ++ "')"))
  | VBool _ | VNum _ | VStr _ =>
      inl (typeError ("Cannot create property '" ++ k ++ "'"))
  end.

(** The UTF-16 code units of a text, each as its own (generalised UTF-8)
    string: a character outside the basic plane gives its two surrogates. *)
Definition isContinuation (c : ascii) : bool :=
  let n := nat_of_ascii c in ((128 <=? n)%nat && (n <? 192)%nat).

Fixpoint codePoints (s : string) : list string :=
  match s with
  | EmptyString => []
  | String c s' =>
      match s' with
      | EmptyString => [String c EmptyString]
      | String d _ =>
          if isContinuation d then
            match codePoints s' with
            | chunk :: more => String c chunk :: more
            | [] => [String c EmptyString]
            end
          else String c EmptyString :: codePoints s'
      end
  end.

Definition encodeUnit (u : N) : string :=
  String (ascii_of_N (224 + u / 4096))
    (String (ascii_of_N (128 + (u / 64) mod 64))
       (String (ascii_of_N (128 + u mod 64)) EmptyString)).

Definition unitsOfCodePoint (chunk : string) : list string :=
  match list_ascii_of_string chunk with
  | [b0; b1; b2; b3] =>
      if (240 <=? N_of_ascii b0)%N then
        let cp := ((N_of_ascii b0 mod 8) * 262144
                   + (N_of_ascii b1 mod 64) * 4096
                   + (N_of_ascii b2 mod 64) * 64
                   + N_of_ascii b3 mod 64)%N in
        let off := (cp - 65536)%N in
        [encodeUnit (55296 + off / 1024); encodeUnit (56320 + off mod 1024)]
      else [chunk]
  | _ => [chunk]
  end.

Definition codeUnits (s : string) : list string :=
  flat_map unitsOfCodePoint (codePoints s).

(** [s.length]. *)
Definition String_length (s : string) : N := N.of_nat (length (codeUnits s)).

(** The properties numbered from [i]: [("i", x0); ("i+1", x1); ...]. *)
Fixpoint indexed (i : N) (l : list value) : props :=
  match l with
  | [] => []
  | x :: l' => (Integer_toString i, x) :: indexed (N.succ i) l'
  end.

(** The own enumerable properties a spread [{ ...v }] copies. *)
Definition ownProps (v : value) : props :=
  match v with
  | VObj ps => ps
  | VArr elems named => (indexed 0 elems ++ named)%list
  | VStr s => indexed 0 (map VStr (codeUnits s))
  | VUndefined | VNull | VBool _ | VNum _ => []
  end.

Section WithNumbers.

(** [Number.prototype.toString] on a double. *)
Variable Number_toString : float -> string.

(** ToString, as a template literal applies it.  A parsed object or
    array has no callable property of its own: with an own [toString]
    neither [toString] nor [valueOf] gives a primitive and the conversion
    throws; otherwise an object prints through [Object.prototype.toString]
    and an array through [Array.prototype.toString], which joins its
    elements unless an own [join] hides the method. *)
Definition notPrimitive : JsError :=
  typeError "Cannot convert object to primitive value".

Fixpoint toStr (v : value) : JsError + string :=
  match v with
  | VUndefined => inr "undefined"
  | VNull => inr "null"
  | VBool true => inr "true"
  | VBool false => inr "false"
  | VNum n => inr (Number_toString n)
  | VStr s => inr s
  | VArr elems named =>
      match lookup "toString" named with
      | Some _ => inl notPrimitive
      | None =>
          match lookup "join" named with
          | Some _ => inr "[object Array]"
          | None =>
              andThen
                (mapM (fun e => match e with
                                | VUndefined | VNull => inr EmptyString
                                | _ => toStr e
                                end) elems)
                (fun texts => inr (join "," texts))
          end
      end
  | VObj ps =>
      match lookup "toString" ps with
      | Some _ => inl notPrimitive
      | None => inr "[object Object]"
      end
  end.

End WithNumbers.

(** The JSON document [res.json(v)] sends, as a tree: properties whose
    value is [undefined] are left out, an [undefined] array element is
    [null], named properties of an array are not serialised, and a number
    that is not finite is [null]. *)
Definition jsonNumber (n : float) : value :=
  if PrimFloat.is_nan n || PrimFloat.is_infinity n then VNull
  else if PrimFloat.is_zero n then VNum PrimFloat.zero
  else VNum n.

Section Members.

Variable serialise : value -> value.

Fixpoint membersWith (ps : props) : props :=
  match ps with
  | [] => []
  | (k, VUndefined) :: ps' => membersWith ps'
  | (k, x) :: ps' => (k, serialise x) :: membersWith ps'
  end.

Definition elementWith (e : value) : value :=
  match e with
  | VUndefined => VNull
  | _ => serialise e
  end.

End Members.

Fixpoint toJSON (v : value) : value :=
  match v with
  | VUndefined => VUndefined
  | VNull => VNull
  | VBool b => VBool b
  | VNum n => jsonNumber n
  | VStr s => VStr s
  | VArr elems _ => VArr (map (elementWith toJSON) elems) []
  | VObj ps => VObj (membersWith toJSON ps)
  end.

(** [v] has an own property [k]. *)
Definition hasField (k : string) (v : value) : bool :=
  match v with
  | VObj ps => match lookup k ps with Some _ => true | None => false end
  | _ => false
  end.

(** The property [k] of an object ([undefined] when there is none) and
    the elements of an array. *)
Definition field (k : string) (v : value) : value :=
  match v with
  | VObj ps => match lookup k ps with Some x => x | None => VUndefined end
  | _ => VUndefined
  end.

Definition elements (v : value) : list value :=
  match v with
  | VArr elems _ => elems
  | _ => []
  end.

End JsValue.

(** ** The process environment and the platform *)

Module Runtime.
Import Js GenAI JsValue.

(** [process.env], after [dotenv.config()]. *)
Record ProcessEnv := {
  GEMINI_API_KEY : option string;
  API_KEY : option string;
  GOOGLE_MAPS_API_KEY : option string
}.

(** What the sources take from outside: the model behind
    [ai.models.generateContent] (it answers or throws), [JSON.parse]
    ([None] for a [SyntaxError]) and the printing of doubles. *)
Record Platform := {
  generateContent :
    GoogleGenAI -> GenerateContentParameters -> JsError + GenerateContentResponse;
  JSON_parse : string -> option value;
  Number_toString : float -> string
}.

(** [await ai.models.generateContent(params)]: one outbound call. *)
Definition callModel (P : Platform) (ai : GoogleGenAI)
    (params : GenerateContentParameters) : Eff GenerateContentResponse :=
  ([ModelCall ai params], generateContent P ai params).

(** [a || fallback] on an optional string. *)
Definition orElse (a : option string) (fallback : string) : string :=
  match a with
  | Some x => if truthy_string x then x else fallback
  | None => fallback
  end.

End Runtime.

(** ** Grounded mode, first variant ([geminiService], part_001) *)

Module GroundedService.
Import Js Tour GenAI Runtime.
Local Open Scope eff_scope.

(** [const ai = new GoogleGenAI({ apiKey: process.env.GEMINI_API_KEY })],
    evaluated once, when the module is loaded. *)
Definition ai (env : ProcessEnv) : JsError + GoogleGenAI :=
  newGoogleGenAI (GEMINI_API_KEY env).

Definition prompt (r : TourRequest) : string :=
  "Create a sequential walking tour itinerary for a " ++ quoted (category r) ++ " tour starting from " ++ quoted (location r) ++ ". " ++ LF ++
  "  The total duration should be approximately " ++ Integer_toString (duration r) ++ " minutes." ++ LF ++
  "  " ++ LF ++
  "  For each of the 3-5 main stops in the tour, you MUST:" ++ LF ++
  "  1. Use the Google Maps tool to find the specific location." ++ LF ++
  "  2. List the stop with its official name, a brief description, estimated time, and walking directions." ++ LF ++
  "  " ++ LF ++
  "  CRITICAL: Only use the Google Maps tool for the main stops of the tour. Do not ground the starting location if it's a general area, and do not ground other places mentioned in the descriptions." ++ LF ++
  "  " ++ LF ++
  "  The output should be a clear, step-by-step itinerary.".

Definition callConfig (r : TourRequest) : GenerateContentConfig :=
  {| tools := Some [GoogleMaps];
     toolConfig :=
       Some {| retrievalConfig := {| retrievalLatLng := latLng r |} |};
     responseMimeType := None;
     responseSchema := None |}.

Definition callParams (r : TourRequest) : GenerateContentParameters :=
  {| model := "gemini-2.5-flash"; contents := prompt r; config := callConfig r |}.

(** [response.candidates?.[0]?.groundingMetadata?.groundingChunks || []]. *)
Definition chunksOfResponse (response : GenerateContentResponse)
    : list App.GroundingChunk :=
  match candidates response with
  | Some (c :: _) =>
      match groundingMetadata c with
      | Some m =>
          match metaGroundingChunks m with Some l => l | None => [] end
      | None => []
      end
  | _ => []
  end.

Definition itineraryOf (response : GenerateContentResponse) : App.Itinerary :=
  {| App.text :=
       orElse (responseText response)
         "Sorry, I couldn't generate a tour at this time.";
     App.groundingChunks := Some (chunksOfResponse response) |}.

(** When the constructor throws, the module does not load and nothing
    of it runs: an invocation is then this error, before anything else. *)
Definition generateWalkingTour (P : Platform) (env : ProcessEnv)
    (request : TourRequest) : Eff App.Itinerary :=
  client <- lift (ai env) ;;
  response <- callModel P client (callParams request) ;;
  ret (itineraryOf response).

End GroundedService.

(** ** Grounded mode, variant with category instructions (part_002) *)

Module GroundedServiceFood.
Import Js Tour GenAI Runtime.
Local Open Scope eff_scope.

(** [const ai = new GoogleGenAI({ apiKey: process.env.GEMINI_API_KEY })],
    evaluated once, when the module is loaded. *)
Definition ai (env : ProcessEnv) : JsError + GoogleGenAI :=
  newGoogleGenAI (GEMINI_API_KEY env).

(** The guidance text of the food tour. *)
Definition foodInstructions : string :=
  LF ++
  "    Provide a food tour that includes destinations within a walkable distance from the start point. Select destinations that are unique to the area, such as food stops with historical significance, menu items that include dishes or ingredients unique to the local area or region, or are otherwise highly unique and can only be found in the local area. These destinations should be high quality with a Google maps rating of at least 4 stars. And you should be able to visit each destination and partake in the suggested dish within the requested time." ++ LF ++
  LF ++
  "    For each destination, suggest a menu item that is a must try and describe why it is highly recommended. Be fun, interesting, and detailed in your description.".

Definition categorySpecificInstructions (category : string) : string :=
  if String.eqb category "Food tour" then foodInstructions else EmptyString.

Definition prompt (r : TourRequest) : string :=
  "Create a sequential walking tour itinerary for a " ++ quoted (category r) ++ " tour starting from " ++ quoted (location r) ++ ". " ++ LF ++
  "  The total duration should be approximately " ++ Integer_toString (duration r) ++ " minutes." ++ LF ++
  "  " ++ categorySpecificInstructions (category r) ++ LF ++
  "  " ++ LF ++
  "  For each of the 3-5 main stops in the tour, you MUST:" ++ LF ++
  "  1. Use the Google Maps tool to find the specific location." ++ LF ++
  "  2. List the stop with its official name, a brief description, estimated time, and walking directions." ++ LF ++
  "  " ++ LF ++
  "  CRITICAL: Only use the Google Maps tool for the main stops of the tour. Do not ground the starting location if it's a general area, and do not ground other places mentioned in the descriptions." ++ LF ++
  "  " ++ LF ++
  "  The output should be a clear, step-by-step itinerary.".

Definition callConfig (r : TourRequest) : GenerateContentConfig :=
  {| tools := Some [GoogleMaps];
     toolConfig :=
       Some {| retrievalConfig := {| retrievalLatLng := latLng r |} |};
     responseMimeType := None;
     responseSchema := None |}.

Definition callParams (r : TourRequest) : GenerateContentParameters :=
  {| model := "gemini-2.5-flash"; contents := prompt r; config := callConfig r |}.

(** The returned object is written as in the first variant; the module
    loads, or does not, as the first variant does. *)
Definition generateWalkingTour (P : Platform) (env : ProcessEnv)
    (request : TourRequest) : Eff App.Itinerary :=
  client <- lift (ai env) ;;
  response <- callModel P client (callParams request) ;;
  ret (GroundedService.itineraryOf response).

End GroundedServiceFood.

(** ** Structured mode: the HTTP handler of [server.ts] *)

Module Server.
Import Js Tour GenAI JsValue Runtime.
Local Open Scope eff_scope.

(** [res.status(code).json(body)]. *)
Record Response := { status : nat; body : value }.

Definition MAPS_KEY (env : ProcessEnv) : option string :=
  GOOGLE_MAPS_API_KEY env.

(** [process.env.GEMINI_API_KEY || process.env.API_KEY]. *)
Definition configuredKey (env : ProcessEnv) : option string :=
  match GEMINI_API_KEY env with
  | Some k => if truthy_string k then Some k else API_KEY env
  | None => API_KEY env
  end.

Definition missingKeyMessage : string :=
  "Gemini API Key is missing or invalid. Please check your AI Studio secrets.".

Definition getAiClient (env : ProcessEnv) : JsError + GoogleGenAI :=
  match configuredKey env with
  | None => inl (newError missingKeyMessage)
  | Some key =>
      if negb (truthy_string key) || String.eqb key "MY_GEMINI_API_KEY"
      then inl (newError missingKeyMessage)
      else newGoogleGenAI (Some key)
  end.

Definition prompt (r : TourRequest) : string :=
  "Create a detailed walking tour itinerary for a " ++ quoted (category r) ++ " tour starting from " ++ quoted (location r) ++ ". " ++ LF ++
  "    The total duration should be approximately " ++ Integer_toString (duration r) ++ " minutes." ++ LF ++
  "    " ++ LF ++
  "    Use real, existing places. Ensure coordinates are accurate for the specified location.".

Definition latLngSchema : Schema :=
  SObject [("lat", SNumber); ("lng", SNumber)] ["lat"; "lng"].

Definition responseSchemaOfTour : Schema :=
  SObject
    [ ("tourName", SString);
      ("summary", SString);
      ("totalDistance", SString);
      ("stops",
       SArray
         (SObject
            [ ("name", SString); ("description", SString);
              ("timeToSpend", SString); ("lat", SNumber); ("lng", SNumber) ]
            ["name"; "description"; "timeToSpend"; "lat"; "lng"]));
      ("directions",
       SArray
         (SObject
            [ ("from", SString); ("to", SString); ("instructions", SString);
              ("fromLatLng", latLngSchema); ("toLatLng", latLngSchema) ]
            ["from"; "to"; "instructions"; "fromLatLng"; "toLatLng"])) ]
    ["tourName"; "summary"; "totalDistance"; "stops"; "directions"].

Definition callParams (r : TourRequest) : GenerateContentParameters :=
  {| model := "gemini-2.5-flash";
     contents := prompt r;
     config :=
       {| tools := None;
          toolConfig := None;
          responseMimeType := Some "application/json";
          responseSchema := Some responseSchemaOfTour |} |}.

(** [MAPS_KEY && MAPS_KEY.trim() !== ""], with the key it admits. *)
Definition enrichmentKey (env : ProcessEnv) : option string :=
  match MAPS_KEY env with
  | Some k =>
      if truthy_string k && negb (String.eqb (trim k) EmptyString)
      then Some k else None
  | None => None
  end.

(** [v.map(f)]: defined on arrays only. *)
Definition arrayMap (f : value -> JsError + value) (v : value)
    : JsError + value :=
  match v with
  | VArr elems named =>
      match lookup "map" named with
      | Some _ => inl (typeError "map is not a function")
      | None => andThen (mapM f elems) (fun l => inr (VArr l []))
      end
  | VUndefined | VNull =>
      inl (typeError "Cannot read properties of null or undefined (reading 'map')")
  | _ => inl (typeError "map is not a function")
  end.

Section Enrichment.

Variable P : Platform.
Variable key : string.

Let str := toStr (Number_toString P).

(** The two templates.  Each substitution converts its value to text,
    left to right; [${stop.lat}] and [${stop.lng}] stand twice in the
    first, the four coordinates twice in the second, and a value that
    converted once converts to the same text again. *)
Definition stopImageUrl (lat lng : value) : JsError + string :=
  andThen (str lat) (fun lat =>
  andThen (str lng) (fun lng =>
  inr ("https://maps.googleapis.com/maps/api/staticmap?center=" ++ lat ++ "," ++ lng ++ "&zoom=17&size=800x450&markers=color:red%7C" ++ lat ++ "," ++ lng ++ "&key=" ++ key))).

Definition directionMapUrl (fromLat fromLng toLat toLng : value)
    : JsError + string :=
  andThen (str fromLat) (fun fromLat =>
  andThen (str fromLng) (fun fromLng =>
  andThen (str toLat) (fun toLat =>
  andThen (str toLng) (fun toLng =>
  inr ("https://maps.googleapis.com/maps/api/staticmap?size=800x450&path=color:0x0000ff%7Cweight:5%7C" ++ fromLat ++ "," ++ fromLng ++ "%7C" ++ toLat ++ "," ++ toLng ++ "&markers=color:blue%7Clabel:A%7C" ++ fromLat ++ "," ++ fromLng ++ "&markers=color:green%7Clabel:B%7C" ++ toLat ++ "," ++ toLng ++ "&key=" ++ key))))).

(** [{ ...stop, imageUrl: stop.lat && stop.lng ? url : undefined }]. *)
Definition enrichStop (stop : value) : JsError + value :=
  andThen (getProp stop "lat") (fun lat =>
  andThen (getProp stop "lng") (fun lng =>
  andThen (if truthy lat && truthy lng
           then andThen (stopImageUrl lat lng) (fun url => inr (VStr url))
           else inr VUndefined) (fun imageUrl =>
  inr (VObj (assign "imageUrl" imageUrl (ownProps stop)))))).

(** [{ ...dir, mapUrl: dir.fromLatLng && dir.toLatLng ? url : undefined }]. *)
Definition enrichDirection (dir : value) : JsError + value :=
  andThen (getProp dir "fromLatLng") (fun fromLatLng =>
  andThen (getProp dir "toLatLng") (fun toLatLng =>
  andThen (if truthy fromLatLng && truthy toLatLng then
             andThen (getProp fromLatLng "lat") (fun fromLat =>
             andThen (getProp fromLatLng "lng") (fun fromLng =>
             andThen (getProp toLatLng "lat") (fun toLat =>
             andThen (getProp toLatLng "lng") (fun toLng =>
             andThen (directionMapUrl fromLat fromLng toLat toLng) (fun url =>
             inr (VStr url))))))
           else inr VUndefined) (fun mapUrl =>
  inr (VObj (assign "mapUrl" mapUrl (ownProps dir)))))).

(** The two [map] assignments of the enrichment block. *)
Definition enrich (tour : value) : JsError + value :=
  andThen (getProp tour "stops") (fun stops =>
  andThen (arrayMap enrichStop stops) (fun stops' =>
  andThen (setProp tour "stops" stops') (fun tour1 =>
  andThen (getProp tour1 "directions") (fun directions =>
  andThen (arrayMap enrichDirection directions) (fun directions' =>
  setProp tour1 "directions" directions'))))).

End Enrichment.

(** [if (!tour.k) tour.k = []]. *)
Definition defaultArray (k : string) (tour : value) : JsError + value :=
  andThen (getProp tour k) (fun x =>
  if negb (truthy x) then setProp tour k (VArr [] []) else inr tour).

(** The body of the inner [try]: parse, default, enrich, answer. *)
Definition resolve (P : Platform) (env : ProcessEnv) (rawText : string)
    : JsError + Response :=
  match JSON_parse P rawText with
  | None => inl (syntaxError "Unexpected token in JSON")
  | Some tour =>
      andThen (defaultArray "stops" tour) (fun tour1 =>
      andThen (defaultArray "directions" tour1) (fun tour2 =>
      andThen (match enrichmentKey env with
               | Some key => enrich P key tour2
               | None => inr tour2
               end) (fun tour3 =>
      inr {| status := 200; body := toJSON tour3 |})))
  end.

Definition parseFailureMessage : string :=
  "Failed to parse AI response as JSON".

Definition errorBody (msg : string) : value := VObj [("error", VStr msg)].

(** The body of the outer [try]. *)
Definition attempt (P : Platform) (env : ProcessEnv)
    (request : TourRequest) : Eff Response :=
  emit (ConsoleLog
          ["Generating " ++ Integer_toString (duration request) ++ "min " ++ category request ++ " tour for " ++ location request]) ;;
  ai <- lift (getAiClient env) ;;
  response <- callModel P ai (callParams request) ;;
  let rawText := orElse (responseText response) EmptyString in
  emit (ConsoleLog ["Raw AI Response length:";
                    Integer_toString (String_length rawText)]) ;;
  tryCatch
    (lift (resolve P env rawText))
    (fun parseError =>
       emit (ConsoleError ["JSON Parse Error. Raw text:"; rawText]) ;;
       throw (newError parseFailureMessage)).

(** The outer [catch]: every failure is answered in one shape. *)
Definition onError (error : JsError) : Eff Response :=
  emit (ConsoleError ["Error generating tour:"; message error]) ;;
  ret {| status := 500;
         body := errorBody (orElse (Some (message error))
                              "Failed to generate tour") |}.

(** The handler of [POST /api/generate-tour]: the events of the run and
    the response sent. *)
Definition generateTour (P : Platform) (env : ProcessEnv)
    (request : TourRequest) : Eff Response :=
  tryCatch (attempt P env request) onError.

End Server.

(** ** The result page of [App]: the list of place links (part_000) *)

Module ResultPage.
Import Js GenAI App.

(** The "Explore on Google Maps" block: rendered when
    [itinerary.groundingChunks.length > 0], one link per chunk that has
    [maps] (reading [length] of a missing list throws). *)
Definition exploreLinks (it : Itinerary) : JsError + option (list Maps) :=
  match groundingChunks it with
  | None =>
      inl (typeError "Cannot read properties of undefined (reading 'length')")
  | Some chunks =>
      if (0 <? length chunks)%nat then
        inr (Some (flat_map (fun chunk => match maps chunk with
                                          | Some m => [m]
                                          | None => []
                                          end) chunks))
      else inr None
  end.

End ResultPage.

(** ** The wizard of [App]: state and handlers (part_000) *)

Module AppFlow.
Import Js Tour GenAI Runtime.
Local Open Scope eff_scope.

(** [type Step = 'category' | 'location' | 'duration' | 'loading' | 'result']. *)
Inductive Step :=
| StepCategory
| StepLocation
| StepDuration
| StepLoading
| StepResult.

(** [Partial<TourRequest>]. *)
Record Selection := {
  selCategory : option string;
  selLocation : option string;
  selDuration : option N;
  selLatLng : option LatLng
}.

(** The five pieces of state of the component and, beside them, the
    requests to [navigator.geolocation] that have not called back yet:
    each with the [selection] its callbacks closed over, that of the
    render in which the button was clicked. *)
Record AppState := {
  step : Step;
  selection : Selection;
  itinerary : option App.Itinerary;
  error : option string;
  isLocating : bool;
  locating : list Selection
}.

Definition noSelection : Selection :=
  {| selCategory := None; selLocation := None;
     selDuration := None; selLatLng := None |}.

Definition initialState : AppState :=
  {| step := StepCategory; selection := noSelection; itinerary := None;
     error := None; isLocating := false; locating := [] |}.

Definition setStep (st : Step) (s : AppState) : AppState :=
  {| step := st; selection := selection s; itinerary := itinerary s;
     error := error s; isLocating := isLocating s; locating := locating s |}.

Definition setSelection (sel : Selection) (s : AppState) : AppState :=
  {| step := step s; selection := sel; itinerary := itinerary s;
     error := error s; isLocating := isLocating s; locating := locating s |}.

Definition setItinerary (it : option App.Itinerary) (s : AppState) : AppState :=
  {| step := step s; selection := selection s; itinerary := it;
     error := error s; isLocating := isLocating s; locating := locating s |}.

Definition setError (e : option string) (s : AppState) : AppState :=
  {| step := step s; selection := selection s; itinerary := itinerary s;
     error := e; isLocating := isLocating s; locating := locating s |}.

Definition setIsLocating (b : bool) (s : AppState) : AppState :=
  {| step := step s; selection := selection s; itinerary := itinerary s;
     error := error s; isLocating := b; locating := locating s |}.

Definition setLocating (l : list Selection) (s : AppState) : AppState :=
  {| step := step s; selection := selection s; itinerary := itinerary s;
     error := error s; isLocating := isLocating s; locating := l |}.

Definition handleCategorySelect (categoryId : string) (s : AppState) : AppState :=
  setStep StepLocation
    (setSelection
       {| selCategory := Some categoryId;
          selLocation := selLocation (selection s);
          selDuration := selDuration (selection s);
          selLatLng := selLatLng (selection s) |} s).

(** [location] is the text of the form field. *)
Definition handleLocationSubmit (location : string) (s : AppState) : AppState :=
  if truthy_string (trim location) then
    setStep StepDuration
      (setSelection
         {| selCategory := selCategory (selection s);
            selLocation := Some location;
            selDuration := selDuration (selection s);
            selLatLng := selLatLng (selection s) |} s)
  else s.

(** [useCurrentLocation], up to its return: with [navigator.geolocation]
    there ([supported]) the request is under way and the callbacks wait;
    without it the error is set at once. *)
Definition useCurrentLocation (supported : bool) (s : AppState) : AppState :=
  let s1 := setError None (setIsLocating true s) in
  if supported then setLocating (locating s ++ [selection s])%list s1
  else
    setIsLocating false
      (setError (Some "Geolocation is not supported by your browser.") s1).

(** The success callback of a request that closed over [sel]. *)
Definition positionFound (sel : Selection) (latitude longitude : float)
    (s : AppState) : AppState :=
  setStep StepDuration
    (setIsLocating false
       (setSelection
          {| selCategory := selCategory sel;
             selLocation := Some "My Current Location";
             selDuration := selDuration sel;
             selLatLng :=
               Some {| Tour.latitude := latitude;
                       Tour.longitude := longitude |} |} s)).

(** The error callback. *)
Definition positionFailed (s : AppState) : AppState :=
  setIsLocating false
    (setError
       (Some "Unable to retrieve your location. Please enter it manually.") s).

(** The requests under way without the one at [index], which has called
    back. *)
Definition answered (index : nat) (s : AppState) : AppState :=
  setLocating (firstn index (locating s) ++ skipn (S index) (locating s))%list s.

(** A property that is [undefined] prints as such in a template. *)
Definition textOf (x : option string) : string :=
  match x with Some t => t | None => "undefined" end.

(** [{ ...selection, duration } as TourRequest]. *)
Definition finalSelection (duration : N) (sel : Selection) : Selection :=
  {| selCategory := selCategory sel; selLocation := selLocation sel;
     selDuration := Some duration; selLatLng := selLatLng sel |}.

Definition asTourRequest (duration : N) (sel : Selection) : TourRequest :=
  {| category := textOf (selCategory sel);
     location := textOf (selLocation sel);
     Tour.duration := duration;
     latLng := selLatLng sel |}.

Definition generationFailed : string :=
  "Something went wrong while generating your tour. Please try again.".

Section WithService.

(** [generateWalkingTour] as imported from the service module. *)
Variable generateWalkingTour : TourRequest -> Eff App.Itinerary.

(** [handleDurationSelect], run to the end of its [try]: the service
    has answered or thrown before anything else happens. *)
Definition handleDurationSelect (duration : N) (s : AppState) : Eff AppState :=
  let finalRequest := finalSelection duration (selection s) in
  let s1 := setStep StepLoading (setSelection finalRequest s) in
  tryCatch
    (result <- generateWalkingTour (asTourRequest duration (selection s)) ;;
     ret (setStep StepResult (setItinerary (Some result) s1)))
    (fun err =>
       emit (ConsoleError [errorName err ++ ": " ++ message err]) ;;
       ret (setStep StepDuration (setError (Some generationFailed) s1))).

Definition reset (s : AppState) : AppState :=
  setError None
    (setItinerary None (setSelection noSelection (setStep StepCategory s))).

(** What happens to the page: the buttons and the form the user works,
    and the answers of the geolocation requests under way, which come
    at any later time. *)
Inductive UiEvent :=
| ClickCategory (index : nat)
| BackToCategories
| SubmitLocation (text : string)
| ClickUseMyLocation (supported : bool)
| PositionFound (request : nat) (latitude longitude : float)
| PositionFailed (request : nat)
| BackToLocation
| ClickDuration (index : nat)
| StartOver.

(** The handler an event runs, when the page of the current step offers
    it: category buttons on the category step, the form and the location
    button (unless disabled) on the location step, duration buttons on
    the duration step, "Start Over" on the result.  An answer of the
    geolocation runs its callback on whatever page is shown. *)
Definition dispatch (ev : UiEvent) (s : AppState) : option (Eff AppState) :=
  match ev, step s with
  | ClickCategory i, StepCategory =>
      match nth_error Wizard.CATEGORIES i with
      | Some cat => Some (ret (handleCategorySelect (Wizard.id cat) s))
      | None => None
      end
  | BackToCategories, StepLocation => Some (ret (setStep StepCategory s))
  | SubmitLocation text, StepLocation => Some (ret (handleLocationSubmit text s))
  | ClickUseMyLocation supported, StepLocation =>
      if isLocating s then None
      else Some (ret (useCurrentLocation supported s))
  | PositionFound k latitude longitude, _ =>
      match nth_error (locating s) k with
      | Some sel =>
          Some (ret (positionFound sel latitude longitude (answered k s)))
      | None => None
      end
  | PositionFailed k, _ =>
      match nth_error (locating s) k with
      | Some _ => Some (ret (positionFailed (answered k s)))
      | None => None
      end
  | BackToLocation, StepDuration => Some (ret (setStep StepLocation s))
  | ClickDuration i, StepDuration =>
      match nth_error Wizard.DURATIONS i with
      | Some d => Some (handleDurationSelect d s)
      | None => None
      end
  | StartOver, StepResult =>
      match itinerary s with
      | Some _ => Some (ret (reset s))
      | None => None
      end
  | _, _ => None
  end.

(** A session: events one after the other, each handler run to its end;
    an event the page does not offer changes nothing. *)
Fixpoint session (evs : list UiEvent) (s : AppState) : Eff AppState :=
  match evs with
  | [] => ret s
  | ev :: evs' =>
      match dispatch ev s with
      | Some run => s' <- run ;; session evs' s'
      | None => session evs' s
      end
  end.

End WithService.


End AppFlow.

(** ** Facts about the built-ins *)

Module JsFacts.
Import Js.

Lemma startsWith_spec (s p : string) :
  startsWith s p = true <-> exists post, s = p ++ post.
Proof.
  revert s; induction p as [|a p IH]; intros s; simpl.
  - split; [intros _; now exists s | reflexivity].
  - destruct s as [|b s].
    + split; [discriminate | intros [post H]; discriminate].
    + rewrite andb_true_iff, Ascii.eqb_eq, IH. split.
      * intros [-> [post ->]]. now exists post.
      * intros [post H]. injection H as -> ->. split; [reflexivity | now exists post].
Qed.

Lemma includes_spec (s p : string) :
  includes s p = true <-> Contains s p.
Proof.
  unfold Contains. induction s as [|c s IH]; simpl.
  - rewrite orb_false_r, startsWith_spec. split.
    + intros [post H]. now exists EmptyString, post.
    + intros [pre [post H]]. destruct pre; [now exists post | discriminate].
  - rewrite orb_true_iff, startsWith_spec, IH. split.
    + intros [[post H] | [pre [post H]]].
      * now exists EmptyString, post.
      * exists (String c pre), post. simpl. now rewrite H.
    + intros [[|c' pre] [post H]].
      * left. now exists post.
      * right. simpl in H. injection H as _ H. now exists pre, post.
Qed.

Lemma includes_false (s p : string) :
  includes s p = false <-> ~ Contains s p.
Proof.
  rewrite <- includes_spec. destruct (includes s p); split; congruence.
Qed.

Lemma string_app_assoc (a b c : string) : (a ++ b) ++ c = a ++ b ++ c.
Proof. induction a; simpl; congruence. Qed.

Lemma string_app_nil_r (a : string) : a ++ EmptyString = a.
Proof. induction a; simpl; congruence. Qed.

Lemma Contains_refl (s : string) : Contains s s.
Proof. exists EmptyString, EmptyString. simpl. now rewrite string_app_nil_r. Qed.

Lemma Contains_app_l (a b p : string) : Contains a p -> Contains (a ++ b) p.
Proof.
  intros [pre [post ->]]. exists pre, (post ++ b).
  now rewrite !string_app_assoc.
Qed.

Lemma Contains_app_r (a b p : string) : Contains b p -> Contains (a ++ b) p.
Proof.
  intros [pre [post ->]]. exists (a ++ pre), post.
  now rewrite !string_app_assoc.
Qed.

(** Membership test of [Set_add]. *)
Lemma existsb_eqb_In (x : string) (l : list string) :
  existsb (String.eqb x) l = true <-> In x l.
Proof.
  rewrite existsb_exists. split.
  - intros [y [Hy E]]. apply String.eqb_eq in E. now subst.
  - intros H. exists x. split; [assumption | apply String.eqb_refl].
Qed.

Lemma Set_new_snoc (l : list string) (x : string) :
  Set_new (l ++ [x]) = Set_add (Set_new l) x.
Proof. unfold Set_new. now rewrite fold_left_app. Qed.

Lemma Set_new_In (l : list string) (x : string) :
  In x (Set_new l) <-> In x l.
Proof.
  induction l as [|y l IH] using rev_ind; [reflexivity|].
  rewrite Set_new_snoc, in_app_iff. unfold Set_add.
  destruct (existsb (String.eqb y) (Set_new l)) eqn:E.
  - apply existsb_eqb_In in E. rewrite IH in *. simpl.
    intuition (subst; auto).
  - rewrite in_app_iff, IH. reflexivity.
Qed.

Lemma Set_new_NoDup (l : list string) : NoDup (Set_new l).
Proof.
  induction l as [|y l IH] using rev_ind; [constructor|].
  rewrite Set_new_snoc. unfold Set_add.
  destruct (existsb (String.eqb y) (Set_new l)) eqn:E; [assumption|].
  apply NoDup_app; [assumption | repeat constructor; intros [] | ].
  intros a Ha [<- | []].
  apply existsb_eqb_In in Ha. congruence.
Qed.

(** [x] stands before [y] in [l]. *)
Definition occursBefore (x y : string) (l : list string) : Prop :=
  exists a b c, l = (a ++ x :: b ++ y :: c)%list.

(** [x] is seen in [l] before [y] is seen for the first time. *)
Definition firstSeenBefore (x y : string) (l : list string) : Prop :=
  exists a b, l = (a ++ x :: b)%list /\ ~ In y a.

Lemma occursBefore_snoc_inv (x y z : string) (l : list string) :
  occursBefore x y (l ++ [z]) ->
  occursBefore x y l \/ (y = z /\ In x l).
Proof.
  intros [a [b [c H]]].
  destruct c as [|c0 c] using rev_ind.
  - right.
    replace (a ++ x :: b ++ [y])%list with ((a ++ x :: b) ++ [y])%list in H
      by (rewrite <- app_assoc; reflexivity).
    apply app_inj_tail in H as [-> ->].
    split; [reflexivity | apply in_elt].
  - clear IHc. left.
    replace (a ++ x :: b ++ y :: c ++ [c0])%list
      with ((a ++ x :: b ++ y :: c) ++ [c0])%list in H
      by (rewrite <- app_assoc; simpl; rewrite <- app_assoc; reflexivity).
    apply app_inj_tail in H as [-> _]. now exists a, b, c.
Qed.

Lemma firstSeenBefore_snoc (x y z : string) (l : list string) :
  firstSeenBefore x y l -> firstSeenBefore x y (l ++ [z]).
Proof.
  intros [a [b [-> H]]]. exists a, (b ++ [z])%list.
  split; [now rewrite <- app_assoc | assumption].
Qed.

Lemma Set_new_order (l : list string) (x y : string) :
  occursBefore x y (Set_new l) -> firstSeenBefore x y l.
Proof.
  induction l as [|z l IH] using rev_ind.
  - intros [a [b [c H]]]. destruct a; discriminate.
  - rewrite Set_new_snoc. unfold Set_add.
    destruct (existsb (String.eqb z) (Set_new l)) eqn:E.
    + intros H. apply firstSeenBefore_snoc. auto.
    + intros H. apply occursBefore_snoc_inv in H as [H | [-> Hx]].
      * apply firstSeenBefore_snoc. auto.
      * apply (proj1 (Set_new_In _ _)) in Hx.
        destruct (in_split _ _ Hx) as [a [b ->]].
        exists a, (b ++ [z])%list.
        split; [now rewrite <- app_assoc|].
        intros Hz.
        assert (In z (Set_new (a ++ x :: b))) as Hin
          by (apply (proj2 (Set_new_In _ _)), in_or_app; now left).
        apply existsb_eqb_In in Hin. congruence.
Qed.

(** [slice(1, -1)] drops the first and the last element. *)
Lemma slice_interior {A} (x y : A) (mid : list A) :
  slice 1 (-1) (x :: mid ++ [y]) = mid.
Proof.
  unfold slice, relIndex.
  replace (length (x :: mid ++ [y])) with (S (S (length mid)))
    by (simpl; rewrite length_app; simpl; lia).
  replace (1 <? 0)%Z with false by reflexivity.
  replace (-1 <? 0)%Z with true by reflexivity.
  rewrite Z.min_l, Z.max_l by lia.
  replace (Z.to_nat 1) with 1 by reflexivity. simpl skipn.
  replace (Z.to_nat (Z.of_nat (S (S (length mid))) + -1 - 1)) with (length mid) by lia.
  rewrite firstn_app, Nat.sub_diag, firstn_all. simpl. apply app_nil_r.
Qed.

Lemma nth_last {A} (x y d : A) (mid : list A) :
  nth (length (x :: mid ++ [y]) - 1) (x :: mid ++ [y]) d = y.
Proof.
  rewrite app_comm_cons, length_app, app_nth2 by (simpl; lia).
  replace (length (x :: mid) + length [y] - 1 - length (x :: mid)) with 0
    by (simpl; lia).
  reflexivity.
Qed.

Lemma uriEncode_truthy (s : string) :
  truthy_string s = true -> truthy_string (uriEncode s) = true.
Proof.
  destruct s as [|c s]; [discriminate|]. intros _. simpl.
  destruct (uriUnreserved c); reflexivity.
Qed.

Lemma truthy_app_l (a b : string) :
  truthy_string a = true -> truthy_string (a ++ b) = true.
Proof. destruct a; [discriminate | reflexivity]. Qed.

Lemma join_truthy (sep x : string) (l : list string) :
  truthy_string x = true -> truthy_string (join sep (x :: l)) = true.
Proof.
  intros H. destruct l; simpl; [assumption | now apply truthy_app_l].
Qed.

(** A text of unreserved characters is its own encoding. *)
Lemma uriEncode_unreserved (s : string) :
  forallb uriUnreserved (list_ascii_of_string s) = true ->
  uriEncode s = s.
Proof.
  induction s as [|c s IH]; simpl; [reflexivity|].
  rewrite andb_true_iff. intros [-> H]. simpl. now rewrite IH.
Qed.

(** *** Occurrences across a separator *)

(** Two ways of cutting the same text overlap. *)
Lemma string_app_eq_app (a b c d : string) :
  a ++ b = c ++ d ->
  (exists m, a = c ++ m /\ d = m ++ b) \/ (exists m, c = a ++ m /\ b = m ++ d).
Proof.
  revert c. induction a as [|x a IH]; intros c H; simpl in H.
  - right. exists c. split; [reflexivity | assumption].
  - destruct c as [|y c]; simpl in H.
    + left. exists (String x a). split; [reflexivity | now subst].
    + injection H as -> H. destruct (IH c H) as [[m [-> ->]] | [m [-> ->]]].
      * left. now exists m.
      * right. now exists m.
Qed.

(** The characters of a text. *)
Definition hasChar (c : ascii) (s : string) : bool :=
  existsb (Ascii.eqb c) (list_ascii_of_string s).

Lemma hasChar_app (c : ascii) (a b : string) :
  hasChar c (a ++ b) = hasChar c a || hasChar c b.
Proof.
  unfold hasChar. induction a as [|x a IH]; simpl; [reflexivity|].
  now rewrite IH, orb_assoc.
Qed.

Lemma hasChar_head (c : ascii) (s : string) : hasChar c (String c s) = true.
Proof. unfold hasChar. simpl. now rewrite Ascii.eqb_refl. Qed.

Lemma Contains_empty (s : string) : Contains s EmptyString.
Proof. now exists EmptyString, s. Qed.

(** A text without the character [c] that occurs in [a ++ c :: b] occurs
    in [a] or in [b]. *)
Lemma Contains_split_char (g a b : string) (c : ascii) :
  hasChar c g = false ->
  Contains (a ++ String c b) g -> Contains a g \/ Contains b g.
Proof.
  intros Hc [pre [post H]].
  destruct (string_app_eq_app _ _ _ _ H) as [[m [-> H1]] | [m [-> H1]]].
  - left. symmetry in H1.
    destruct (string_app_eq_app _ _ _ _ H1) as [[m' [-> H2]] | [m' [-> H2]]].
    + now exists pre, m'.
    + destruct m' as [|x m']; simpl in H2.
      * exists pre, EmptyString. now rewrite !string_app_nil_r.
      * injection H2 as <- _.
        rewrite hasChar_app, hasChar_head, orb_true_r in Hc. discriminate.
  - destruct m as [|x m]; simpl in H1.
    + destruct g as [|y g]; [left; apply Contains_empty|].
      simpl in H1. injection H1 as <- _.
      rewrite hasChar_head in Hc. discriminate.
    + injection H1 as _ ->. right. now exists m, post.
Qed.

Lemma Contains_in_empty (g : string) :
  Contains EmptyString g -> g = EmptyString.
Proof.
  intros [pre [post H]]. destruct pre; [|discriminate].
  destruct g; [reflexivity | discriminate].
Qed.

(** The same across a non-empty run [d] of characters foreign to [g]. *)
Lemma Contains_split_run (g d : string) :
  d <> EmptyString ->
  (forall c, hasChar c d = true -> hasChar c g = false) ->
  forall a b, Contains (a ++ d ++ b) g -> Contains a g \/ Contains b g.
Proof.
  induction d as [|x d IH]; intros Hne Hd a b H; [contradiction|].
  assert (hasChar x g = false) as Hx by (apply Hd, hasChar_head).
  simpl in H. apply Contains_split_char in H as [H | H]; [now left | | assumption].
  destruct d as [|y d]; [now right|].
  destruct (IH ltac:(discriminate)
              ltac:(intros c Hc; apply Hd; unfold hasChar in *; simpl in *;
                    rewrite Hc; apply orb_true_r)
              EmptyString b H) as [H' | H']; [|now right].
  apply Contains_in_empty in H'. subst g. left. apply Contains_empty.
Qed.

(** An occurrence of a text is an occurrence of each of its prefixes. *)
Lemma Contains_prefix (s g h : string) : Contains s (g ++ h) -> Contains s g.
Proof.
  intros [pre [post ->]]. exists pre, (h ++ post).
  now rewrite string_app_assoc.
Qed.

(** *** Decimal numerals *)

Definition isDigit (c : ascii) : bool :=
  existsb (Ascii.eqb c) (list_ascii_of_string "0123456789").

Lemma string_of_uint_digits (d : Decimal.uint) (c : ascii) :
  hasChar c (NilEmpty.string_of_uint d) = true -> isDigit c = true.
Proof.
  unfold hasChar, isDigit.
  induction d; simpl; intros H; try discriminate;
    apply orb_true_iff in H as [H | H]; auto;
    apply Ascii.eqb_eq in H; subst c; reflexivity.
Qed.

Lemma Integer_toString_digits (n : N) (c : ascii) :
  hasChar c (Integer_toString n) = true -> isDigit c = true.
Proof.
  unfold Integer_toString, NilZero.string_of_uint.
  destruct (N.to_uint n) eqn:E; try apply string_of_uint_digits.
  unfold hasChar. simpl. rewrite orb_false_r. intros H.
  apply Ascii.eqb_eq in H. subst c. reflexivity.
Qed.

Lemma Integer_toString_nonempty (n : N) : Integer_toString n <> EmptyString.
Proof.
  unfold Integer_toString, NilZero.string_of_uint.
  destruct (N.to_uint n); simpl; discriminate.
Qed.

Lemma isDigit_cases (c : ascii) (g : string) :
  forallb (fun d => negb (hasChar d g)) (list_ascii_of_string "0123456789") = true ->
  isDigit c = true -> hasChar c g = false.
Proof.
  unfold isDigit. rewrite forallb_forall, existsb_exists.
  intros H [d [Hd E]]. apply Ascii.eqb_eq in E. subst d.
  apply H in Hd. now apply negb_true_iff in Hd.
Qed.

(** A text without digits that occurs around a numeral occurs on one of
    its sides. *)
Lemma Contains_split_number (g a b : string) (n : N) :
  forallb (fun d => negb (hasChar d g)) (list_ascii_of_string "0123456789") = true ->
  Contains (a ++ Integer_toString n ++ b) g -> Contains a g \/ Contains b g.
Proof.
  intros Hg. apply Contains_split_run.
  - apply Integer_toString_nonempty.
  - intros c Hc. apply (isDigit_cases c g Hg).
    now apply Integer_toString_digits with n.
Qed.

(** *** The encoding loses nothing *)

(** Reading [%XX] back as the byte it stands for. *)
Definition hexValue (c : ascii) : option nat :=
  let n := nat_of_ascii c in
  if ((48 <=? n)%nat && (n <=? 57)%nat) then Some (n - 48)
  else if ((65 <=? n)%nat && (n <=? 70)%nat) then Some (n - 55)
  else None.

Fixpoint percentDecode (s : string) : string :=
  match s with
  | EmptyString => EmptyString
  | String c rest =>
      if Ascii.eqb c "%"%char then
        match rest with
        | String h (String l rest') =>
            match hexValue h, hexValue l with
            | Some a, Some b =>
                String (ascii_of_nat (16 * a + b)) (percentDecode rest')
            | _, _ => String c (percentDecode rest)
            end
        | _ => String c (percentDecode rest)
        end
      else String c (percentDecode rest)
  end.

Lemma percentDecode_char (c : ascii) (rest : string) :
  percentDecode
    ((if uriUnreserved c then String c EmptyString else percentEncode c) ++ rest)
  = String c (percentDecode rest).
Proof.
  destruct c as [[] [] [] [] [] [] [] []]; reflexivity.
Qed.

Lemma uriEncode_lossless (s : string) :
  percentDecode (uriEncode s) = s.
Proof.
  induction s as [|c s IH]; [reflexivity|].
  cbn [uriEncode]. now rewrite percentDecode_char, IH.
Qed.

Lemma andThen_inr {A B} (a : A) (k : A -> JsError + B) :
  andThen (inr a) k = k a.
Proof. reflexivity. Qed.

Lemma mapM_encode (l : list string) :
  mapM encodeURIComponent l =
    if forallb isWellFormed l then inr (map uriEncode l) else inl malformed.
Proof.
  induction l as [|x l IH]; [reflexivity|].
  cbn [mapM forallb map]. unfold encodeURIComponent at 1.
  destruct (isWellFormed x); [|reflexivity].
  rewrite andThen_inr, IH. cbn [andb].
  destruct (forallb isWellFormed l); reflexivity.
Qed.

End JsFacts.

(** ** The route link *)

Module AppFacts.
Import Js App JsFacts.

Lemma attachedTitles_truthy (chunks : list GroundingChunk) (t : string) :
  In t (attachedTitles chunks) -> truthy_string t = true.
Proof.
  unfold attachedTitles. rewrite in_map_iff.
  intros [c [<- Hc]]. apply filter_In in Hc as [_ Hc].
  unfold hasMapsTitle, mapsTitle in *.
  destruct (maps c) as [m|]; [|discriminate].
  destruct (title m); [assumption | discriminate].
Qed.

Lemma uniquePlaces_truthy (chunks : list GroundingChunk) (t : string) :
  In t (uniquePlaces chunks) -> truthy_string t = true.
Proof.
  unfold uniquePlaces, Array_from. rewrite Set_new_In.
  apply attachedTitles_truthy.
Qed.

(** The link as a function of the unique places, when they can all be
    encoded. *)
Definition routeUrl (places : list string) : option string :=
  match places with
  | [] => None
  | [p] => Some (searchUrl ++ uriEncode p)
  | origin :: rest =>
      Some (dirUrl ++ uriEncode origin
            ++ "&destination=" ++ uriEncode (last rest origin)
            ++ match removelast rest with
               | [] => EmptyString
               | mid => "&waypoints=" ++ join "|" (map uriEncode mid)
               end
            ++ "&travelmode=walking")
  end.

Lemma getFullRouteUrl_routeUrl (itinerary : option Itinerary) :
  getFullRouteUrl itinerary =
    if forallb isWellFormed (uniquePlaces (chunksOf itinerary))
    then inr (routeUrl (uniquePlaces (chunksOf itinerary)))
    else inl malformed.
Proof.
  destruct itinerary as [[txt [chunks|]]|]; try reflexivity.
  unfold getFullRouteUrl, chunksOf. cbn [groundingChunks].
  pose proof (uniquePlaces_truthy chunks) as Htruthy.
  destruct (uniquePlaces chunks) as [|o [|p rest]]; [reflexivity | |].
  - cbn [length Nat.ltb Nat.leb Nat.eqb nth forallb routeUrl].
    unfold encodeURIComponent. rewrite andb_true_r.
    destruct (isWellFormed o); reflexivity.
  - destruct (exists_last (l := p :: rest)) as [mid [d E]]; [discriminate|].
    rewrite E in *. clear E p rest.
    replace (length (o :: mid ++ [d]) <? 2)%nat with false
      by (symmetry; apply Nat.ltb_ge; simpl; rewrite length_app; simpl; lia).
    rewrite nth_last, slice_interior. cbn [nth].
    assert (routeUrl (o :: mid ++ [d]) =
            Some (dirUrl ++ uriEncode o
              ++ "&destination=" ++ uriEncode (last (mid ++ [d]) o)
              ++ match removelast (mid ++ [d]) with
                 | [] => EmptyString
                 | m => "&waypoints=" ++ join "|" (map uriEncode m)
                 end
              ++ "&travelmode=walking")) as ->
      by (destruct mid; reflexivity).
    rewrite last_last, removelast_last.
    cbn [forallb]. rewrite forallb_app. cbn [forallb]. rewrite andb_true_r.
    unfold encodeURIComponent at 1 2.
    destruct (isWellFormed o); [|reflexivity]. cbn [andb].
    rewrite andThen_inr.
    destruct (isWellFormed d); [|now rewrite andb_false_r].
    rewrite andThen_inr, andb_true_r.
    destruct mid as [|m mid].
    + reflexivity.
    + replace (2 <? length (o :: (m :: mid) ++ [d]))%nat with true
        by (symmetry; apply Nat.ltb_lt; simpl; rewrite length_app; simpl; lia).
      rewrite mapM_encode.
      destruct (forallb isWellFormed (m :: mid)); [|reflexivity].
      rewrite !andThen_inr. cbn [map]. rewrite join_truthy; [reflexivity|].
      apply uriEncode_truthy, Htruthy. simpl. auto.
Qed.

(** *** The titles of the place references *)

(** The place reference [chunk] carries the title [t]: it has [maps],
    with a [title] that is [t], not the empty string. *)
Definition carries (chunk : GroundingChunk) (t : string) : Prop :=
  exists m, maps chunk = Some m /\ title m = Some t /\ t <> EmptyString.

(** Among [chunks], a reference carrying [x] stands before every
    reference carrying [y]. *)
Definition seenBefore (x y : string) (chunks : list GroundingChunk) : Prop :=
  exists before chunk after,
    chunks = (before ++ chunk :: after)%list /\
    carries chunk x /\
    forall c, In c before -> ~ carries c y.

Lemma carries_iff (chunk : GroundingChunk) (t : string) :
  carries chunk t <-> hasMapsTitle chunk = true /\ mapsTitle chunk = t.
Proof.
  unfold carries, hasMapsTitle, mapsTitle. split.
  - intros [m [-> [-> Hne]]]. split; [|reflexivity].
    destruct t; [contradiction | reflexivity].
  - destruct (maps chunk) as [m|]; [|intros [H _]; discriminate].
    destruct (title m) as [t'|] eqn:Et; [|intros [H _]; discriminate].
    intros [Ht <-]. exists m. split; [reflexivity|]. split; [exact Et|].
    intros ->. discriminate.
Qed.

Lemma attachedTitles_cons (c : GroundingChunk) (cs : list GroundingChunk) :
  attachedTitles (c :: cs) =
    if hasMapsTitle c then mapsTitle c :: attachedTitles cs
    else attachedTitles cs.
Proof. unfold attachedTitles. simpl. now destruct (hasMapsTitle c). Qed.

Lemma attachedTitles_carried (chunks : list GroundingChunk) (t : string) :
  In t (attachedTitles chunks) <->
  exists chunk, In chunk chunks /\ carries chunk t.
Proof.
  unfold attachedTitles. rewrite in_map_iff. split.
  - intros [c [Ht Hc]]. apply filter_In in Hc as [Hin Hc].
    exists c. split; [assumption|]. now apply carries_iff.
  - intros [c [Hin Hc]]. apply carries_iff in Hc as [Hc Ht].
    exists c. split; [assumption|]. apply filter_In. now split.
Qed.

Lemma attachedTitles_split (chunks : list GroundingChunk)
    (a b : list string) (x : string) :
  attachedTitles chunks = (a ++ x :: b)%list ->
  exists before chunk after,
    chunks = (before ++ chunk :: after)%list /\
    attachedTitles before = a /\ carries chunk x.
Proof.
  revert a. induction chunks as [|c cs IH]; intros a H.
  - destruct a; discriminate.
  - rewrite attachedTitles_cons in H.
    destruct (hasMapsTitle c) eqn:Hc.
    + destruct a as [|y a].
      * injection H as Hx _. exists [], c, cs.
        split; [reflexivity|]. split; [reflexivity|].
        now apply carries_iff.
      * injection H as Hy H.
        destruct (IH a H) as [before [chunk [after [-> [Ha Hx]]]]].
        exists (c :: before), chunk, after.
        split; [reflexivity|]. split; [|assumption].
        now rewrite attachedTitles_cons, Hc, Hy, Ha.
    + destruct (IH a H) as [before [chunk [after [-> [Ha Hx]]]]].
      exists (c :: before), chunk, after.
      split; [reflexivity|]. split; [|assumption].
      now rewrite attachedTitles_cons, Hc.
Qed.

Lemma firstSeen_seenBefore (chunks : list GroundingChunk) (x y : string) :
  firstSeenBefore x y (attachedTitles chunks) -> seenBefore x y chunks.
Proof.
  intros [a [b [H Hy]]].
  destruct (attachedTitles_split chunks a b x H)
    as [before [chunk [after [-> [Ha Hx]]]]].
  exists before, chunk, after. split; [reflexivity|]. split; [assumption|].
  intros c Hin Hc. apply Hy. rewrite <- Ha.
  apply attachedTitles_carried. now exists c.
Qed.

(** C1 (as the code has it). For an itinerary with place references
    whose titles are well-formed texts, the route link is derived from a
    list of places that holds the titles the references carry, each
    once, a place standing before another only if a reference carrying
    it stands before every reference carrying the other (first-seen
    order).  With no place there is no link; with one place the link is
    the map search for that place; with two or more it is the walking
    directions from the first place to the last, the places in between,
    in order and joined by [|], as the [waypoints] parameter, which is
    absent when there are exactly two places.  A place stands in the
    link URI-encoded: as it is when it consists of unreserved
    characters, and always so that it can be read back. *)
Theorem getFullRouteUrl_spec (it : Itinerary) (chunks : list GroundingChunk) :
  groundingChunks it = Some chunks ->
  (forall chunk t, In chunk chunks -> carries chunk t ->
     isWellFormed t = true) ->
  exists places,
    NoDup places /\
    (forall t, In t places <->
               exists chunk, In chunk chunks /\ carries chunk t) /\
    (forall x y, occursBefore x y places -> seenBefore x y chunks) /\
    (forall p, In p places ->
       encodeURIComponent p = inr (uriEncode p) /\
       percentDecode (uriEncode p) = p /\
       (forallb uriUnreserved (list_ascii_of_string p) = true ->
        uriEncode p = p)) /\
    match places with
    | [] => getFullRouteUrl (Some it) = inr None
    | [p] =>
        getFullRouteUrl (Some it) =
          inr (Some ("https://www.google.com/maps/search/?api=1&query="
                     ++ uriEncode p))
    | [origin; destination] =>
        getFullRouteUrl (Some it) =
          inr (Some ("https://www.google.com/maps/dir/?api=1&origin="
                     ++ uriEncode origin
                     ++ "&destination=" ++ uriEncode destination
                     ++ "&travelmode=walking"))
    | origin :: rest =>
        getFullRouteUrl (Some it) =
          inr (Some ("https://www.google.com/maps/dir/?api=1&origin="
                     ++ uriEncode origin
                     ++ "&destination=" ++ uriEncode (last rest origin)
                     ++ "&waypoints="
                     ++ join "|" (map uriEncode (removelast rest))
                     ++ "&travelmode=walking"))
    end.
Proof.
  intros Hchunks Hwf.
  assert (forall t, In t (uniquePlaces chunks) <->
                    exists chunk, In chunk chunks /\ carries chunk t) as Hin.
  { intros t. unfold uniquePlaces, Array_from.
    rewrite Set_new_In. apply attachedTitles_carried. }
  assert (forall p, In p (uniquePlaces chunks) -> isWellFormed p = true)
    as Hall.
  { intros p Hp. apply Hin in Hp as [chunk [Hc Hp]]. now apply (Hwf chunk). }
  exists (uniquePlaces chunks).
  split; [apply Set_new_NoDup|]. split; [exact Hin|]. split; [|split].
  - intros x y H. apply firstSeen_seenBefore.
    now apply Set_new_order.
  - intros p Hp. unfold encodeURIComponent. rewrite (Hall p Hp).
    split; [reflexivity|].
    split; [apply uriEncode_lossless | apply uriEncode_unreserved].
  - pose proof (getFullRouteUrl_routeUrl (Some it)) as Hurl.
    unfold chunksOf in Hurl. rewrite Hchunks in Hurl.
    rewrite (proj2 (forallb_forall _ _) Hall) in Hurl.
    destruct (uniquePlaces chunks) as [|o [|d [|x rest]]]; exact Hurl.
Qed.

(** The examples of the specification, on itineraries whose place
    references carry the given titles. *)
Definition chunkOfTitle (t : string) : GroundingChunk :=
  {| maps := Some {| title := Some t; uri := None |} |}.

Definition grounded (titles : list string) : option Itinerary :=
  Some {| text := "tour"; groundingChunks := Some (map chunkOfTitle titles) |}.

Example route_one :
  getFullRouteUrl (grounded ["A"]) =
    inr (Some "https://www.google.com/maps/search/?api=1&query=A").
Proof. reflexivity. Qed.

Example route_two :
  getFullRouteUrl (grounded ["A"; "B"]) =
    inr (Some "https://www.google.com/maps/dir/?api=1&origin=A&destination=B&travelmode=walking").
Proof. reflexivity. Qed.

Example route_duplicate :
  uniquePlaces (chunksOf (grounded ["A"; "B"; "C"; "B"])) = ["A"; "B"; "C"] /\
  getFullRouteUrl (grounded ["A"; "B"; "C"; "B"]) =
    inr (Some "https://www.google.com/maps/dir/?api=1&origin=A&destination=C&waypoints=B&travelmode=walking").
Proof. split; reflexivity. Qed.

Example route_encoded :
  getFullRouteUrl (grounded ["Pike Place"; "Gum Wall"; ""; "Pier 57"; "Gum Wall"; "Space Needle"]) =
    inr (Some "https://www.google.com/maps/dir/?api=1&origin=Pike%20Place&destination=Space%20Needle&waypoints=Gum%20Wall|Pier%2057&travelmode=walking").
Proof. reflexivity. Qed.

(** The itinerary of the duplicate example. *)
Definition fourReferences : Itinerary :=
  {| text := "tour";
     groundingChunks := Some (map chunkOfTitle ["A"; "B"; "C"; "B"]) |}.

Lemma getFullRouteUrl_spec_witness :
  exists places,
    NoDup places /\
    (forall t, In t places <->
               exists chunk, In chunk (map chunkOfTitle ["A"; "B"; "C"; "B"]) /\
                             carries chunk t) /\
    (forall x y, occursBefore x y places ->
                 seenBefore x y (map chunkOfTitle ["A"; "B"; "C"; "B"])) /\
    (forall p, In p places ->
       encodeURIComponent p = inr (uriEncode p) /\
       percentDecode (uriEncode p) = p /\
       (forallb uriUnreserved (list_ascii_of_string p) = true ->
        uriEncode p = p)) /\
    match places with
    | [] => getFullRouteUrl (Some fourReferences) = inr None
    | [p] =>
        getFullRouteUrl (Some fourReferences) =
          inr (Some ("https://www.google.com/maps/search/?api=1&query="
                     ++ uriEncode p))
    | [origin; destination] =>
        getFullRouteUrl (Some fourReferences) =
          inr (Some ("https://www.google.com/maps/dir/?api=1&origin="
                     ++ uriEncode origin
                     ++ "&destination=" ++ uriEncode destination
                     ++ "&travelmode=walking"))
    | origin :: rest =>
        getFullRouteUrl (Some fourReferences) =
          inr (Some ("https://www.google.com/maps/dir/?api=1&origin="
                     ++ uriEncode origin
                     ++ "&destination=" ++ uriEncode (last rest origin)
                     ++ "&waypoints="
                     ++ join "|" (map uriEncode (removelast rest))
                     ++ "&travelmode=walking"))
    end.
Proof.
  apply (getFullRouteUrl_spec fourReferences
           (map chunkOfTitle ["A"; "B"; "C"; "B"])).
  - reflexivity.
  - intros chunk t Hin [m [Hm [Ht _]]].
    simpl in Hin.
    destruct Hin as [<- | [<- | [<- | [<- | []]]]];
      injection Hm as <-; injection Ht as <-; reflexivity.
Defined.

(** A surrogate without its partner, [U+D800], after the text of a
    title. *)
Definition loneSurrogate : string := bytes [237; 160; 128].

(** C1 as stated fails on such a title: the list of places has its one
    element and no link is derived, [encodeURIComponent] throws. *)
Lemma lone_surrogate_title_throws :
  let itinerary := grounded ["Caf" ++ loneSurrogate] in
  uniquePlaces (chunksOf itinerary) = ["Caf" ++ loneSurrogate] /\
  getFullRouteUrl itinerary = inl (uriError "URI malformed") /\
  forall link, getFullRouteUrl itinerary <> inr link.
Proof.
  split; [reflexivity|]. split; [reflexivity|].
  intros link. discriminate.
Qed.

End AppFacts.


(** ** The prompts of the three builders *)

Module PromptFacts.
Import Js App Tour JsFacts.

(** The pieces the two grounded templates share. *)
Definition groundedHead (r : TourRequest) : string :=
  "Create a sequential walking tour itinerary for a " ++ quoted (category r) ++ " tour starting from " ++ quoted (location r) ++ ". " ++ LF ++
  "  The total duration should be approximately " ++ Integer_toString (duration r) ++ " minutes." ++ LF.

Definition groundedTail : string :=
  "  " ++ LF ++
  "  For each of the 3-5 main stops in the tour, you MUST:" ++ LF ++
  "  1. Use the Google Maps tool to find the specific location." ++ LF ++
  "  2. List the stop with its official name, a brief description, estimated time, and walking directions." ++ LF ++
  "  " ++ LF ++
  "  CRITICAL: Only use the Google Maps tool for the main stops of the tour. Do not ground the starting location if it's a general area, and do not ground other places mentioned in the descriptions." ++ LF ++
  "  " ++ LF ++
  "  The output should be a clear, step-by-step itinerary.".

Definition serverTail : string :=
  "    " ++ LF ++
  "    Use real, existing places. Ensure coordinates are accurate for the specified location.".

(** A template with the category and the location in quotes and the
    duration as a numeral. *)
Definition template (s0 cat s1 loc r1 : string) (n : N) (r2 : string) : string :=
  s0 ++ quoted cat ++ s1 ++ quoted loc ++ r1 ++ Integer_toString n ++ r2.

Lemma GroundedService_prompt_template (r : TourRequest) :
  GroundedService.prompt r =
    template "Create a sequential walking tour itinerary for a " (category r)
      " tour starting from " (location r)
      (". " ++ LF ++ "  The total duration should be approximately ")
      (duration r) (" minutes." ++ LF ++ groundedTail).
Proof.
  unfold GroundedService.prompt, template. rewrite !string_app_assoc. reflexivity.
Qed.

Lemma GroundedServiceFood_prompt_template (r : TourRequest) :
  GroundedServiceFood.prompt r =
    template "Create a sequential walking tour itinerary for a " (category r)
      " tour starting from " (location r)
      (". " ++ LF ++ "  The total duration should be approximately ")
      (duration r)
      (" minutes." ++ LF ++ "  "
       ++ GroundedServiceFood.categorySpecificInstructions (category r)
       ++ LF ++ groundedTail).
Proof.
  unfold GroundedServiceFood.prompt, template. rewrite !string_app_assoc. reflexivity.
Qed.

Lemma Server_prompt_template (r : TourRequest) :
  Server.prompt r =
    template "Create a detailed walking tour itinerary for a " (category r)
      " tour starting from " (location r)
      (". " ++ LF ++ "    The total duration should be approximately ")
      (duration r) (" minutes." ++ LF ++ serverTail).
Proof.
  unfold Server.prompt, template. rewrite !string_app_assoc. reflexivity.
Qed.

Lemma template_contains (s0 cat s1 loc r1 : string) (n : N) (r2 : string) :
  Contains (template s0 cat s1 loc r1 n r2) cat /\
  Contains (template s0 cat s1 loc r1 n r2) loc /\
  Contains (template s0 cat s1 loc r1 n r2) (Integer_toString n).
Proof.
  unfold template, quoted. repeat split.
  - apply Contains_app_r, Contains_app_l, Contains_app_r, Contains_app_l,
      Contains_refl.
  - do 3 apply Contains_app_r.
    apply Contains_app_l, Contains_app_r, Contains_app_l, Contains_refl.
  - do 5 apply Contains_app_r. apply Contains_app_l, Contains_refl.
Qed.

(** A request the wizard can build: a supported category, a location
    that is not empty, a preset duration. *)
Definition validRequest (r : TourRequest) : Prop :=
  In (category r) (map Wizard.id Wizard.CATEGORIES) /\
  location r <> EmptyString /\
  In (duration r) Wizard.DURATIONS.

Definition builders : list (TourRequest -> string) :=
  [GroundedService.prompt; GroundedServiceFood.prompt; Server.prompt].

(** C6. For a valid request each of the three prompts contains the
    category, the location and the decimal numeral of the duration (one
    of 30, 60, 90, 120) as substrings. *)
Theorem prompt_contains_request (r : TourRequest) :
  validRequest r ->
  In (Integer_toString (duration r)) ["30"; "60"; "90"; "120"] /\
  Forall (fun build =>
            Contains (build r) (category r) /\
            Contains (build r) (location r) /\
            Contains (build r) (Integer_toString (duration r)))
         builders.
Proof.
  intros [_ [_ Hd]]. split.
  - unfold Wizard.DURATIONS in Hd. simpl in Hd.
    destruct Hd as [<- | [<- | [<- | [<- | []]]]]; simpl; auto.
  - unfold builders. repeat constructor.
    + rewrite GroundedService_prompt_template; apply template_contains.
    + rewrite GroundedService_prompt_template; apply template_contains.
    + rewrite GroundedService_prompt_template; apply template_contains.
    + rewrite GroundedServiceFood_prompt_template; apply template_contains.
    + rewrite GroundedServiceFood_prompt_template; apply template_contains.
    + rewrite GroundedServiceFood_prompt_template; apply template_contains.
    + rewrite Server_prompt_template; apply template_contains.
    + rewrite Server_prompt_template; apply template_contains.
    + rewrite Server_prompt_template; apply template_contains.
Qed.

Definition historicalRome : TourRequest :=
  {| category := "Historical"; location := "Piazza Navona, Rome";
     duration := 90; latLng := None |}.

Lemma prompt_contains_request_witness :
  In (Integer_toString (duration historicalRome)) ["30"; "60"; "90"; "120"] /\
  Forall (fun build =>
            Contains (build historicalRome) (category historicalRome) /\
            Contains (build historicalRome) (location historicalRome) /\
            Contains (build historicalRome)
              (Integer_toString (duration historicalRome)))
         builders.
Proof.
  apply (prompt_contains_request historicalRome).
  unfold validRequest, historicalRome, Wizard.CATEGORIES, Wizard.DURATIONS. simpl.
  repeat split; [tauto | discriminate | tauto].
Defined.

(** *** Where the food guidance occurs *)

Lemma DQ_app (x : string) : DQ ++ x = String "034"%char x.
Proof. reflexivity. Qed.

(** A text [g] without a double quote, whose prefix [probe] has no digit,
    occurs in a template only inside the category or the location, unless
    the fixed parts hold it. *)
Lemma template_without (g probe rest s0 cat s1 loc r1 r2 : string) (n : N) :
  g = probe ++ rest ->
  hasChar "034"%char g = false ->
  forallb (fun d => negb (hasChar d probe))
    (list_ascii_of_string "0123456789") = true ->
  includes s0 g = false -> includes s1 g = false ->
  includes r1 probe = false -> includes r2 probe = false ->
  ~ Contains cat g -> ~ Contains loc g ->
  ~ Contains (template s0 cat s1 loc r1 n r2) g.
Proof.
  intros Hg Hq Hd Hs0 Hs1 Hr1 Hr2 Hcat Hloc H.
  apply includes_false in Hs0, Hs1, Hr1, Hr2.
  unfold template, quoted in H.
  rewrite !string_app_assoc, !DQ_app in H.
  apply (Contains_split_char g _ _ _ Hq) in H as [H | H]; [contradiction|].
  apply (Contains_split_char g _ _ _ Hq) in H as [H | H]; [contradiction|].
  apply (Contains_split_char g _ _ _ Hq) in H as [H | H]; [contradiction|].
  apply (Contains_split_char g _ _ _ Hq) in H as [H | H]; [contradiction|].
  rewrite Hg in H. apply Contains_prefix in H.
  apply (Contains_split_number probe _ _ _ Hd) in H as [H | H]; contradiction.
Qed.

(** The first characters of the food guidance: a line feed, the
    indentation and the capital of its first word. *)
Definition foodProbe : string := LF ++ "    P".

Ltac by_computation := vm_compute; reflexivity.

Lemma foodInstructions_probe :
  exists rest, GroundedServiceFood.foodInstructions = foodProbe ++ rest.
Proof. eexists. reflexivity. Qed.

(** The prompts of the first grounded variant and of the server hold the
    food guidance only if the request's own strings do. *)
Lemma GroundedService_prompt_without (r : TourRequest) :
  ~ Contains (category r) GroundedServiceFood.foodInstructions ->
  ~ Contains (location r) GroundedServiceFood.foodInstructions ->
  ~ Contains (GroundedService.prompt r) GroundedServiceFood.foodInstructions.
Proof.
  intros Hc Hl. rewrite GroundedService_prompt_template.
  destruct foodInstructions_probe as [rest E].
  apply (template_without _ foodProbe rest); auto; by_computation.
Qed.

Lemma Server_prompt_without (r : TourRequest) :
  ~ Contains (category r) GroundedServiceFood.foodInstructions ->
  ~ Contains (location r) GroundedServiceFood.foodInstructions ->
  ~ Contains (Server.prompt r) GroundedServiceFood.foodInstructions.
Proof.
  intros Hc Hl. rewrite Server_prompt_template.
  destruct foodInstructions_probe as [rest E].
  apply (template_without _ foodProbe rest); auto; by_computation.
Qed.

Lemma GroundedServiceFood_prompt_without (r : TourRequest) :
  category r <> "Food tour" ->
  ~ Contains (category r) GroundedServiceFood.foodInstructions ->
  ~ Contains (location r) GroundedServiceFood.foodInstructions ->
  ~ Contains (GroundedServiceFood.prompt r) GroundedServiceFood.foodInstructions.
Proof.
  intros Hne Hc Hl. rewrite GroundedServiceFood_prompt_template.
  unfold GroundedServiceFood.categorySpecificInstructions.
  apply String.eqb_neq in Hne. rewrite Hne.
  destruct foodInstructions_probe as [rest E].
  apply (template_without _ foodProbe rest); auto; by_computation.
Qed.

Lemma GroundedServiceFood_prompt_with (r : TourRequest) :
  category r = "Food tour" ->
  Contains (GroundedServiceFood.prompt r) GroundedServiceFood.foodInstructions.
Proof.
  intros Hc. rewrite GroundedServiceFood_prompt_template.
  unfold GroundedServiceFood.categorySpecificInstructions, template.
  rewrite Hc. change ("Food tour" =? "Food tour") with true. cbv iota.
  do 6 apply Contains_app_r.
  apply Contains_app_r, Contains_app_r, Contains_app_r, Contains_app_l, Contains_refl.
Qed.

(** C2 (as the code has it). For a request whose category and location
    do not themselves contain the food guidance: the prompt of the
    grounded variant with category instructions contains the guidance if
    and only if the category is ["Food tour"]; the prompt of the other
    grounded variant and the prompt of the structured mode never contain
    it, whatever the category. *)
Theorem guidance_only_in_food_variant (r : TourRequest) :
  ~ Contains (category r) GroundedServiceFood.foodInstructions ->
  ~ Contains (location r) GroundedServiceFood.foodInstructions ->
  (Contains (GroundedServiceFood.prompt r) GroundedServiceFood.foodInstructions
   <-> category r = "Food tour") /\
  ~ Contains (GroundedService.prompt r) GroundedServiceFood.foodInstructions /\
  ~ Contains (Server.prompt r) GroundedServiceFood.foodInstructions.
Proof.
  intros Hc Hl. split; [split|split].
  - intros H. destruct (string_dec (category r) "Food tour") as [E | E];
      [assumption|].
    exfalso. now apply (GroundedServiceFood_prompt_without r).
  - apply GroundedServiceFood_prompt_with.
  - now apply GroundedService_prompt_without.
  - now apply Server_prompt_without.
Qed.

Definition foodTourSeattle : TourRequest :=
  {| category := "Food tour"; location := "Pike Place Market, Seattle";
     duration := 60; latLng := None |}.

Lemma guidance_only_in_food_variant_witness :
  (Contains (GroundedServiceFood.prompt foodTourSeattle)
     GroundedServiceFood.foodInstructions
   <-> category foodTourSeattle = "Food tour") /\
  ~ Contains (GroundedService.prompt foodTourSeattle)
      GroundedServiceFood.foodInstructions /\
  ~ Contains (Server.prompt foodTourSeattle)
      GroundedServiceFood.foodInstructions.
Proof.
  apply (guidance_only_in_food_variant foodTourSeattle);
    apply includes_false; vm_compute; reflexivity.
Defined.

(** C2 as stated fails: a ["Food tour"] request gets the guidance from
    one builder only; the structured-mode prompt and the prompt of the
    first grounded variant are built without it. *)
Lemma food_tour_prompt_without_guidance :
  category foodTourSeattle = "Food tour" /\
  includes (GroundedServiceFood.prompt foodTourSeattle)
    GroundedServiceFood.foodInstructions = true /\
  includes (Server.prompt foodTourSeattle)
    GroundedServiceFood.foodInstructions = false /\
  includes (GroundedService.prompt foodTourSeattle)
    GroundedServiceFood.foodInstructions = false.
Proof. repeat split; vm_compute; reflexivity. Qed.

(** The proviso on the request's own strings is needed: a location that
    quotes the guidance carries it into every prompt. *)
Example guidance_from_location :
  let r := {| category := "Historical";
              location := GroundedServiceFood.foodInstructions;
              duration := 30; latLng := None |} in
  includes (Server.prompt r) GroundedServiceFood.foodInstructions = true /\
  includes (GroundedServiceFood.prompt r)
    GroundedServiceFood.foodInstructions = true.
Proof. split; vm_compute; reflexivity. Qed.

(** *** The two grounded variants side by side *)

(** C10 (as the code has it). For a category other than ["Food tour"]
    the two grounded variants call the same model with the same
    configuration, and their prompts agree up to one line: where the first
    variant goes from the duration line to the blank line before the
    stops, the variant with category instructions has one more line, of
    two spaces, left by the empty instructions. *)
Theorem grounded_variants_differ_by_a_line (r : TourRequest) :
  category r <> "Food tour" ->
  GroundedService.prompt r = groundedHead r ++ groundedTail /\
  GroundedServiceFood.prompt r = groundedHead r ++ ("  " ++ LF) ++ groundedTail /\
  GenAI.config (GroundedService.callParams r)
    = GenAI.config (GroundedServiceFood.callParams r) /\
  GenAI.model (GroundedService.callParams r)
    = GenAI.model (GroundedServiceFood.callParams r).
Proof.
  intros Hne. repeat split.
  - unfold GroundedService.prompt, groundedHead.
    rewrite !string_app_assoc. reflexivity.
  - unfold GroundedServiceFood.prompt, groundedHead,
      GroundedServiceFood.categorySpecificInstructions.
    apply String.eqb_neq in Hne. rewrite Hne.
    rewrite !string_app_assoc. reflexivity.
Qed.

Lemma grounded_variants_differ_by_a_line_witness :
  GroundedService.prompt historicalRome
    = groundedHead historicalRome ++ groundedTail /\
  GroundedServiceFood.prompt historicalRome
    = groundedHead historicalRome ++ ("  " ++ LF) ++ groundedTail /\
  GenAI.config (GroundedService.callParams historicalRome)
    = GenAI.config (GroundedServiceFood.callParams historicalRome) /\
  GenAI.model (GroundedService.callParams historicalRome)
    = GenAI.model (GroundedServiceFood.callParams historicalRome).
Proof.
  apply (grounded_variants_differ_by_a_line historicalRome).
  unfold historicalRome. simpl. discriminate.
Defined.

(** C10 as stated fails: on a category other than ["Food tour"] the two
    prompts are different strings. *)
Lemma grounded_prompts_differ :
  category historicalRome <> "Food tour" /\
  GroundedService.prompt historicalRome
    <> GroundedServiceFood.prompt historicalRome.
Proof.
  split; [discriminate|].
  apply String.eqb_neq. vm_compute. reflexivity.
Qed.

End PromptFacts.

(** ** Properties of objects *)

Module JsValueFacts.
Import Js GenAI JsValue.

Lemma lookup_without_same (k : string) (ps : props) :
  lookup k (without k ps) = None.
Proof.
  induction ps as [|[k' v] ps IH]; simpl; [reflexivity|].
  destruct (String.eqb k k') eqn:E; simpl; [assumption|].
  now rewrite E.
Qed.

Lemma lookup_without_other (k k' : string) (ps : props) :
  k <> k' -> lookup k (without k' ps) = lookup k ps.
Proof.
  intros Hne. induction ps as [|[k0 v] ps IH]; simpl; [reflexivity|].
  destruct (String.eqb k' k0) eqn:E; simpl.
  - apply String.eqb_eq in E. subst k0.
    apply String.eqb_neq in Hne. now rewrite Hne.
  - now rewrite IH.
Qed.

Lemma lookup_assign_same (k : string) (v : value) (ps : props) :
  lookup k (assign k v ps) = Some v.
Proof.
  induction ps as [|[k' v'] ps IH]; simpl.
  - now rewrite String.eqb_refl.
  - destruct (String.eqb k k') eqn:E; simpl; now rewrite E.
Qed.

Lemma lookup_assign_other (k k' : string) (v : value) (ps : props) :
  k <> k' -> lookup k (assign k' v ps) = lookup k ps.
Proof.
  intros Hne. induction ps as [|[k0 v0] ps IH]; simpl.
  - apply String.eqb_neq in Hne. now rewrite Hne.
  - destruct (String.eqb k' k0) eqn:E; simpl.
    + apply String.eqb_eq in E. subst k0. apply String.eqb_neq in Hne.
      rewrite Hne. apply lookup_without_other. now apply String.eqb_neq.
    + now rewrite IH.
Qed.

Section MembersFacts.

Variable f : value -> value.

Lemma membersWith_cons (k : string) (v : value) (ps : props) :
  membersWith f ((k, v) :: ps) =
    match v with
    | VUndefined => membersWith f ps
    | _ => (k, f v) :: membersWith f ps
    end.
Proof. destruct v; reflexivity. Qed.

Lemma lookup_members_none (k : string) (ps : props) :
  lookup k ps = None -> lookup k (membersWith f ps) = None.
Proof.
  induction ps as [|[k' v] ps IH]; [reflexivity|].
  rewrite membersWith_cons. simpl.
  destruct (String.eqb k k') eqn:E; [discriminate|].
  intros H. destruct v; simpl; rewrite ?E; auto.
Qed.

Lemma lookup_members_some (k : string) (x : value) (ps : props) :
  lookup k ps = Some x -> x <> VUndefined ->
  lookup k (membersWith f ps) = Some (f x).
Proof.
  intros H Hx. induction ps as [|[k' v] ps IH]; [discriminate|].
  rewrite membersWith_cons. simpl in H.
  destruct (String.eqb k k') eqn:E.
  - injection H as ->. destruct x; simpl; rewrite ?E; congruence.
  - destruct v; simpl; rewrite ?E; auto.
Qed.

Lemma lookup_members_without_same (k : string) (ps : props) :
  lookup k (membersWith f (without k ps)) = None.
Proof. apply lookup_members_none, lookup_without_same. Qed.

Lemma lookup_members_assign_same (k : string) (v : value) (ps : props) :
  lookup k (membersWith f (assign k v ps)) =
    match v with VUndefined => None | _ => Some (f v) end.
Proof.
  induction ps as [|[k' v'] ps IH]; simpl assign.
  - rewrite membersWith_cons. destruct v; simpl; now rewrite ?String.eqb_refl.
  - destruct (String.eqb k k') eqn:E; rewrite membersWith_cons.
    + destruct v; simpl; rewrite ?E; auto using lookup_members_without_same.
    + destruct v'; simpl; rewrite ?E; auto.
Qed.

Lemma lookup_members_without_other (k k' : string) (ps : props) :
  k <> k' ->
  lookup k (membersWith f (without k' ps)) = lookup k (membersWith f ps).
Proof.
  intros Hne. induction ps as [|[k0 v] ps IH]; [reflexivity|].
  simpl without. destruct (String.eqb k' k0) eqn:E; simpl negb; cbv iota.
  - apply String.eqb_eq in E. subst k0. apply String.eqb_neq in Hne.
    rewrite membersWith_cons. destruct v; simpl; rewrite ?Hne; auto.
  - rewrite !membersWith_cons. destruct v; simpl; rewrite ?IH; auto.
Qed.

Lemma lookup_members_assign_other (k k' : string) (v : value) (ps : props) :
  k <> k' ->
  lookup k (membersWith f (assign k' v ps)) = lookup k (membersWith f ps).
Proof.
  intros Hne. pose proof Hne as Hb. apply String.eqb_neq in Hb.
  induction ps as [|[k0 v0] ps IH]; simpl assign.
  - rewrite membersWith_cons. destruct v; simpl; rewrite ?Hb; auto.
  - destruct (String.eqb k' k0) eqn:E.
    + apply String.eqb_eq in E. subst k0.
      rewrite !membersWith_cons.
      destruct v, v0; simpl; rewrite ?Hb;
        auto using lookup_members_without_other.
    + rewrite !membersWith_cons. destruct v0; simpl; rewrite ?IH; auto.
Qed.

End MembersFacts.

(** Serialising adds no field. *)
Lemma hasField_element (k : string) (e : value) :
  hasField k e = false -> hasField k (elementWith toJSON e) = false.
Proof.
  destruct e; simpl; auto.
  - unfold jsonNumber.
    destruct (PrimFloat.is_nan n || PrimFloat.is_infinity n); [reflexivity|].
    destruct (PrimFloat.is_zero n); reflexivity.
  - destruct (lookup k props0) eqn:E; [discriminate|].
    intros _. now rewrite lookup_members_none.
Qed.

End JsValueFacts.

(** ** The structured-mode handler *)

Module ServerFacts.
Import Js Tour GenAI JsValue Runtime Server JsFacts JsValueFacts.

(** The console lines of a run. *)
Definition requestLog (r : TourRequest) : Event :=
  ConsoleLog ["Generating " ++ Integer_toString (duration r) ++ "min " ++ category r ++ " tour for " ++ location r].

Definition lengthLog (rawText : string) : Event :=
  ConsoleLog ["Raw AI Response length:"; Integer_toString (String_length rawText)].

Definition parseErrorLog (rawText : string) : Event :=
  ConsoleError ["JSON Parse Error. Raw text:"; rawText].

Definition failureLog (msg : string) : Event :=
  ConsoleError ["Error generating tour:"; msg].

(** The credential of the generative model is missing, empty or the
    placeholder. *)
Definition badCredential (env : ProcessEnv) : Prop :=
  configuredKey env = None \/
  configuredKey env = Some EmptyString \/
  configuredKey env = Some "MY_GEMINI_API_KEY".

(** The model call of the run fails with [e]. *)
Definition modelFails (P : Platform) (env : ProcessEnv) (r : TourRequest)
    (e : JsError) : Prop :=
  exists ai, getAiClient env = inr ai /\
             generateContent P ai (callParams r) = inl e.

(** The model call of the run answers with the text [rawText]. *)
Definition modelAnswers (P : Platform) (env : ProcessEnv) (r : TourRequest)
    (rawText : string) : Prop :=
  exists ai response,
    getAiClient env = inr ai /\
    generateContent P ai (callParams r) = inr response /\
    orElse (responseText response) EmptyString = rawText.

Lemma getAiClient_bad (env : ProcessEnv) :
  badCredential env -> getAiClient env = inl (newError missingKeyMessage).
Proof.
  unfold badCredential, getAiClient.
  intros [-> | [-> | ->]]; reflexivity.
Qed.

Lemma getAiClient_good (env : ProcessEnv) (ai : GoogleGenAI) :
  getAiClient env = inr ai -> ~ badCredential env.
Proof.
  unfold badCredential, getAiClient.
  intros H [E | [E | E]]; rewrite E in H; discriminate.
Qed.

Lemma attempt_bad_credential (P : Platform) (env : ProcessEnv) (r : TourRequest) :
  badCredential env ->
  attempt P env r = ([requestLog r], inl (newError missingKeyMessage)).
Proof.
  intros H. unfold attempt. rewrite (getAiClient_bad env H). reflexivity.
Qed.

Lemma attempt_model_fails (P : Platform) (env : ProcessEnv) (r : TourRequest)
    (ai : GoogleGenAI) (e : JsError) :
  getAiClient env = inr ai ->
  generateContent P ai (callParams r) = inl e ->
  attempt P env r = ([requestLog r; ModelCall ai (callParams r)], inl e).
Proof.
  intros Hk Hm. unfold attempt, callModel, bind, lift, emit.
  rewrite Hk, Hm. reflexivity.
Qed.

Lemma attempt_answered (P : Platform) (env : ProcessEnv) (r : TourRequest)
    (ai : GoogleGenAI) (response : GenerateContentResponse) :
  getAiClient env = inr ai ->
  generateContent P ai (callParams r) = inr response ->
  let rawText := orElse (responseText response) EmptyString in
  attempt P env r =
    match resolve P env rawText with
    | inr resp =>
        ([requestLog r; ModelCall ai (callParams r); lengthLog rawText],
         inr resp)
    | inl _ =>
        ([requestLog r; ModelCall ai (callParams r); lengthLog rawText;
          parseErrorLog rawText],
         inl (newError parseFailureMessage))
    end.
Proof.
  intros Hk Hm rawText. unfold attempt, callModel, bind, lift, emit, tryCatch.
  rewrite Hk, Hm. fold rawText.
  destruct (resolve P env rawText); reflexivity.
Qed.

Lemma run_bad_credential (P : Platform) (env : ProcessEnv) (r : TourRequest) :
  badCredential env ->
  generateTour P env r =
    ([requestLog r; failureLog missingKeyMessage],
     inr {| status := 500; body := errorBody missingKeyMessage |}).
Proof.
  intros H. unfold generateTour. now rewrite attempt_bad_credential.
Qed.

Lemma run_model_fails (P : Platform) (env : ProcessEnv) (r : TourRequest)
    (ai : GoogleGenAI) (e : JsError) :
  getAiClient env = inr ai ->
  generateContent P ai (callParams r) = inl e ->
  generateTour P env r =
    ([requestLog r; ModelCall ai (callParams r); failureLog (message e)],
     inr {| status := 500;
            body := errorBody (orElse (Some (message e))
                                 "Failed to generate tour") |}).
Proof.
  intros Hk Hm. unfold generateTour.
  now rewrite (attempt_model_fails P env r ai e Hk Hm).
Qed.

Lemma run_answered (P : Platform) (env : ProcessEnv) (r : TourRequest)
    (ai : GoogleGenAI) (response : GenerateContentResponse) :
  getAiClient env = inr ai ->
  generateContent P ai (callParams r) = inr response ->
  let rawText := orElse (responseText response) EmptyString in
  generateTour P env r =
    match resolve P env rawText with
    | inr resp =>
        ([requestLog r; ModelCall ai (callParams r); lengthLog rawText],
         inr resp)
    | inl _ =>
        ([requestLog r; ModelCall ai (callParams r); lengthLog rawText;
          parseErrorLog rawText; failureLog parseFailureMessage],
         inr {| status := 500; body := errorBody parseFailureMessage |})
    end.
Proof.
  intros Hk Hm rawText. unfold generateTour.
  rewrite (attempt_answered P env r ai response Hk Hm). fold rawText.
  destruct (resolve P env rawText); reflexivity.
Qed.

(** *** The credential of the model *)




(** A platform whose model rejects the key, and environments without a
    usable key. *)
Definition rejectedKey : JsError :=
  newError "API key not valid. Please pass a valid API key.".

Definition rejecting : Platform :=
  {| generateContent := fun _ _ => inl rejectedKey;
     JSON_parse := fun _ => None;
     Number_toString := fun _ => "0" |}.

Definition placeholderEnv : ProcessEnv :=
  {| GEMINI_API_KEY := Some "MY_GEMINI_API_KEY";
     API_KEY := None;
     GOOGLE_MAPS_API_KEY := None |}.



(** *** Failures *)

Lemma run_invalid_json
    (P : Platform) (env : ProcessEnv) (r : TourRequest) (rawText : string) :
  modelAnswers P env r rawText ->
  JSON_parse P rawText = None ->
  snd (attempt P env r) = inl (newError parseFailureMessage) /\
  snd (generateTour P env r) =
    inr {| status := 500; body := errorBody parseFailureMessage |} /\
  In (parseErrorLog rawText) (fst (generateTour P env r)).
Proof.
  intros [ai [response [Hk [Hm Hraw]]]] Hparse.
  pose proof (attempt_answered P env r ai response Hk Hm) as Ha.
  pose proof (run_answered P env r ai response Hk Hm) as Hr.
  cbv zeta in Ha, Hr. rewrite Hraw in Ha, Hr.
  assert (resolve P env rawText = inl (syntaxError "Unexpected token in JSON"))
    as Hres by (unfold resolve; now rewrite Hparse).
  rewrite Hres in Ha, Hr. rewrite Ha, Hr.
  split; [reflexivity|]. split; [reflexivity|]. simpl. auto.
Qed.

Lemma run_model_fails_no_parse_log
    (P : Platform) (env : ProcessEnv) (r : TourRequest) (e : JsError) :
  modelFails P env r e ->
  snd (attempt P env r) = inl e /\
  forall text, ~ In (parseErrorLog text) (fst (generateTour P env r)).
Proof.
  intros [ai [Hk Hm]]. split.
  - now rewrite (attempt_model_fails P env r ai e).
  - intros text. rewrite (run_model_fails P env r ai e Hk Hm).
    unfold parseErrorLog, requestLog, failureLog. simpl.
    intros [E | [E | [E | []]]]; discriminate.
Qed.

Lemma failure_message_differs (m : string) :
  m <> parseFailureMessage ->
  orElse (Some m) "Failed to generate tour" <> parseFailureMessage.
Proof.
  intros H. unfold orElse.
  destruct (truthy_string m); [exact H | discriminate].
Qed.

(** C5 (as the code has it). When the text the model answered is not
    valid JSON, the inner [catch] logs the parse failure and throws an
    [Error] with the parse-failure message, and the handler answers 500
    with that message.  The code has no kinds of error: a failure of the
    model call throws the model's own error, which is answered with its
    own message and without the parse-failure line on the console, so
    that the two answers differ exactly when the messages do; and the
    parse-failure message is not the message of the configuration
    error. *)
Theorem invalid_json_is_parse_failure
    (P : Platform) (env : ProcessEnv) (r : TourRequest) (rawText : string) :
  modelAnswers P env r rawText ->
  JSON_parse P rawText = None ->
  snd (attempt P env r) = inl (newError parseFailureMessage) /\
  snd (generateTour P env r) =
    inr {| status := 500; body := errorBody parseFailureMessage |} /\
  In (parseErrorLog rawText) (fst (generateTour P env r)) /\
  (forall P' e, modelFails P' env r e ->
     snd (attempt P' env r) = inl e /\
     snd (generateTour P' env r) =
       inr {| status := 500;
              body := errorBody (orElse (Some (message e))
                                   "Failed to generate tour") |} /\
     (forall text, ~ In (parseErrorLog text) (fst (generateTour P' env r))) /\
     (message e <> parseFailureMessage ->
      snd (generateTour P' env r) <> snd (generateTour P env r))) /\
  parseFailureMessage <> missingKeyMessage.
Proof.
  intros Ha Hp.
  destruct (run_invalid_json P env r rawText Ha Hp) as [H1 [H2 H3]].
  repeat (split; [assumption|]).
  split; [|discriminate].
  intros P' e Hfail.
  destruct (run_model_fails_no_parse_log P' env r e Hfail) as [Hthrown Hlog].
  destruct Hfail as [ai [Hk Hm]].
  pose proof (run_model_fails P' env r ai e Hk Hm) as Hrun.
  split; [exact Hthrown|]. split; [now rewrite Hrun|]. split; [exact Hlog|].
  intros Hne. rewrite Hrun, H2. cbn [snd]. intros E.
  apply (failure_message_differs (message e) Hne).
  unfold errorBody in E. congruence.
Qed.

(** The three kinds of failure of the endpoint. *)
Definition failure (P : Platform) (env : ProcessEnv) (r : TourRequest) : Prop :=
  badCredential env \/
  (exists e, modelFails P env r e) \/
  (exists rawText, modelAnswers P env r rawText /\ JSON_parse P rawText = None).

Lemma orElse_truthy (a : option string) (fallback : string) :
  truthy_string fallback = true -> orElse a fallback <> EmptyString.
Proof.
  unfold orElse. intros Hf.
  destruct a as [[|c x]|]; try discriminate; now destruct fallback.
Qed.

(** C8. Each failure of the endpoint, be it a missing credential, a
    failed model call or an answer that is not JSON, is answered with
    status 500 and a body that is one object with the single property
    [error], a non-empty message: the same status and the same shape. *)
Theorem failures_share_one_shape
    (P : Platform) (env : ProcessEnv) (r : TourRequest) :
  failure P env r ->
  exists msg,
    msg <> EmptyString /\
    snd (generateTour P env r) =
      inr {| status := 500; body := VObj [("error", VStr msg)] |}.
Proof.
  intros [H | [[e [ai [Hk Hm]]] | [rawText [Ha Hp]]]].
  - exists missingKeyMessage. split; [discriminate|].
    now rewrite (run_bad_credential P env r H).
  - exists (orElse (Some (message e)) "Failed to generate tour").
    split; [now apply orElse_truthy|].
    now rewrite (run_model_fails P env r ai e Hk Hm).
  - exists parseFailureMessage. split; [discriminate|].
    apply (run_invalid_json P env r rawText Ha Hp).
Qed.

Lemma failures_share_one_shape_witness :
  exists msg,
    msg <> EmptyString /\
    snd (generateTour rejecting placeholderEnv PromptFacts.foodTourSeattle) =
      inr {| status := 500; body := VObj [("error", VStr msg)] |}.
Proof.
  apply (failures_share_one_shape rejecting placeholderEnv
           PromptFacts.foodTourSeattle).
  left. right. right. reflexivity.
Defined.


(** *** Parsed objects: defaults and enrichment *)

(** [if (!tour.k) tour.k = []] on the properties of an object. *)
Definition withDefault (k : string) (ps : props) : props :=
  if truthy (field k (VObj ps)) then ps else assign k (VArr [] []) ps.

Definition defaulted (ps : props) : props :=
  withDefault "directions" (withDefault "stops" ps).

Lemma getProp_object (k : string) (ps : props) :
  getProp (VObj ps) k = inr (field k (VObj ps)).
Proof. reflexivity. Qed.

Lemma defaultArray_object (k : string) (ps : props) :
  defaultArray k (VObj ps) = inr (VObj (withDefault k ps)).
Proof.
  unfold defaultArray, withDefault, getProp, field, andThen.
  destruct (truthy _); reflexivity.
Qed.

Lemma field_assign_same (k : string) (v : value) (ps : props) :
  field k (VObj (assign k v ps)) = v.
Proof. simpl. now rewrite lookup_assign_same. Qed.

Lemma field_assign_other (k k' : string) (v : value) (ps : props) :
  k <> k' -> field k (VObj (assign k' v ps)) = field k (VObj ps).
Proof. intros H. simpl. now rewrite lookup_assign_other. Qed.

Lemma field_withDefault_same (k : string) (ps : props) :
  field k (VObj (withDefault k ps)) =
    if truthy (field k (VObj ps)) then field k (VObj ps) else VArr [] [].
Proof.
  unfold withDefault. destruct (truthy (field k (VObj ps))); [reflexivity|].
  apply field_assign_same.
Qed.

Lemma field_withDefault_other (k k' : string) (ps : props) :
  k <> k' -> field k (VObj (withDefault k' ps)) = field k (VObj ps).
Proof.
  intros H. unfold withDefault.
  destruct (truthy (field k' (VObj ps))); [reflexivity|].
  now apply field_assign_other.
Qed.

Lemma field_defaulted_stops (ps : props) :
  field "stops" (VObj (defaulted ps)) =
    if truthy (field "stops" (VObj ps)) then field "stops" (VObj ps)
    else VArr [] [].
Proof.
  unfold defaulted.
  rewrite field_withDefault_other by discriminate.
  apply field_withDefault_same.
Qed.

Lemma field_defaulted_directions (ps : props) :
  field "directions" (VObj (defaulted ps)) =
    if truthy (field "directions" (VObj ps)) then field "directions" (VObj ps)
    else VArr [] [].
Proof.
  unfold defaulted. rewrite field_withDefault_same.
  now rewrite field_withDefault_other by discriminate.
Qed.

(** A value that is not truthy has no elements. *)
Lemma elements_falsy (v : value) : truthy v = false -> elements v = [].
Proof. destruct v; simpl; congruence. Qed.

Lemma elements_defaulted_stops (ps : props) :
  elements (field "stops" (VObj (defaulted ps)))
    = elements (field "stops" (VObj ps)).
Proof.
  rewrite field_defaulted_stops.
  destruct (truthy (field "stops" (VObj ps))) eqn:E; [reflexivity|].
  symmetry. now apply elements_falsy.
Qed.

Lemma elements_defaulted_directions (ps : props) :
  elements (field "directions" (VObj (defaulted ps)))
    = elements (field "directions" (VObj ps)).
Proof.
  rewrite field_defaulted_directions.
  destruct (truthy (field "directions" (VObj ps))) eqn:E; [reflexivity|].
  symmetry. now apply elements_falsy.
Qed.

Lemma truthy_defaulted_stops (ps : props) :
  truthy (field "stops" (VObj (defaulted ps))) = true.
Proof.
  rewrite field_defaulted_stops.
  now destruct (truthy (field "stops" (VObj ps))) eqn:E.
Qed.

Lemma truthy_defaulted_directions (ps : props) :
  truthy (field "directions" (VObj (defaulted ps))) = true.
Proof.
  rewrite field_defaulted_directions.
  now destruct (truthy (field "directions" (VObj ps))) eqn:E.
Qed.

(** Serialisation keeps a property that has a value. *)
Lemma field_toJSON (k : string) (ps : props) :
  truthy (field k (VObj ps)) = true ->
  field k (toJSON (VObj ps)) = toJSON (field k (VObj ps)).
Proof.
  simpl. destruct (lookup k ps) as [x|] eqn:E; [|discriminate].
  intros Hx. rewrite (lookup_members_some toJSON k x ps E); [reflexivity|].
  intros ->. discriminate.
Qed.

Lemma elements_toJSON (v : value) :
  elements (toJSON v) = map (elementWith toJSON) (elements v).
Proof.
  destruct v; try reflexivity. simpl. unfold jsonNumber.
  destruct (PrimFloat.is_nan n || PrimFloat.is_infinity n); [reflexivity|].
  destruct (PrimFloat.is_zero n); reflexivity.
Qed.

(** The handler on a parsed object, without and with a map key. *)
Lemma resolve_object_plain (P : Platform) (env : ProcessEnv)
    (rawText : string) (ps : props) :
  JSON_parse P rawText = Some (VObj ps) ->
  enrichmentKey env = None ->
  resolve P env rawText =
    inr {| status := 200; body := toJSON (VObj (defaulted ps)) |}.
Proof.
  intros Hp Hk. unfold resolve. rewrite Hp, Hk.
  rewrite defaultArray_object. simpl andThen.
  rewrite defaultArray_object. reflexivity.
Qed.

Lemma enrich_object (P : Platform) (key : string) (ps : props) :
  enrich P key (VObj ps) =
    andThen (arrayMap (enrichStop P key) (field "stops" (VObj ps)))
      (fun stops' =>
    andThen (arrayMap (enrichDirection P key) (field "directions" (VObj ps)))
      (fun directions' =>
    inr (VObj (assign "directions" directions' (assign "stops" stops' ps))))).
Proof.
  unfold enrich, andThen, getProp, setProp, field.
  destruct (arrayMap (enrichStop P key) _) as [e | stops']; [reflexivity|].
  rewrite lookup_assign_other by discriminate. reflexivity.
Qed.

Lemma mapM_Forall2 {A B} (f : A -> JsError + B) (l : list A) (out : list B) :
  mapM f l = inr out -> Forall2 (fun x y => f x = inr y) l out.
Proof.
  revert out. induction l as [|x l IH]; simpl; intros out H.
  - injection H as <-. constructor.
  - destruct (f x) as [e | y] eqn:E; [discriminate|]. simpl in H.
    destruct (mapM f l) as [e | ys]; [discriminate|]. simpl in H.
    injection H as <-. constructor; auto.
Qed.

Lemma arrayMap_inr (f : value -> JsError + value) (v out : value) :
  arrayMap f v = inr out ->
  exists outs, out = VArr outs [] /\
               Forall2 (fun x y => f x = inr y) (elements v) outs.
Proof.
  destruct v; try discriminate. simpl.
  destruct (lookup "map" named); [discriminate|].
  destruct (mapM f elems) as [e | outs] eqn:E; [discriminate|].
  simpl. intros H. injection H as <-. exists outs.
  split; [reflexivity | now apply mapM_Forall2].
Qed.

Lemma Forall2_map_right {A B C} (R : A -> C -> Prop) (g : B -> C)
    (l : list A) (l' : list B) :
  Forall2 (fun x y => R x (g y)) l l' -> Forall2 R l (map g l').
Proof. induction 1; simpl; constructor; auto. Qed.

Lemma toJSON_object (ps : props) :
  toJSON (VObj ps) = VObj (membersWith toJSON ps).
Proof. reflexivity. Qed.

Lemma field_enriched_stops (stops' directions' : value) (ps : props) :
  stops' <> VUndefined ->
  field "stops"
    (toJSON (VObj (assign "directions" directions' (assign "stops" stops' ps))))
  = toJSON stops'.
Proof.
  intros H. rewrite toJSON_object. unfold field.
  rewrite lookup_members_assign_other by discriminate.
  rewrite lookup_members_assign_same. destruct stops'; congruence.
Qed.

Lemma field_enriched_directions (directions' : value) (ps : props) :
  directions' <> VUndefined ->
  field "directions" (toJSON (VObj (assign "directions" directions' ps)))
  = toJSON directions'.
Proof.
  intros H. rewrite toJSON_object. unfold field.
  rewrite lookup_members_assign_same. destruct directions'; congruence.
Qed.

(** *** The rule of enrichment *)

(** A coordinate that is zero or absent. *)
Definition zeroOrMissing (v : value) : bool :=
  match v with
  | VUndefined => true
  | VNum n => PrimFloat.is_zero n
  | _ => false
  end.

Lemma zeroOrMissing_falsy (v : value) :
  zeroOrMissing v = true -> truthy v = false.
Proof.
  destruct v; simpl; try discriminate; [reflexivity|].
  intros ->. reflexivity.
Qed.

(** A stop and the stop returned for it: [imageUrl] is there exactly
    when [lat] and [lng] are both truthy, it is then the static-map link,
    and a zero or absent coordinate leaves the stop without it. *)
Definition stopRule (P : Platform) (key : string) (stop out : value) : Prop :=
  exists lat lng,
    getProp stop "lat" = inr lat /\
    getProp stop "lng" = inr lng /\
    hasField "imageUrl" out = truthy lat && truthy lng /\
    (if truthy lat && truthy lng
     then exists url, stopImageUrl P key lat lng = inr url /\
                      field "imageUrl" out = VStr url
     else field "imageUrl" out = VUndefined) /\
    (zeroOrMissing lat || zeroOrMissing lng = true ->
     hasField "imageUrl" out = false).

(** A direction and the direction returned for it: [mapUrl] is there
    exactly when [fromLatLng] and [toLatLng] are both truthy. *)
Definition directionRule (dir out : value) : Prop :=
  exists fromLatLng toLatLng,
    getProp dir "fromLatLng" = inr fromLatLng /\
    getProp dir "toLatLng" = inr toLatLng /\
    hasField "mapUrl" out = truthy fromLatLng && truthy toLatLng.

Lemma enrichStop_rule (P : Platform) (key : string) (stop out : value) :
  enrichStop P key stop = inr out ->
  stopRule P key stop (elementWith toJSON out).
Proof.
  unfold enrichStop, stopRule.
  destruct (getProp stop "lat") as [e | lat]; [discriminate|].
  destruct (getProp stop "lng") as [e | lng]; [discriminate|].
  rewrite !andThen_inr. intros H.
  exists lat, lng. split; [reflexivity|]. split; [reflexivity|].
  destruct (truthy lat && truthy lng) eqn:E.
  - destruct (stopImageUrl P key lat lng) as [e | url]; [discriminate|].
    rewrite !andThen_inr in H. injection H as <-.
    unfold elementWith. rewrite toJSON_object. unfold hasField, field.
    rewrite lookup_members_assign_same.
    split; [reflexivity|]. split; [exists url; split; reflexivity|].
    intros Hz. apply orb_true_iff in Hz as [Hz | Hz];
      apply zeroOrMissing_falsy in Hz; rewrite Hz in E;
      [discriminate | now rewrite andb_false_r in E].
  - rewrite andThen_inr in H. injection H as <-.
    unfold elementWith. rewrite toJSON_object. unfold hasField, field.
    rewrite lookup_members_assign_same.
    split; [reflexivity|]. split; reflexivity.
Qed.

Lemma getProp_truthy (v : value) (k : string) :
  truthy v = true -> exists x, getProp v k = inr x.
Proof. destruct v; simpl; try discriminate; eauto. Qed.

Lemma enrichDirection_rule (P : Platform) (key : string) (dir out : value) :
  enrichDirection P key dir = inr out ->
  directionRule dir (elementWith toJSON out).
Proof.
  unfold enrichDirection, directionRule.
  destruct (getProp dir "fromLatLng") as [e | f]; [discriminate|].
  destruct (getProp dir "toLatLng") as [e | t]; [discriminate|].
  rewrite !andThen_inr. intros H.
  exists f, t. split; [reflexivity|]. split; [reflexivity|].
  destruct (truthy f && truthy t) eqn:E.
  - apply andb_true_iff in E as [Ef Et].
    destruct (getProp_truthy f "lat" Ef) as [a Ha].
    destruct (getProp_truthy f "lng" Ef) as [b Hb].
    destruct (getProp_truthy t "lat" Et) as [c Hc].
    destruct (getProp_truthy t "lng" Et) as [d Hd].
    rewrite Ha, Hb, Hc, Hd, !andThen_inr in H.
    destruct (directionMapUrl P key a b c d) as [e | url]; [discriminate|].
    rewrite !andThen_inr in H. injection H as <-.
    unfold elementWith. rewrite toJSON_object. unfold hasField.
    now rewrite lookup_members_assign_same.
  - rewrite andThen_inr in H. injection H as <-.
    unfold elementWith. rewrite toJSON_object. unfold hasField.
    now rewrite lookup_members_assign_same.
Qed.

(** *** A sample run *)

(** The sample answer of the model: a stop at latitude 0, a stop with
    both coordinates, a direction with both ends and one without its
    destination. *)
Definition sampleText : string :=
  "{" ++ quoted "tourName" ++ ":" ++ quoted "Waterfront bites" ++ ","
  ++ quoted "stops" ++ ":[{" ++ quoted "name" ++ ":" ++ quoted "Equator Cafe" ++ ","
  ++ quoted "lat" ++ ":0," ++ quoted "lng" ++ ":-122.375},{"
  ++ quoted "name" ++ ":" ++ quoted "Pike Place Market" ++ ","
  ++ quoted "lat" ++ ":47.625," ++ quoted "lng" ++ ":-122.375}],"
  ++ quoted "directions" ++ ":[{" ++ quoted "from" ++ ":" ++ quoted "Equator Cafe" ++ ","
  ++ quoted "fromLatLng" ++ ":{" ++ quoted "lat" ++ ":0," ++ quoted "lng" ++ ":-122.375},"
  ++ quoted "toLatLng" ++ ":{" ++ quoted "lat" ++ ":47.625," ++ quoted "lng" ++ ":-122.375}},{"
  ++ quoted "from" ++ ":" ++ quoted "Pike Place Market" ++ ","
  ++ quoted "fromLatLng" ++ ":{" ++ quoted "lat" ++ ":47.625," ++ quoted "lng" ++ ":-122.375}}]}".

Definition sampleStops : list value :=
  [ VObj [("name", VStr "Equator Cafe");
          ("lat", VNum 0); ("lng", VNum (-122.375))];
    VObj [("name", VStr "Pike Place Market");
          ("lat", VNum 47.625); ("lng", VNum (-122.375))] ].

Definition sampleDirections : list value :=
  [ VObj [("from", VStr "Equator Cafe");
          ("fromLatLng", VObj [("lat", VNum 0); ("lng", VNum (-122.375))]);
          ("toLatLng", VObj [("lat", VNum 47.625); ("lng", VNum (-122.375))])];
    VObj [("from", VStr "Pike Place Market");
          ("fromLatLng", VObj [("lat", VNum 47.625); ("lng", VNum (-122.375))])] ].

Definition sampleTour : props :=
  [ ("tourName", VStr "Waterfront bites");
    ("stops", VArr sampleStops []);
    ("directions", VArr sampleDirections []) ].

(** A platform whose model answers [text]; its [JSON.parse] knows the
    sample answer and the empty object, and its numbers print as
    JavaScript prints the three of the sample. *)
Definition answering (text : string) : Platform :=
  {| generateContent := fun _ _ =>
       inr {| responseText := Some text; candidates := None |};
     JSON_parse := fun s =>
       if String.eqb s sampleText then Some (VObj sampleTour)
       else if String.eqb s "{}" then Some (VObj [])
       else None;
     Number_toString := fun n =>
       if PrimFloat.eqb n 47.625 then "47.625"
       else if PrimFloat.eqb n (-122.375) then "-122.375"
       else "0" |}.

Definition keyedEnv : ProcessEnv :=
  {| GEMINI_API_KEY := Some "gemini-test-key";
     API_KEY := None;
     GOOGLE_MAPS_API_KEY := Some "maps-test-key" |}.

Definition noMapsEnv : ProcessEnv :=
  {| GEMINI_API_KEY := Some "gemini-test-key";
     API_KEY := None;
     GOOGLE_MAPS_API_KEY := Some "   " |}.

Lemma answering_answers (env : ProcessEnv) (r : TourRequest) (text : string) :
  GEMINI_API_KEY env = Some "gemini-test-key" ->
  truthy_string text = true ->
  modelAnswers (answering text) env r text.
Proof.
  intros Hk Ht. exists {| apiKey := Some "gemini-test-key" |}.
  eexists. split; [|split; [reflexivity|]].
  - unfold getAiClient, configuredKey. rewrite Hk. reflexivity.
  - simpl. now rewrite Ht.
Qed.

(** *** Runs that reach the parsed answer *)

Lemma run_resolved (P : Platform) (env : ProcessEnv) (r : TourRequest)
    (rawText : string) (resp : Response) :
  modelAnswers P env r rawText ->
  resolve P env rawText = inr resp ->
  snd (attempt P env r) = inr resp /\ snd (generateTour P env r) = inr resp.
Proof.
  intros [ai [response [Hk [Hm Hraw]]]] Hres.
  rewrite (attempt_answered P env r ai response Hk Hm).
  rewrite (run_answered P env r ai response Hk Hm).
  cbv zeta. rewrite Hraw, Hres. split; reflexivity.
Qed.

Lemma run_ok_resolved (P : Platform) (env : ProcessEnv) (r : TourRequest)
    (rawText : string) (resp : Response) :
  modelAnswers P env r rawText ->
  snd (generateTour P env r) = inr resp ->
  status resp = 200 ->
  resolve P env rawText = inr resp.
Proof.
  intros [ai [response [Hk [Hm Hraw]]]].
  rewrite (run_answered P env r ai response Hk Hm).
  cbv zeta. rewrite Hraw.
  destruct (resolve P env rawText) as [e | resp']; simpl; intros H Hs.
  - injection H as <-. discriminate.
  - congruence.
Qed.

Lemma resolve_object_keyed (P : Platform) (env : ProcessEnv)
    (rawText key : string) (ps : props) :
  JSON_parse P rawText = Some (VObj ps) ->
  enrichmentKey env = Some key ->
  resolve P env rawText =
    andThen (arrayMap (enrichStop P key) (field "stops" (VObj (defaulted ps))))
      (fun stops' =>
    andThen (arrayMap (enrichDirection P key)
               (field "directions" (VObj (defaulted ps))))
      (fun directions' =>
    inr {| status := 200;
           body := toJSON (VObj (assign "directions" directions'
                                   (assign "stops" stops' (defaulted ps)))) |})).
Proof.
  intros Hp Hk. unfold resolve. rewrite Hp, Hk.
  rewrite defaultArray_object, andThen_inr.
  rewrite defaultArray_object, andThen_inr.
  fold (defaulted ps). rewrite enrich_object.
  destruct (arrayMap (enrichStop P key) _) as [e | stops']; [reflexivity|].
  rewrite !andThen_inr.
  destruct (arrayMap (enrichDirection P key) _); reflexivity.
Qed.

Lemma resolve_object_enriched (P : Platform) (env : ProcessEnv)
    (rawText key : string) (ps : props) (resp : Response) :
  JSON_parse P rawText = Some (VObj ps) ->
  enrichmentKey env = Some key ->
  resolve P env rawText = inr resp ->
  exists stops' directions',
    arrayMap (enrichStop P key) (field "stops" (VObj (defaulted ps)))
      = inr stops' /\
    arrayMap (enrichDirection P key) (field "directions" (VObj (defaulted ps)))
      = inr directions' /\
    resp = {| status := 200;
              body := toJSON (VObj (assign "directions" directions'
                                      (assign "stops" stops' (defaulted ps)))) |}.
Proof.
  intros Hp Hk. rewrite (resolve_object_keyed P env rawText key ps Hp Hk).
  destruct (arrayMap (enrichStop P key) _) as [e | stops']; [discriminate|].
  rewrite andThen_inr.
  destruct (arrayMap (enrichDirection P key) _) as [e | directions'];
    [discriminate|].
  rewrite andThen_inr. intros H. injection H as <-.
  now exists stops', directions'.
Qed.

Lemma field_missing (k : string) (ps : props) :
  lookup k ps = None -> field k (VObj ps) = VUndefined.
Proof. intros H. simpl. now rewrite H. Qed.

(** C4. When the answer of the model parses as an object that has
    neither [stops] nor [directions], nothing is thrown: the handler
    answers 200 and in the itinerary it returns both are the empty
    array. *)
Theorem missing_arrays_default_to_empty
    (P : Platform) (env : ProcessEnv) (r : TourRequest)
    (rawText : string) (ps : props) :
  modelAnswers P env r rawText ->
  JSON_parse P rawText = Some (VObj ps) ->
  lookup "stops" ps = None ->
  lookup "directions" ps = None ->
  exists resp,
    snd (attempt P env r) = inr resp /\
    snd (generateTour P env r) = inr resp /\
    status resp = 200 /\
    field "stops" (body resp) = VArr [] [] /\
    field "directions" (body resp) = VArr [] [].
Proof.
  intros Ha Hp Hs Hd.
  assert (field "stops" (VObj (defaulted ps)) = VArr [] []) as Es
    by (rewrite field_defaulted_stops, (field_missing _ _ Hs); reflexivity).
  assert (field "directions" (VObj (defaulted ps)) = VArr [] []) as Ed
    by (rewrite field_defaulted_directions, (field_missing _ _ Hd); reflexivity).
  destruct (enrichmentKey env) as [key|] eqn:Hk.
  - pose proof (resolve_object_keyed P env rawText key ps Hp Hk) as Hres.
    rewrite Es, Ed in Hres. simpl arrayMap in Hres. unfold andThen in Hres.
    eexists. split; [|split]; try (apply (run_resolved P env r rawText _ Ha Hres)).
    cbn [status body]. split; [reflexivity|]. split.
    + now rewrite field_enriched_stops.
    + now rewrite field_enriched_directions.
  - pose proof (resolve_object_plain P env rawText ps Hp Hk) as Hres.
    eexists. split; [|split]; try (apply (run_resolved P env r rawText _ Ha Hres)).
    cbn [status body]. split; [reflexivity|].
    rewrite !field_toJSON
      by (apply truthy_defaulted_stops || apply truthy_defaulted_directions).
    now rewrite Es, Ed.
Qed.

Lemma missing_arrays_default_to_empty_witness :
  exists resp,
    snd (attempt (answering "{}") keyedEnv PromptFacts.foodTourSeattle)
      = inr resp /\
    snd (generateTour (answering "{}") keyedEnv PromptFacts.foodTourSeattle)
      = inr resp /\
    status resp = 200 /\
    field "stops" (body resp) = VArr [] [] /\
    field "directions" (body resp) = VArr [] [].
Proof.
  apply (missing_arrays_default_to_empty (answering "{}") keyedEnv
           PromptFacts.foodTourSeattle "{}" []).
  - apply answering_answers; reflexivity.
  - reflexivity.
  - reflexivity.
  - reflexivity.
Defined.

Lemma invalid_json_is_parse_failure_witness :
  let P := answering "Sure! Here is your walking tour." in
  let r := PromptFacts.foodTourSeattle in
  snd (attempt P keyedEnv r) = inl (newError parseFailureMessage) /\
  snd (generateTour P keyedEnv r) =
    inr {| status := 500; body := errorBody parseFailureMessage |} /\
  In (parseErrorLog "Sure! Here is your walking tour.")
    (fst (generateTour P keyedEnv r)) /\
  (forall P' e, modelFails P' keyedEnv r e ->
     snd (attempt P' keyedEnv r) = inl e /\
     snd (generateTour P' keyedEnv r) =
       inr {| status := 500;
              body := errorBody (orElse (Some (message e))
                                   "Failed to generate tour") |} /\
     (forall text, ~ In (parseErrorLog text) (fst (generateTour P' keyedEnv r))) /\
     (message e <> parseFailureMessage ->
      snd (generateTour P' keyedEnv r) <> snd (generateTour P keyedEnv r))) /\
  parseFailureMessage <> missingKeyMessage.
Proof.
  apply (invalid_json_is_parse_failure
           (answering "Sure! Here is your walking tour.") keyedEnv
           PromptFacts.foodTourSeattle "Sure! Here is your walking tour.").
  - apply answering_answers; reflexivity.
  - reflexivity.
Defined.

(** A platform whose model call fails with an error that carries the
    text of the parse failure. *)
Definition mimicking : Platform :=
  {| generateContent := fun _ _ => inl (newError parseFailureMessage);
     JSON_parse := fun _ => None;
     Number_toString := fun _ => "0" |}.

(** C5 as stated fails: the parse failure is not a kind of its own.  A
    failure of the model call with the same message is thrown as the
    same value and answered with the same response. *)
Lemma model_failure_mimics_parse_failure :
  let unparsable := answering "Sure! Here is your walking tour." in
  let r := PromptFacts.foodTourSeattle in
  modelAnswers unparsable keyedEnv r "Sure! Here is your walking tour." /\
  JSON_parse unparsable "Sure! Here is your walking tour." = None /\
  modelFails mimicking keyedEnv r (newError parseFailureMessage) /\
  snd (attempt mimicking keyedEnv r) = snd (attempt unparsable keyedEnv r) /\
  snd (generateTour mimicking keyedEnv r)
    = snd (generateTour unparsable keyedEnv r).
Proof.
  split; [apply answering_answers; reflexivity|].
  split; [reflexivity|]. split.
  - exists {| apiKey := Some "gemini-test-key" |}. split; reflexivity.
  - split; vm_compute; reflexivity.
Qed.

(** *** Without a map key *)

Lemma enrichmentKey_blank (env : ProcessEnv) :
  MAPS_KEY env = None \/
  (exists k, MAPS_KEY env = Some k /\ trim k = EmptyString) ->
  enrichmentKey env = None.
Proof.
  unfold enrichmentKey. intros [-> | [k [-> E]]]; [reflexivity|].
  rewrite E. simpl. now rewrite andb_false_r.
Qed.

Lemma Forall2_serialised (k : string) (l : list value) :
  Forall2 (fun parsed out => hasField k parsed = false ->
                             hasField k out = false)
    l (map (elementWith toJSON) l).
Proof.
  induction l as [|v l IH]; simpl; constructor; [|exact IH].
  apply hasField_element.
Qed.

(** C7 (as the code has it). With the map-image credential absent or
    blank, an answer that parses as an object is returned with status
    200 and no enrichment: the stops and the directions returned are the
    parsed ones, as serialised.  Nothing is added: a stop the model gave
    without [imageUrl] is returned without it, and a direction it gave
    without [mapUrl] likewise. *)
Theorem no_maps_key_no_enrichment
    (P : Platform) (env : ProcessEnv) (r : TourRequest)
    (rawText : string) (ps : props) :
  modelAnswers P env r rawText ->
  JSON_parse P rawText = Some (VObj ps) ->
  (MAPS_KEY env = None \/
   exists k, MAPS_KEY env = Some k /\ trim k = EmptyString) ->
  exists resp,
    snd (generateTour P env r) = inr resp /\
    status resp = 200 /\
    elements (field "stops" (body resp))
      = map (elementWith toJSON) (elements (field "stops" (VObj ps))) /\
    elements (field "directions" (body resp))
      = map (elementWith toJSON) (elements (field "directions" (VObj ps))) /\
    Forall2 (fun parsed out => hasField "imageUrl" parsed = false ->
                               hasField "imageUrl" out = false)
      (elements (field "stops" (VObj ps)))
      (elements (field "stops" (body resp))) /\
    Forall2 (fun parsed out => hasField "mapUrl" parsed = false ->
                               hasField "mapUrl" out = false)
      (elements (field "directions" (VObj ps)))
      (elements (field "directions" (body resp))).
Proof.
  intros Ha Hp Hkey.
  pose proof (resolve_object_plain P env rawText ps Hp
                (enrichmentKey_blank env Hkey)) as Hres.
  eexists. split; [apply (run_resolved P env r rawText _ Ha Hres)|].
  cbn [status body]. split; [reflexivity|].
  rewrite !field_toJSON
    by (apply truthy_defaulted_stops || apply truthy_defaulted_directions).
  rewrite !elements_toJSON, elements_defaulted_stops,
    elements_defaulted_directions.
  split; [reflexivity|]. split; [reflexivity|].
  split; apply Forall2_serialised.
Qed.

Lemma no_maps_key_no_enrichment_witness :
  let P := answering sampleText in
  let r := PromptFacts.foodTourSeattle in
  exists resp,
    snd (generateTour P noMapsEnv r) = inr resp /\
    status resp = 200 /\
    elements (field "stops" (body resp))
      = map (elementWith toJSON) (elements (field "stops" (VObj sampleTour))) /\
    elements (field "directions" (body resp))
      = map (elementWith toJSON)
          (elements (field "directions" (VObj sampleTour))) /\
    Forall2 (fun parsed out => hasField "imageUrl" parsed = false ->
                               hasField "imageUrl" out = false)
      (elements (field "stops" (VObj sampleTour)))
      (elements (field "stops" (body resp))) /\
    Forall2 (fun parsed out => hasField "mapUrl" parsed = false ->
                               hasField "mapUrl" out = false)
      (elements (field "directions" (VObj sampleTour)))
      (elements (field "directions" (body resp))).
Proof.
  apply (no_maps_key_no_enrichment (answering sampleText) noMapsEnv
           PromptFacts.foodTourSeattle sampleText sampleTour).
  - apply answering_answers; reflexivity.
  - reflexivity.
  - right. exists "   ". split; reflexivity.
Defined.

(** An answer of the model whose one stop has an [imageUrl] of its
    own. *)
Definition illustratedTour : props :=
  [ ("tourName", VStr "Waterfront bites");
    ("stops",
     VArr [ VObj [("name", VStr "Pike Place Market");
                  ("lat", VNum 47.625); ("lng", VNum (-122.375));
                  ("imageUrl", VStr "https://example.com/market.png")] ] []) ].

Definition answeringIllustrated : Platform :=
  {| generateContent := fun _ _ =>
       inr {| responseText := Some "illustrated"; candidates := None |};
     JSON_parse := fun s =>
       if String.eqb s "illustrated" then Some (VObj illustratedTour) else None;
     Number_toString := Number_toString (answering "illustrated") |}.

(** C7 as stated fails: without a map key the stop of this answer is
    returned with its [imageUrl]. *)
Lemma model_image_is_returned_without_key :
  let r := PromptFacts.foodTourSeattle in
  MAPS_KEY noMapsEnv = Some "   " /\ trim "   " = EmptyString /\
  JSON_parse answeringIllustrated "illustrated" = Some (VObj illustratedTour) /\
  exists resp,
    snd (generateTour answeringIllustrated noMapsEnv r) = inr resp /\
    status resp = 200 /\
    map (hasField "imageUrl") (elements (field "stops" (body resp))) = [true].
Proof.
  split; [reflexivity|]. split; [reflexivity|]. split; [reflexivity|].
  eexists. split; [vm_compute; reflexivity|]. split; reflexivity.
Qed.

(** *** With a map key *)

(** The enrichment block runs with [key] exactly when [MAPS_KEY] is
    [key] and [key] is not blank. *)
Lemma enrichmentKey_configured (env : ProcessEnv) (key : string) :
  enrichmentKey env = Some key <->
  MAPS_KEY env = Some key /\ trim key <> EmptyString.
Proof.
  unfold enrichmentKey. destruct (MAPS_KEY env) as [k|]; split.
  - destruct (truthy_string k && negb (String.eqb (trim k) EmptyString)) eqn:E;
      [|discriminate].
    intros H. injection H as ->. split; [reflexivity|].
    apply andb_true_iff in E as [_ E]. apply negb_true_iff in E.
    now apply String.eqb_neq.
  - intros [H Hne]. injection H as ->.
    apply String.eqb_neq in Hne. rewrite Hne.
    destruct key; [now vm_compute in Hne | reflexivity].
  - discriminate.
  - intros [H _]. discriminate.
Qed.

(** C9. With a map-image credential configured, when the handler
    returns the parsed object (status 200), the returned stops answer the
    parsed stops one by one and each has an [imageUrl] exactly when its
    [lat] and [lng] are both truthy, so that a coordinate that is 0 leaves
    the stop without [imageUrl] as an absent one does; the returned
    directions answer the parsed directions one by one and each has a
    [mapUrl] exactly when its [fromLatLng] and [toLatLng] are both
    truthy. *)
Theorem enrichment_needs_truthy_coordinates
    (P : Platform) (env : ProcessEnv) (r : TourRequest)
    (rawText key : string) (ps : props) (resp : Response) :
  modelAnswers P env r rawText ->
  JSON_parse P rawText = Some (VObj ps) ->
  enrichmentKey env = Some key ->
  snd (generateTour P env r) = inr resp ->
  status resp = 200 ->
  Forall2 (stopRule P key)
    (elements (field "stops" (VObj ps)))
    (elements (field "stops" (body resp))) /\
  Forall2 directionRule
    (elements (field "directions" (VObj ps)))
    (elements (field "directions" (body resp))).
Proof.
  intros Ha Hp Hk Hrun Hstatus.
  pose proof (run_ok_resolved P env r rawText resp Ha Hrun Hstatus) as Hres.
  destruct (resolve_object_enriched P env rawText key ps resp Hp Hk Hres)
    as [stops' [directions' [Hs [Hd ->]]]].
  destruct (arrayMap_inr _ _ _ Hs) as [souts [-> Fs]].
  destruct (arrayMap_inr _ _ _ Hd) as [douts [-> Fd]].
  rewrite elements_defaulted_stops in Fs.
  rewrite elements_defaulted_directions in Fd.
  cbn [body].
  rewrite field_enriched_stops, field_enriched_directions by discriminate.
  rewrite !elements_toJSON. cbn [elements]. split.
  - apply Forall2_map_right. revert Fs. apply Forall2_impl.
    intros stop out. apply enrichStop_rule.
  - apply Forall2_map_right. revert Fd. apply Forall2_impl.
    intros dir out. apply enrichDirection_rule.
Qed.

(** The response to the sample answer with a map key: the stop at
    latitude 0 stays without [imageUrl], the direction without a
    destination without [mapUrl]. *)
Definition sampleResponse : Response :=
  {| status := 200;
     body :=
       VObj
         [ ("tourName", VStr "Waterfront bites");
           ("stops",
            VArr
              [ VObj [("name", VStr "Equator Cafe");
                      ("lat", VNum 0); ("lng", VNum (-122.375))];
                VObj [("name", VStr "Pike Place Market");
                      ("lat", VNum 47.625); ("lng", VNum (-122.375));
                      ("imageUrl",
                       VStr "https://maps.googleapis.com/maps/api/staticmap?center=47.625,-122.375&zoom=17&size=800x450&markers=color:red%7C47.625,-122.375&key=maps-test-key")] ]
              []);
           ("directions",
            VArr
              [ VObj [("from", VStr "Equator Cafe");
                      ("fromLatLng",
                       VObj [("lat", VNum 0); ("lng", VNum (-122.375))]);
                      ("toLatLng",
                       VObj [("lat", VNum 47.625); ("lng", VNum (-122.375))]);
                      ("mapUrl",
                       VStr "https://maps.googleapis.com/maps/api/staticmap?size=800x450&path=color:0x0000ff%7Cweight:5%7C0,-122.375%7C47.625,-122.375&markers=color:blue%7Clabel:A%7C0,-122.375&markers=color:green%7Clabel:B%7C47.625,-122.375&key=maps-test-key")];
                VObj [("from", VStr "Pike Place Market");
                      ("fromLatLng",
                       VObj [("lat", VNum 47.625); ("lng", VNum (-122.375))])] ]
              []) ] |}.

Example sample_run :
  snd (generateTour (answering sampleText) keyedEnv PromptFacts.foodTourSeattle)
    = inr sampleResponse /\
  modelCalls (fst (generateTour (answering sampleText) keyedEnv
                     PromptFacts.foodTourSeattle)) = 1 /\
  map (hasField "imageUrl") (elements (field "stops" (body sampleResponse)))
    = [false; true] /\
  map (hasField "mapUrl") (elements (field "directions" (body sampleResponse)))
    = [true; false].
Proof. repeat split; vm_compute; reflexivity. Qed.

Lemma enrichment_needs_truthy_coordinates_witness :
  Forall2 (stopRule (answering sampleText) "maps-test-key")
    (elements (field "stops" (VObj sampleTour)))
    (elements (field "stops" (body sampleResponse))) /\
  Forall2 directionRule
    (elements (field "directions" (VObj sampleTour)))
    (elements (field "directions" (body sampleResponse))).
Proof.
  apply (enrichment_needs_truthy_coordinates (answering sampleText) keyedEnv
           PromptFacts.foodTourSeattle sampleText "maps-test-key" sampleTour
           sampleResponse).
  - apply answering_answers; reflexivity.
  - reflexivity.
  - reflexivity.
  - vm_compute. reflexivity.
  - reflexivity.
Defined.

End ServerFacts.

(** ** More on the route link *)

Module RouteFacts.
Import Js GenAI App ResultPage JsFacts AppFacts.

(** *** When there is a link *)

Lemma Set_new_nil_iff (l : list string) : Set_new l = [] <-> l = [].
Proof.
  split; [|intros ->; reflexivity].
  intros H. destruct l as [|x l]; [reflexivity|].
  assert (In x (Set_new (x :: l))) as Hin
    by (apply (proj2 (Set_new_In _ _)); now left).
  rewrite H in Hin. destruct Hin.
Qed.

Lemma routeUrl_None (places : list string) :
  routeUrl places = None <-> places = [].
Proof.
  destruct places as [|o [|d rest]]; simpl; split; congruence.
Qed.

(** What [getFullRouteUrl] returned is the link of the places. *)
Lemma link_returned (itinerary : option Itinerary) (link : option string) :
  getFullRouteUrl itinerary = inr link ->
  routeUrl (uniquePlaces (chunksOf itinerary)) = link.
Proof.
  rewrite getFullRouteUrl_routeUrl.
  destruct (forallb isWellFormed _); [|discriminate].
  intros H. injection H as <-. reflexivity.
Qed.

(** X1. [getFullRouteUrl] returns [null] exactly when no place
    reference of the itinerary carries a title: none has [maps] with a
    [title] that is not empty (as when there is no itinerary or no list
    of references). *)
Theorem no_link_iff_no_titled_place (itinerary : option Itinerary) :
  getFullRouteUrl itinerary = inr None <->
  forall chunk t, In chunk (chunksOf itinerary) -> ~ carries chunk t.
Proof.
  split.
  - intros H chunk t Hin Hc. apply link_returned in H.
    apply routeUrl_None in H.
    assert (In t (uniquePlaces (chunksOf itinerary))) as Ht.
    { unfold uniquePlaces, Array_from. apply (proj2 (Set_new_In _ _)).
      apply attachedTitles_carried. now exists chunk. }
    rewrite H in Ht. destruct Ht.
  - intros H. rewrite getFullRouteUrl_routeUrl.
    assert (uniquePlaces (chunksOf itinerary) = []) as ->; [|reflexivity].
    unfold uniquePlaces, Array_from. apply Set_new_nil_iff.
    destruct (attachedTitles (chunksOf itinerary)) as [|t l] eqn:E;
      [reflexivity|].
    exfalso.
    assert (In t (attachedTitles (chunksOf itinerary))) as Ht
      by (rewrite E; now left).
    apply attachedTitles_carried in Ht as [chunk [Hin Hc]].
    exact (H chunk t Hin Hc).
Qed.

(** *** References that do not change the link *)

Lemma Set_add_present (s : list string) (x : string) :
  In x s -> Set_add s x = s.
Proof.
  intros H. unfold Set_add.
  now rewrite (proj2 (existsb_eqb_In x s) H).
Qed.

Lemma Set_new_app (l1 l2 : list string) :
  Set_new (l1 ++ l2) = fold_left Set_add l2 (Set_new l1).
Proof. unfold Set_new. apply fold_left_app. Qed.

Lemma Set_new_repeat (l1 l2 : list string) (x : string) :
  In x l1 -> Set_new (l1 ++ x :: l2) = Set_new (l1 ++ l2).
Proof.
  intros H. rewrite !Set_new_app. simpl.
  rewrite Set_add_present; [reflexivity|].
  now apply (proj2 (Set_new_In _ _)).
Qed.

Lemma attachedTitles_app (c1 c2 : list GroundingChunk) :
  attachedTitles (c1 ++ c2) = (attachedTitles c1 ++ attachedTitles c2)%list.
Proof. unfold attachedTitles. now rewrite filter_app, map_app. Qed.

Definition withChunks (txt : string) (chunks : list GroundingChunk)
    : option Itinerary :=
  Some {| text := txt; groundingChunks := Some chunks |}.

(** X2. A place reference without a map title, or one whose title an
    earlier reference already carries, does not change the route link:
    the link is the same with it and without it. *)
Theorem link_ignores_untitled_and_repeated
    (txt : string) (before after : list GroundingChunk) (chunk : GroundingChunk) :
  hasMapsTitle chunk = false \/
  In (mapsTitle chunk) (attachedTitles before) ->
  getFullRouteUrl (withChunks txt (before ++ chunk :: after)) =
  getFullRouteUrl (withChunks txt (before ++ after)).
Proof.
  intros H.
  assert (uniquePlaces (chunksOf (withChunks txt (before ++ chunk :: after)))
          = uniquePlaces (chunksOf (withChunks txt (before ++ after)))) as E.
  { unfold withChunks, chunksOf, uniquePlaces, Array_from.
    cbn [groundingChunks].
    rewrite !attachedTitles_app, attachedTitles_cons.
    destruct (hasMapsTitle chunk) eqn:E; [|reflexivity].
    destruct H as [H | H]; [discriminate|].
    now apply Set_new_repeat. }
  rewrite !getFullRouteUrl_routeUrl, E. reflexivity.
Qed.

Lemma link_ignores_untitled_and_repeated_witness :
  getFullRouteUrl
    (withChunks "tour" ([chunkOfTitle "A"; chunkOfTitle "B"]
                        ++ chunkOfTitle "A" :: [chunkOfTitle "C"])) =
  getFullRouteUrl
    (withChunks "tour" ([chunkOfTitle "A"; chunkOfTitle "B"]
                        ++ [chunkOfTitle "C"])).
Proof.
  apply (link_ignores_untitled_and_repeated "tour"
           [chunkOfTitle "A"; chunkOfTitle "B"] [chunkOfTitle "C"]
           (chunkOfTitle "A")).
  right. simpl. auto.
Defined.

(** *** The characters of a link *)

Fixpoint countChar (c : ascii) (s : string) : nat :=
  match s with
  | EmptyString => 0
  | String x s' => (if Ascii.eqb c x then 1 else 0) + countChar c s'
  end.

Definition allChars (p : ascii -> bool) (s : string) : bool :=
  forallb p (list_ascii_of_string s).

(** What a link is made of: unreserved characters, [%] and the
    delimiters [: / ? & = |]. *)
Definition urlSafe (c : ascii) : bool :=
  uriUnreserved c || hasChar c "%:/?&=|".

Lemma countChar_app (c : ascii) (a b : string) :
  countChar c (a ++ b) = countChar c a + countChar c b.
Proof. induction a as [|x a IH]; simpl; [reflexivity | rewrite IH; lia]. Qed.

Lemma countChar_absent (c : ascii) (s : string) :
  hasChar c s = false -> countChar c s = 0.
Proof.
  unfold hasChar. induction s as [|x s IH]; simpl; [reflexivity|].
  intros H. apply orb_false_iff in H as [-> H]. now rewrite IH.
Qed.

Lemma allChars_app (p : ascii -> bool) (a b : string) :
  allChars p (a ++ b) = allChars p a && allChars p b.
Proof.
  unfold allChars. induction a as [|x a IH]; simpl; [reflexivity|].
  now rewrite IH, andb_assoc.
Qed.

Lemma hexDigit_unreserved (n : nat) : uriUnreserved (hexDigit n) = true.
Proof. do 16 (destruct n as [|n]; [reflexivity|]). reflexivity. Qed.

Lemma encoded_char_free (d c : ascii) :
  uriUnreserved d = false -> d <> "%"%char ->
  hasChar d (if uriUnreserved c then String c EmptyString else percentEncode c)
    = false.
Proof.
  intros Hd Hp.
  assert (forall x, uriUnreserved x = true -> Ascii.eqb d x = false) as Hne
    by (intros x Hx; apply Ascii.eqb_neq; intros ->; congruence).
  destruct (uriUnreserved c) eqn:E; unfold hasChar, percentEncode; simpl.
  - now rewrite (Hne c E).
  - apply Ascii.eqb_neq in Hp. rewrite Hp.
    now rewrite !Hne by apply hexDigit_unreserved.
Qed.

(** A reserved character never survives the encoding. *)
Lemma uriEncode_free (d : ascii) (s : string) :
  uriUnreserved d = false -> d <> "%"%char ->
  hasChar d (uriEncode s) = false.
Proof.
  intros Hd Hp. induction s as [|c s IH]; [reflexivity|].
  cbn [uriEncode]. rewrite hasChar_app, IH.
  now rewrite encoded_char_free.
Qed.

Lemma encoded_char_safe (c : ascii) :
  allChars urlSafe
    (if uriUnreserved c then String c EmptyString else percentEncode c) = true.
Proof.
  destruct (uriUnreserved c) eqn:E; unfold allChars, percentEncode, urlSafe;
    simpl.
  - now rewrite E.
  - now rewrite !hexDigit_unreserved.
Qed.

Lemma uriEncode_safe (s : string) :
  allChars urlSafe (uriEncode s) = true.
Proof.
  induction s as [|c s IH]; [reflexivity|].
  cbn [uriEncode]. now rewrite allChars_app, IH, encoded_char_safe.
Qed.

Lemma join_cons2 (sep x y : string) (l : list string) :
  join sep (x :: y :: l) = x ++ sep ++ join sep (y :: l).
Proof. reflexivity. Qed.

Lemma join_encoded_safe (l : list string) :
  allChars urlSafe (join "|" (map uriEncode l)) = true.
Proof.
  induction l as [|x [|y l] IH]; [reflexivity | apply uriEncode_safe |].
  cbn [map] in *. rewrite join_cons2, !allChars_app, IH.
  now rewrite uriEncode_safe.
Qed.

Lemma join_encoded_free (d : ascii) (l : list string) :
  uriUnreserved d = false -> d <> "%"%char -> d <> "|"%char ->
  hasChar d (join "|" (map uriEncode l)) = false.
Proof.
  intros Hd Hp Hb.
  induction l as [|x [|y l] IH];
    [reflexivity | now apply uriEncode_free |].
  cbn [map] in *. rewrite join_cons2, !hasChar_app, IH.
  rewrite uriEncode_free by assumption.
  unfold hasChar. simpl. apply Ascii.eqb_neq in Hb. now rewrite Hb.
Qed.

Lemma join_encoded_bars (l : list string) :
  countChar "|" (join "|" (map uriEncode l)) = length l - 1.
Proof.
  induction l as [|x [|y l] IH]; [reflexivity | |].
  - simpl. now apply countChar_absent, uriEncode_free.
  - cbn [map] in *. rewrite join_cons2, !countChar_app, IH.
    rewrite countChar_absent by now apply uriEncode_free.
    simpl. lia.
Qed.

(** The directions link of a route with at least two places. *)
Definition waypointsParam (mid : list string) : string :=
  match mid with
  | [] => EmptyString
  | _ => "&waypoints=" ++ join "|" (map uriEncode mid)
  end.

Lemma routeUrl_directions (o d : string) (mid : list string) :
  routeUrl (o :: mid ++ [d]) =
    Some (dirUrl ++ uriEncode o
          ++ "&destination=" ++ uriEncode d
          ++ waypointsParam mid ++ "&travelmode=walking").
Proof.
  assert (routeUrl (o :: mid ++ [d]) =
          Some (dirUrl ++ uriEncode o
            ++ "&destination=" ++ uriEncode (last (mid ++ [d]) o)
            ++ waypointsParam (removelast (mid ++ [d]))
            ++ "&travelmode=walking")) as ->
    by (destruct mid as [|m [|m' mid]]; reflexivity).
  now rewrite last_last, removelast_last.
Qed.

Lemma two_or_more {A} (x y : A) (l : list A) :
  exists mid d, (x :: y :: l) = x :: mid ++ [d].
Proof.
  destruct (exists_last (l := y :: l)) as [mid [d E]]; [discriminate|].
  exists mid, d. now rewrite E.
Qed.

Lemma routeUrl_one (p : string) :
  routeUrl [p] = Some (searchUrl ++ uriEncode p).
Proof. reflexivity. Qed.

Lemma some_eq {A} (a b : A) : Some a = Some b -> b = a.
Proof. congruence. Qed.

Lemma allChars_excludes (p : ascii -> bool) (c : ascii) (s : string) :
  allChars p s = true -> p c = false -> hasChar c s = false.
Proof.
  unfold allChars, hasChar. induction s as [|x s IH]; simpl; [reflexivity|].
  intros H Hc. apply andb_true_iff in H as [Hx H].
  rewrite (IH H Hc), orb_false_r.
  apply Ascii.eqb_neq. intros ->. congruence.
Qed.

(** The space, the double quote, [#], [<] and [>]. *)
Definition unsafeChars : list ascii :=
  [" "; "034"; "#"; "<"; ">"]%char.

(** X3. A route link consists of URL-safe characters only: unreserved
    characters (the apostrophe is one of them), [%] and the delimiters
    [: / ? & = |]; whatever the titles hold, no space, double quote,
    [#], [<] or [>] reaches the link. *)
Theorem link_is_url_safe (itinerary : option Itinerary) (url : string) :
  getFullRouteUrl itinerary = inr (Some url) ->
  allChars urlSafe url = true /\
  Forall (fun c => hasChar c url = false) unsafeChars.
Proof.
  intros H. apply link_returned in H.
  assert (allChars urlSafe url = true) as Hsafe.
  { revert H.
    destruct (uniquePlaces (chunksOf itinerary)) as [|o [|y l]].
    - discriminate.
    - rewrite routeUrl_one. intros H. apply some_eq in H. subst url.
      now rewrite allChars_app, uriEncode_safe.
    - destruct (two_or_more o y l) as [mid [d ->]].
      rewrite routeUrl_directions. intros H. apply some_eq in H. subst url.
      rewrite !allChars_app, !uriEncode_safe.
      assert (allChars urlSafe (waypointsParam mid) = true) as ->
        by (destruct mid; [reflexivity|];
            unfold waypointsParam; now rewrite allChars_app, join_encoded_safe).
      reflexivity. }
  split; [exact Hsafe|].
  repeat constructor; apply (allChars_excludes urlSafe _ _ Hsafe); reflexivity.
Qed.

Lemma link_is_url_safe_witness :
  let url := "https://www.google.com/maps/dir/?api=1&origin=Joe's%20%22Pike%22%20Place&destination=Pier%20%2357&travelmode=walking" in
  allChars urlSafe url = true /\
  Forall (fun c => hasChar c url = false) unsafeChars.
Proof.
  apply (link_is_url_safe
           (grounded ["Joe's " ++ quoted "Pike" ++ " Place"; "Pier #57"])).
  reflexivity.
Defined.

(** X4. The titles cannot add a parameter or a waypoint to the link:
    with [n] places the link has exactly one [&] for one place, three for
    two places and four for more, and exactly [n - 3] separators [|]. *)
Theorem link_parameters_are_fixed (itinerary : option Itinerary) (url : string) :
  getFullRouteUrl itinerary = inr (Some url) ->
  let n := length (uniquePlaces (chunksOf itinerary)) in
  countChar "&" url = match n with 1 => 1 | 2 => 3 | _ => 4 end /\
  countChar "|" url = n - 3.
Proof.
  intros H. apply link_returned in H. revert H.
  destruct (uniquePlaces (chunksOf itinerary)) as [|o [|y l]].
  - discriminate.
  - rewrite routeUrl_one. intros H. apply some_eq in H. subst url. cbn zeta.
    rewrite !countChar_app.
    rewrite !(countChar_absent _ (uriEncode _))
      by now apply uriEncode_free.
    split; reflexivity.
  - destruct (two_or_more o y l) as [mid [d E]]. rewrite E.
    rewrite routeUrl_directions. intros H. apply some_eq in H. subst url.
    cbn zeta. rewrite !countChar_app.
    rewrite !(countChar_absent _ (uriEncode _))
      by now apply uriEncode_free.
    cbn [length]. rewrite length_app. cbn [length].
    rewrite (Nat.add_1_r (length mid)).
    destruct mid as [|m mid].
    + split; reflexivity.
    + unfold waypointsParam. rewrite !countChar_app, join_encoded_bars.
      rewrite (countChar_absent _ (join _ _))
        by (apply join_encoded_free; [reflexivity | discriminate | discriminate]).
      cbn [length]. split; [reflexivity | simpl; lia].
Qed.

Lemma link_parameters_are_fixed_witness :
  let url := "https://www.google.com/maps/dir/?api=1&origin=A%26B&destination=D&waypoints=B%7CB|C&travelmode=walking" in
  let n := length (uniquePlaces (chunksOf (grounded ["A&B"; "B|B"; "C"; "D"]))) in
  countChar "&" url = match n with 1 => 1 | 2 => 3 | _ => 4 end /\
  countChar "|" url = n - 3.
Proof.
  apply (link_parameters_are_fixed (grounded ["A&B"; "B|B"; "C"; "D"])).
  reflexivity.
Defined.

(** *** The link identifies the route *)

Lemma string_app_inv_head (a x y : string) : a ++ x = a ++ y -> x = y.
Proof. induction a as [|c a IH]; simpl; intros H; [assumption|]. injection H as H. auto. Qed.

(** Two texts cut at the first occurrence of [c] agree piece by piece. *)
Lemma split_at_char (c : ascii) (a b x y : string) :
  hasChar c a = false -> hasChar c b = false ->
  a ++ String c x = b ++ String c y -> a = b /\ x = y.
Proof.
  revert b. induction a as [|u a IH]; intros [|v b] Ha Hb H; simpl in H.
  - injection H as ->. now split.
  - injection H as <- _. rewrite hasChar_head in Hb. discriminate.
  - injection H as -> _. rewrite hasChar_head in Ha. discriminate.
  - injection H as -> H.
    unfold hasChar in Ha, Hb. simpl in Ha, Hb.
    apply orb_false_iff in Ha as [_ Ha]. apply orb_false_iff in Hb as [_ Hb].
    destruct (IH b Ha Hb H) as [-> ->]. now split.
Qed.

Lemma uriEncode_inj (s t : string) :
  uriEncode s = uriEncode t -> s = t.
Proof.
  intros H. apply (f_equal percentDecode) in H.
  now rewrite !uriEncode_lossless in H.
Qed.

Lemma map_encode_inj (l l' : list string) :
  map uriEncode l = map uriEncode l' -> l = l'.
Proof.
  revert l'. induction l as [|x l IH]; intros [|y l'] H; try discriminate;
    [reflexivity|].
  simpl in H. injection H as Hx Hl.
  f_equal; [now apply uriEncode_inj | now apply IH].
Qed.

Lemma encoded_no_bar (s : string) : hasChar "|" (uriEncode s) = false.
Proof. now apply uriEncode_free. Qed.

Lemma encoded_no_amp (s : string) : hasChar "&" (uriEncode s) = false.
Proof. now apply uriEncode_free. Qed.

Lemma join_encoded_inj (l l' : list string) :
  l <> [] -> l' <> [] ->
  join "|" (map uriEncode l) = join "|" (map uriEncode l') ->
  l = l'.
Proof.
  revert l'. induction l as [|x [|x2 l] IH]; intros l' Hl Hl' H;
    [contradiction | |].
  - destruct l' as [|y [|y2 l']]; [contradiction | |].
    + simpl in H. f_equal. now apply uriEncode_inj.
    + exfalso. cbn [map] in H. rewrite join_cons2 in H. cbn [join] in H.
      pose proof (encoded_no_bar x) as Hx. rewrite H in Hx.
      rewrite hasChar_app in Hx. apply orb_false_iff in Hx as [_ Hx].
      simpl in Hx. rewrite hasChar_head in Hx. discriminate.
  - destruct l' as [|y [|y2 l']]; [contradiction | |].
    + exfalso. cbn [map] in H. rewrite join_cons2 in H. cbn [join] in H.
      pose proof (encoded_no_bar y) as Hy. rewrite <- H in Hy.
      rewrite hasChar_app in Hy. apply orb_false_iff in Hy as [_ Hy].
      simpl in Hy. rewrite hasChar_head in Hy. discriminate.
    + cbn [map] in H. rewrite !join_cons2 in H.
      change ("|" ++ ?z) with (String "|"%char z) in H.
      apply split_at_char in H as [Hx Hrest]; try apply encoded_no_bar.
      apply uriEncode_inj in Hx. subst y. f_equal.
      apply IH; [discriminate | discriminate | exact Hrest].
Qed.

Lemma waypointsParam_after_amp (mid : list string) :
  mid <> [] ->
  waypointsParam mid =
    String "&"%char ("waypoints=" ++ join "|" (map uriEncode mid)).
Proof. destruct mid; [contradiction | reflexivity]. Qed.

Lemma directions_inj (o d o' d' : string) (mid mid' : list string) :
  routeUrl (o :: mid ++ [d]) = routeUrl (o' :: mid' ++ [d']) ->
  o = o' /\ mid = mid' /\ d = d'.
Proof.
  rewrite !routeUrl_directions. intros H. apply some_eq in H.
  apply string_app_inv_head in H.
  change ("&destination=" ++ ?z) with (String "&"%char ("destination=" ++ z)) in H.
  apply split_at_char in H as [Ho H]; try apply encoded_no_amp.
  apply uriEncode_inj in Ho. apply string_app_inv_head in H.
  destruct mid as [|m mid], mid' as [|m' mid'].
  - cbn [waypointsParam] in H.
    change (EmptyString ++ ?z) with z in H.
    change ("&travelmode=walking") with (String "&"%char "travelmode=walking") in H.
    apply split_at_char in H as [Hd _]; try apply encoded_no_amp.
    apply uriEncode_inj in Hd. now subst.
  - exfalso. rewrite (waypointsParam_after_amp (m' :: mid')) in H by discriminate.
    cbn [waypointsParam] in H. change (EmptyString ++ ?z) with z in H.
    change ("&travelmode=walking") with (String "&"%char "travelmode=walking") in H at 1.
    change (String "&"%char ?a ++ ?b) with (String "&"%char (a ++ b)) in H.
    apply split_at_char in H as [_ H]; try apply encoded_no_amp.
    discriminate.
  - exfalso. rewrite (waypointsParam_after_amp (m :: mid)) in H by discriminate.
    cbn [waypointsParam] in H. change (EmptyString ++ ?z) with z in H.
    change ("&travelmode=walking") with (String "&"%char "travelmode=walking") in H at 2.
    change (String "&"%char ?a ++ ?b) with (String "&"%char (a ++ b)) in H.
    apply split_at_char in H as [_ H]; try apply encoded_no_amp.
    discriminate.
  - rewrite !waypointsParam_after_amp in H by discriminate.
    change (String "&"%char ?a ++ ?b) with (String "&"%char (a ++ b)) in H.
    apply split_at_char in H as [Hd H]; try apply encoded_no_amp.
    apply uriEncode_inj in Hd.
    rewrite !string_app_assoc in H. apply string_app_inv_head in H.
    change ("&travelmode=walking") with (String "&"%char "travelmode=walking") in H.
    apply split_at_char in H as [H _];
      try (apply join_encoded_free; [reflexivity | discriminate | discriminate]).
    apply join_encoded_inj in H; [|discriminate|discriminate].
    now subst.
Qed.

Lemma search_is_not_directions (a b : string) :
  searchUrl ++ a <> dirUrl ++ b.
Proof. discriminate. Qed.

Lemma routeUrl_inj (p q : list string) : routeUrl p = routeUrl q -> p = q.
Proof.
  destruct p as [|o [|y l]], q as [|o' [|y' l']];
    try (intros H; discriminate H).
  - reflexivity.
  - rewrite !routeUrl_one. intros H. apply some_eq in H.
    apply string_app_inv_head, uriEncode_inj in H. now subst.
  - destruct (two_or_more o y l) as [mid [d ->]].
    destruct (two_or_more o' y' l') as [mid' [d' ->]].
    intros H. apply directions_inj in H as [-> [-> ->]]. reflexivity.
Qed.

(** X5. The link identifies the route: two itineraries for which
    [getFullRouteUrl] returns the same (the same link, or [null] for
    both) have the same places, in the same order. *)
Theorem link_determines_places
    (it1 it2 : option Itinerary) (link : option string) :
  getFullRouteUrl it1 = inr link ->
  getFullRouteUrl it2 = inr link ->
  uniquePlaces (chunksOf it1) = uniquePlaces (chunksOf it2).
Proof.
  intros H1 H2. apply link_returned in H1, H2.
  apply routeUrl_inj. congruence.
Qed.

Lemma link_determines_places_witness :
  uniquePlaces (chunksOf (grounded ["A"; "B"; "A"; "C"]))
  = uniquePlaces (chunksOf (grounded ["A"; "B"; "C"; "B"])).
Proof.
  apply (link_determines_places (grounded ["A"; "B"; "A"; "C"])
           (grounded ["A"; "B"; "C"; "B"])
           (Some "https://www.google.com/maps/dir/?api=1&origin=A&destination=C&waypoints=B&travelmode=walking")).
  - reflexivity.
  - reflexivity.
Defined.

(** *** The list of places under the itinerary *)

(** X6. When there is a route link, the "Explore on Google Maps" list is
    rendered and every place of the route is the title of one of its
    links. *)
Theorem route_places_are_listed (it : Itinerary) (url : string) :
  getFullRouteUrl (Some it) = inr (Some url) ->
  exists links,
    exploreLinks it = inr (Some links) /\
    forall place, In place (uniquePlaces (chunksOf (Some it))) ->
      exists m, In m links /\ title m = Some place.
Proof.
  intros H. unfold exploreLinks, chunksOf in *.
  destruct (groundingChunks it) as [chunks|] eqn:E.
  - destruct chunks as [|c chunks].
    + unfold getFullRouteUrl in H. rewrite E in H. discriminate.
    + cbn [length Nat.ltb Nat.leb]. eexists. split; [reflexivity|].
      intros place Hp.
      unfold uniquePlaces, Array_from in Hp.
      apply (proj1 (Set_new_In _ _)) in Hp.
      unfold attachedTitles in Hp. apply in_map_iff in Hp as [ch [Ht Hin]].
      apply filter_In in Hin as [Hin Hf].
      unfold hasMapsTitle, mapsTitle in *.
      destruct (maps ch) as [m|] eqn:Em; [|discriminate].
      destruct (title m) as [t|] eqn:Et; [|discriminate].
      exists m. split; [|congruence].
      apply in_flat_map. exists ch. split; [assumption|].
      rewrite Em. now left.
  - unfold getFullRouteUrl in H. rewrite E in H. discriminate.
Qed.

Lemma route_places_are_listed_witness :
  exists links,
    exploreLinks {| text := "tour";
                    groundingChunks := Some (map chunkOfTitle ["A"; "B"]) |}
      = inr (Some links) /\
    forall place,
      In place (uniquePlaces (chunksOf (grounded ["A"; "B"]))) ->
      exists m, In m links /\ title m = Some place.
Proof.
  apply (route_places_are_listed
           {| text := "tour";
              groundingChunks := Some (map chunkOfTitle ["A"; "B"]) |}
           "https://www.google.com/maps/dir/?api=1&origin=A&destination=B&travelmode=walking").
  reflexivity.
Defined.

End RouteFacts.

(** ** More on the services and the handler *)

Module HandlerFacts.
Import Js Tour GenAI JsValue Runtime Server ResultPage.
Import JsFacts JsValueFacts ServerFacts.

(** *** What a grounded service returns *)

Lemma itineraryOf_renders (response : GenerateContentResponse) :
  App.text (GroundedService.itineraryOf response) <> EmptyString /\
  App.groundingChunks (GroundedService.itineraryOf response)
    = Some (GroundedService.chunksOfResponse response).
Proof.
  split; [|reflexivity]. cbn [GroundedService.itineraryOf App.text].
  now apply orElse_truthy.
Qed.

Lemma grounded_success (P : Platform) (loaded : JsError + GoogleGenAI)
    (params : GenerateContentParameters) (it : App.Itinerary) :
  snd (bind (lift loaded) (fun client =>
       bind (callModel P client params)
         (fun response => ret (GroundedService.itineraryOf response))))
    = inr it ->
  exists client response,
    loaded = inr client /\
    generateContent P client params = inr response /\
    it = GroundedService.itineraryOf response.
Proof.
  unfold bind, lift, callModel, ret.
  destruct loaded as [e | client]; [discriminate|].
  destruct (generateContent P client params) as [e | response] eqn:Hm;
    [discriminate|].
  simpl. intros H. injection H as <-. now exists client, response.
Qed.

(** X7. An itinerary returned by either grounded service can always be
    rendered: its text is not empty (the model's text, or the fallback
    sentence when the model gave none) and its list of place references is
    there, so that the list of place links never throws. *)
Theorem grounded_itinerary_renders
    (P : Platform) (env : ProcessEnv) (r : TourRequest) (it : App.Itinerary) :
  snd (GroundedService.generateWalkingTour P env r) = inr it \/
  snd (GroundedServiceFood.generateWalkingTour P env r) = inr it ->
  App.text it <> EmptyString /\
  (exists chunks, App.groundingChunks it = Some chunks) /\
  (exists links, exploreLinks it = inr links).
Proof.
  intros H.
  assert (exists response, it = GroundedService.itineraryOf response)
    as [response ->].
  { destruct H as [H | H];
      apply grounded_success in H as [client [response [_ [_ ->]]]];
      now exists response. }
  destruct (itineraryOf_renders response) as [Ht Hc].
  split; [assumption|]. split; [eauto|].
  unfold exploreLinks. rewrite Hc.
  destruct (0 <? length _)%nat; eauto.
Qed.

(** A platform whose model gives no text and no place reference. *)
Definition silent : Platform :=
  {| generateContent := fun _ _ =>
       inr {| responseText := None; candidates := None |};
     JSON_parse := fun _ => None;
     Number_toString := fun _ => "0" |}.

Definition fallbackItinerary : App.Itinerary :=
  {| App.text := "Sorry, I couldn't generate a tour at this time.";
     App.groundingChunks := Some [] |}.

Lemma grounded_itinerary_renders_witness :
  App.text fallbackItinerary <> EmptyString /\
  (exists chunks, App.groundingChunks fallbackItinerary = Some chunks) /\
  (exists links, exploreLinks fallbackItinerary = inr links).
Proof.
  apply (grounded_itinerary_renders silent keyedEnv PromptFacts.historicalRome
           fallbackItinerary).
  left. reflexivity.
Defined.

(** *** The credential *)

(** The constructor is only reached with a key that is there. *)
Lemma getAiClient_key (env : ProcessEnv) :
  getAiClient env =
    match configuredKey env with
    | None => inl (newError missingKeyMessage)
    | Some key =>
        if negb (truthy_string key) || String.eqb key "MY_GEMINI_API_KEY"
        then inl (newError missingKeyMessage)
        else inr {| apiKey := Some key |}
    end.
Proof.
  unfold getAiClient.
  destruct (configuredKey env) as [[|c key]|]; reflexivity.
Qed.

(** X8. [getAiClient] gives a client exactly when the configured key is
    neither empty nor the placeholder, and the client holds that key.
    [GEMINI_API_KEY] is the configured key whenever it is set and not
    empty, [API_KEY] only otherwise: a placeholder in [GEMINI_API_KEY]
    is refused even when [API_KEY] holds a usable key. *)
Theorem getAiClient_precedence (env : ProcessEnv) (ai : GoogleGenAI) :
  getAiClient env = inr ai <->
  exists k,
    ai = {| apiKey := Some k |} /\
    k <> EmptyString /\ k <> "MY_GEMINI_API_KEY" /\
    (GEMINI_API_KEY env = Some k \/
     ((GEMINI_API_KEY env = None \/ GEMINI_API_KEY env = Some EmptyString) /\
      API_KEY env = Some k)).
Proof.
  rewrite getAiClient_key. unfold configuredKey. split.
  - destruct (GEMINI_API_KEY env) as [[|c g]|] eqn:Eg; cbn [truthy_string].
    + destruct (API_KEY env) as [k|]; [|discriminate].
      destruct (negb (truthy_string k) || String.eqb k "MY_GEMINI_API_KEY") eqn:E;
        [discriminate|].
      intros H. injection H as <-. apply orb_false_iff in E as [E1 E2].
      exists k. split; [reflexivity|]. split; [now destruct k|].
      split; [now apply String.eqb_neq|]. right. split; auto.
    + destruct (String.eqb (String c g) "MY_GEMINI_API_KEY") eqn:E;
        cbn [negb orb]; [discriminate|].
      intros H. injection H as <-. exists (String c g).
      split; [reflexivity|]. split; [discriminate|].
      split; [now apply String.eqb_neq|]. now left.
    + destruct (API_KEY env) as [k|]; [|discriminate].
      destruct (negb (truthy_string k) || String.eqb k "MY_GEMINI_API_KEY") eqn:E;
        [discriminate|].
      intros H. injection H as <-. apply orb_false_iff in E as [E1 E2].
      exists k. split; [reflexivity|]. split; [now destruct k|].
      split; [now apply String.eqb_neq|]. right. split; auto.
  - intros [k [-> [Hne [Hp Hk]]]].
    apply String.eqb_neq in Hp.
    assert (truthy_string k = true) as Ht
      by (destruct k; [contradiction | reflexivity]).
    destruct Hk as [-> | [[-> | ->] ->]]; cbn [truthy_string];
      now rewrite ?Ht, ?Hp.
Qed.

(** *** Calls and answers *)


(** *** Answers that are JSON but not an object *)

(** Whatever is thrown inside the inner [try] is answered as a parse
    failure. *)
Lemma run_resolve_fails
    (P : Platform) (env : ProcessEnv) (r : TourRequest) (rawText : string)
    (e : JsError) :
  modelAnswers P env r rawText ->
  resolve P env rawText = inl e ->
  snd (generateTour P env r) =
    inr {| status := 500; body := errorBody parseFailureMessage |} /\
  In (parseErrorLog rawText) (fst (generateTour P env r)).
Proof.
  intros [ai [response [Hk [Hm Hraw]]]] Hres.
  rewrite (run_answered P env r ai response Hk Hm).
  cbv zeta. rewrite Hraw, Hres. split; [reflexivity | simpl; auto].
Qed.

Definition isPrimitive (v : value) : bool :=
  match v with
  | VNull | VBool _ | VNum _ | VStr _ => true
  | _ => false
  end.

(** X10. An answer that is valid JSON but [null], a boolean, a number or
    a string is reported as a parse failure: reading or setting [stops]
    on it throws inside the inner [try], and the handler answers 500 with
    the parse-failure message. *)
Theorem primitive_answer_is_parse_failure
    (P : Platform) (env : ProcessEnv) (r : TourRequest) (rawText : string)
    (v : value) :
  modelAnswers P env r rawText ->
  JSON_parse P rawText = Some v ->
  isPrimitive v = true ->
  snd (generateTour P env r) =
    inr {| status := 500; body := errorBody parseFailureMessage |} /\
  In (parseErrorLog rawText) (fst (generateTour P env r)).
Proof.
  intros Ha Hp Hv.
  assert (exists e, resolve P env rawText = inl e) as [e He].
  { unfold resolve. rewrite Hp. destruct v; try discriminate; simpl; eauto. }
  exact (run_resolve_fails P env r rawText e Ha He).
Qed.

(** A platform whose [JSON.parse] reads [null]. *)
Definition answeringNull : Platform :=
  {| generateContent := fun _ _ =>
       inr {| responseText := Some "null"; candidates := None |};
     JSON_parse := fun s => if String.eqb s "null" then Some VNull else None;
     Number_toString := fun _ => "0" |}.

Lemma answeringNull_answers :
  modelAnswers answeringNull keyedEnv PromptFacts.foodTourSeattle "null".
Proof.
  exists {| apiKey := Some "gemini-test-key" |}. eexists.
  split; [reflexivity|]. split; reflexivity.
Defined.

Lemma primitive_answer_is_parse_failure_witness :
  snd (generateTour answeringNull keyedEnv PromptFacts.foodTourSeattle) =
    inr {| status := 500; body := errorBody parseFailureMessage |} /\
  In (parseErrorLog "null")
    (fst (generateTour answeringNull keyedEnv PromptFacts.foodTourSeattle)).
Proof.
  apply (primitive_answer_is_parse_failure answeringNull keyedEnv
           PromptFacts.foodTourSeattle "null" VNull).
  - exact answeringNull_answers.
  - reflexivity.
  - reflexivity.
Defined.

(** X11. An answer that is a JSON array is returned as it is with status
    200: the defaults [stops] and [directions] are set on the array as
    named properties, which the serialisation leaves out. *)
Theorem array_answer_is_returned
    (P : Platform) (env : ProcessEnv) (r : TourRequest) (rawText : string)
    (elems : list value) :
  modelAnswers P env r rawText ->
  JSON_parse P rawText = Some (VArr elems []) ->
  snd (generateTour P env r) =
    inr {| status := 200; body := toJSON (VArr elems []) |}.
Proof.
  intros Ha Hp.
  apply (run_resolved P env r rawText _ Ha).
  unfold resolve. rewrite Hp.
  destruct (enrichmentKey env) as [key|]; reflexivity.
Qed.

Definition answeringArray : Platform :=
  {| generateContent := fun _ _ =>
       inr {| responseText := Some "[1]"; candidates := None |};
     JSON_parse := fun s =>
       if String.eqb s "[1]" then Some (VArr [VNum 1] []) else None;
     Number_toString := fun _ => "1" |}.

Lemma array_answer_is_returned_witness :
  snd (generateTour answeringArray keyedEnv PromptFacts.foodTourSeattle) =
    inr {| status := 200; body := toJSON (VArr [VNum 1] []) |}.
Proof.
  apply (array_answer_is_returned answeringArray keyedEnv
           PromptFacts.foodTourSeattle "[1]" [VNum 1]).
  - exists {| apiKey := Some "gemini-test-key" |}. eexists.
    split; [reflexivity|]. split; reflexivity.
  - reflexivity.
Defined.

(** *** Lists that cannot be enriched *)

Definition nullish (v : value) : bool :=
  match v with
  | VUndefined | VNull => true
  | _ => false
  end.

(** What is read at [k] from a value that is not nullish: a property of
    the object or array, nothing from a primitive. *)
Definition member (k : string) (v : value) : value :=
  match v with
  | VObj ps => match lookup k ps with Some x => x | None => VUndefined end
  | VArr _ named =>
      match lookup k named with Some x => x | None => VUndefined end
  | _ => VUndefined
  end.

(** A value a template can print: any primitive; an object without a
    property [toString] of its own; an array without one whose elements
    can all be printed (or whose own [join] hides the joining). *)
Fixpoint printable (v : value) : bool :=
  match v with
  | VObj ps =>
      match lookup "toString" ps with Some _ => false | None => true end
  | VArr elems named =>
      match lookup "toString" named with
      | Some _ => false
      | None =>
          match lookup "join" named with
          | Some _ => true
          | None => forallb printable elems
          end
      end
  | _ => true
  end.

(** A stop the enrichment can rewrite: not [null], and when [lat] and
    [lng] are both truthy, both printable. *)
Definition stopOk (stop : value) : bool :=
  negb (nullish stop) &&
  (if truthy (member "lat" stop) && truthy (member "lng" stop)
   then printable (member "lat" stop) && printable (member "lng" stop)
   else true).

(** A direction the enrichment can rewrite: not [null], and when both
    endpoints are truthy, the four coordinates printable. *)
Definition directionOk (dir : value) : bool :=
  negb (nullish dir) &&
  (let fromLatLng := member "fromLatLng" dir in
   let toLatLng := member "toLatLng" dir in
   if truthy fromLatLng && truthy toLatLng
   then printable (member "lat" fromLatLng) &&
        printable (member "lng" fromLatLng) &&
        printable (member "lat" toLatLng) &&
        printable (member "lng" toLatLng)
   else true).

(** A value [map] can run over: an array whose elements are all [ok]. *)
Definition mappable (ok : value -> bool) (v : value) : bool :=
  match v with
  | VArr elems named =>
      match lookup "map" named with
      | Some _ => false
      | None => forallb ok elems
      end
  | _ => false
  end.

(** A list of the parsed object as the handler needs it: absent (or
    otherwise falsy, then replaced by the empty array) or mappable. *)
Definition listOk (ok : value -> bool) (v : value) : bool :=
  if truthy v then mappable ok v else true.

(** [f] returns on the values that are [ok] and throws on the others. *)
Definition decides {B} (ok : value -> bool) (f : value -> JsError + B) : Prop :=
  forall v, if ok v then exists y, f v = inr y else exists e, f v = inl e.

Section ValueInduction.

Variable Q : value -> Prop.
Hypothesis Q_undefined : Q VUndefined.
Hypothesis Q_null : Q VNull.
Hypothesis Q_bool : forall b, Q (VBool b).
Hypothesis Q_num : forall n, Q (VNum n).
Hypothesis Q_str : forall s, Q (VStr s).
Hypothesis Q_arr : forall elems named, Forall Q elems -> Q (VArr elems named).
Hypothesis Q_obj : forall ps, Q (VObj ps).

Fixpoint value_elems_ind (v : value) : Q v :=
  match v with
  | VUndefined => Q_undefined
  | VNull => Q_null
  | VBool b => Q_bool b
  | VNum n => Q_num n
  | VStr s => Q_str s
  | VArr elems named =>
      Q_arr elems named
        ((fix all (l : list value) : Forall Q l :=
            match l with
            | [] => Forall_nil Q
            | x :: l' => Forall_cons x (value_elems_ind x) (all l')
            end) elems)
  | VObj ps => Q_obj ps
  end.

End ValueInduction.

Lemma mapM_decides {B} (ok : value -> bool) (f : value -> JsError + B)
    (l : list value) :
  Forall (fun v => if ok v then exists y, f v = inr y
                   else exists e, f v = inl e) l ->
  if forallb ok l
  then exists ys, mapM f l = inr ys
  else exists e, mapM f l = inl e.
Proof.
  induction 1 as [| x l Hx _ IH]; simpl; [eauto |].
  destruct (ok x); simpl.
  - destruct Hx as [y ->]. rewrite andThen_inr.
    destruct (forallb ok l); destruct IH as [z ->]; simpl; eauto.
  - destruct Hx as [e ->]. simpl. eauto.
Qed.

Lemma toStr_decides (N : float -> string) : decides printable (toStr N).
Proof.
  intros v. induction v as [| | b | n | s | elems named IH | ps]
    using value_elems_ind; simpl; eauto.
  - destruct b; eauto.
  - destruct (lookup "toString" named); [eauto |].
    destruct (lookup "join" named); [eauto |].
    assert (Forall (fun e => if printable e
              then exists y, match e with
                             | VUndefined | VNull => inr EmptyString
                             | _ => toStr N e
                             end = inr y
              else exists err, match e with
                               | VUndefined | VNull => inr EmptyString
                               | _ => toStr N e
                               end = inl err) elems) as Hall.
    { revert IH. apply Forall_impl. intros e He.
      destruct e; simpl in *; eauto. }
    pose proof (mapM_decides printable _ elems Hall) as H.
    destruct (forallb printable elems); destruct H as [z ->]; simpl; eauto.
  - destruct (lookup "toString" ps); eauto.
Qed.

Lemma getProp_member (v : value) (k : string) :
  nullish v = false -> getProp v k = inr (member k v).
Proof. destruct v; simpl; intros H; try discriminate; reflexivity. Qed.

Lemma getProp_nullish (v : value) (k : string) :
  nullish v = true -> exists e, getProp v k = inl e.
Proof. destruct v; simpl; intros H; try discriminate; eauto. Qed.

Lemma truthy_not_nullish (v : value) : truthy v = true -> nullish v = false.
Proof. destruct v; simpl; intros H; try discriminate; reflexivity. Qed.

Lemma stopImageUrl_decides (P : Platform) (key : string) (lat lng : value) :
  if printable lat && printable lng
  then exists url, stopImageUrl P key lat lng = inr url
  else exists e, stopImageUrl P key lat lng = inl e.
Proof.
  unfold stopImageUrl.
  pose proof (toStr_decides (Number_toString P) lat) as Ha.
  pose proof (toStr_decides (Number_toString P) lng) as Hb.
  destruct (printable lat); cbn [andb].
  - destruct Ha as [a ->]. rewrite andThen_inr.
    destruct (printable lng).
    + destruct Hb as [b ->]. rewrite andThen_inr. eauto.
    + destruct Hb as [e ->]. simpl. eauto.
  - destruct Ha as [e ->]. simpl. eauto.
Qed.

Lemma directionMapUrl_decides (P : Platform) (key : string)
    (a b c d : value) :
  if printable a && printable b && printable c && printable d
  then exists url, directionMapUrl P key a b c d = inr url
  else exists e, directionMapUrl P key a b c d = inl e.
Proof.
  unfold directionMapUrl.
  pose proof (toStr_decides (Number_toString P) a) as Ha.
  pose proof (toStr_decides (Number_toString P) b) as Hb.
  pose proof (toStr_decides (Number_toString P) c) as Hc.
  pose proof (toStr_decides (Number_toString P) d) as Hd.
  destruct (printable a); cbn [andb];
    [destruct Ha as [x ->]; rewrite andThen_inr
    | destruct Ha as [e ->]; simpl; eauto].
  destruct (printable b); cbn [andb];
    [destruct Hb as [y ->]; rewrite andThen_inr
    | destruct Hb as [e ->]; simpl; eauto].
  destruct (printable c); cbn [andb];
    [destruct Hc as [z ->]; rewrite andThen_inr
    | destruct Hc as [e ->]; simpl; eauto].
  destruct (printable d);
    [destruct Hd as [w ->]; rewrite andThen_inr; eauto
    | destruct Hd as [e ->]; simpl; eauto].
Qed.

Lemma enrichStop_decides (P : Platform) (key : string) :
  decides stopOk (enrichStop P key).
Proof.
  intros stop. unfold stopOk, enrichStop.
  destruct (nullish stop) eqn:En; cbn [negb andb].
  - destruct (getProp_nullish stop "lat" En) as [e ->]. simpl. eauto.
  - rewrite !(getProp_member stop _ En), !andThen_inr.
    destruct (truthy (member "lat" stop) && truthy (member "lng" stop)).
    + pose proof (stopImageUrl_decides P key (member "lat" stop)
                    (member "lng" stop)) as H.
      destruct (printable (member "lat" stop) && printable (member "lng" stop));
        destruct H as [z ->]; simpl; eauto.
    + rewrite andThen_inr. eauto.
Qed.

Lemma enrichDirection_decides (P : Platform) (key : string) :
  decides directionOk (enrichDirection P key).
Proof.
  intros dir. unfold directionOk, enrichDirection.
  destruct (nullish dir) eqn:En; cbn [negb andb].
  - destruct (getProp_nullish dir "fromLatLng" En) as [e ->]. simpl. eauto.
  - rewrite !(getProp_member dir _ En), !andThen_inr. cbv zeta.
    destruct (truthy (member "fromLatLng" dir) && truthy (member "toLatLng" dir))
      eqn:E.
    + apply andb_true_iff in E as [Ef Et].
      apply truthy_not_nullish in Ef, Et.
      rewrite !(getProp_member _ _ Ef), !(getProp_member _ _ Et), !andThen_inr.
      pose proof (directionMapUrl_decides P key
                    (member "lat" (member "fromLatLng" dir))
                    (member "lng" (member "fromLatLng" dir))
                    (member "lat" (member "toLatLng" dir))
                    (member "lng" (member "toLatLng" dir))) as H.
      destruct (printable _ && printable _ && printable _ && printable _);
        destruct H as [z ->]; simpl; eauto.
    + rewrite andThen_inr. eauto.
Qed.

Lemma arrayMap_mappable (ok : value -> bool) (f : value -> JsError + value)
    (v : value) :
  decides ok f ->
  if mappable ok v
  then exists out, arrayMap f v = inr out
  else exists e, arrayMap f v = inl e.
Proof.
  intros Hf. destruct v; simpl; eauto.
  destruct (lookup "map" named); [eauto|].
  assert (Forall (fun v => if ok v then exists y, f v = inr y
                           else exists e, f v = inl e) elems) as Hall
    by (apply Forall_forall; intros x _; apply Hf).
  pose proof (mapM_decides ok f elems Hall) as H.
  destruct (forallb ok elems); destruct H as [z ->]; simpl; eauto.
Qed.

Lemma mappable_defaulted_stops (ok : value -> bool) (ps : props) :
  mappable ok (field "stops" (VObj (defaulted ps)))
    = listOk ok (field "stops" (VObj ps)).
Proof.
  rewrite field_defaulted_stops. unfold listOk.
  now destruct (truthy (field "stops" (VObj ps))).
Qed.

Lemma mappable_defaulted_directions (ok : value -> bool) (ps : props) :
  mappable ok (field "directions" (VObj (defaulted ps)))
    = listOk ok (field "directions" (VObj ps)).
Proof.
  rewrite field_defaulted_directions. unfold listOk.
  now destruct (truthy (field "directions" (VObj ps))).
Qed.

(** X12. With a map key, a parsed object is answered with status 200
    exactly when its [stops] and its [directions] are each absent (or
    falsy) or an array whose elements the enrichment can rewrite: none
    is [null], and every coordinate that goes into a link can be printed
    (an object with a [toString] property of its own cannot).  Otherwise
    the run ends as a parse failure: 500 with the parse-failure message.
    One such stop, or a [stops] that is not an array, fails the whole
    tour. *)
Theorem enrichment_needs_well_formed_lists
    (P : Platform) (env : ProcessEnv) (r : TourRequest)
    (rawText key : string) (ps : props) :
  modelAnswers P env r rawText ->
  JSON_parse P rawText = Some (VObj ps) ->
  enrichmentKey env = Some key ->
  if listOk stopOk (field "stops" (VObj ps)) &&
     listOk directionOk (field "directions" (VObj ps))
  then exists resp, snd (generateTour P env r) = inr resp /\ status resp = 200
  else snd (generateTour P env r) =
         inr {| status := 500; body := errorBody parseFailureMessage |}.
Proof.
  intros Ha Hp Hk.
  pose proof (resolve_object_keyed P env rawText key ps Hp Hk) as Hres.
  pose proof (arrayMap_mappable stopOk (enrichStop P key)
                (field "stops" (VObj (defaulted ps)))
                (enrichStop_decides P key)) as Hs.
  pose proof (arrayMap_mappable directionOk (enrichDirection P key)
                (field "directions" (VObj (defaulted ps)))
                (enrichDirection_decides P key)) as Hd.
  rewrite mappable_defaulted_stops in Hs.
  rewrite mappable_defaulted_directions in Hd.
  destruct (listOk stopOk (field "stops" (VObj ps))).
  - destruct Hs as [stops' Hs]. rewrite Hs, andThen_inr in Hres.
    destruct (listOk directionOk (field "directions" (VObj ps))); cbn [andb].
    + destruct Hd as [directions' Hd]. rewrite Hd, andThen_inr in Hres.
      eexists. split; [apply (run_resolved P env r rawText _ Ha Hres)|].
      reflexivity.
    + destruct Hd as [e Hd]. rewrite Hd in Hres.
      apply (run_resolve_fails P env r rawText e Ha Hres).
  - destruct Hs as [e Hs]. rewrite Hs in Hres. cbn [andb].
    apply (run_resolve_fails P env r rawText e Ha Hres).
Qed.

(** An answer with one stop whose latitude is an object with a property
    [toString]: the text of the link cannot be built. *)
Definition unprintableTour : props :=
  [ ("tourName", VStr "Waterfront bites");
    ("stops",
     VArr [ VObj [("name", VStr "Pike Place Market");
                  ("lat", VObj [("toString", VNum 1)]);
                  ("lng", VNum 1)] ] []) ].

Definition answeringUnprintable : Platform :=
  {| generateContent := fun _ _ =>
       inr {| responseText := Some "unprintable"; candidates := None |};
     JSON_parse := fun s =>
       if String.eqb s "unprintable" then Some (VObj unprintableTour) else None;
     Number_toString := fun _ => "1" |}.

Lemma enrichment_needs_well_formed_lists_witness :
  snd (generateTour answeringUnprintable keyedEnv PromptFacts.foodTourSeattle) =
    inr {| status := 500; body := errorBody parseFailureMessage |}.
Proof.
  apply (enrichment_needs_well_formed_lists answeringUnprintable keyedEnv
           PromptFacts.foodTourSeattle "unprintable" "maps-test-key"
           unprintableTour).
  - exists {| apiKey := Some "gemini-test-key" |}. eexists.
    split; [reflexivity|]. split; reflexivity.
  - reflexivity.
  - reflexivity.
Defined.

(** The sample answer with a [null] among its stops. *)
Definition brokenTour : props :=
  [ ("tourName", VStr "Waterfront bites");
    ("stops", VArr (VNull :: sampleStops) []) ].

Definition answeringBroken : Platform :=
  {| generateContent := fun _ _ =>
       inr {| responseText := Some "broken"; candidates := None |};
     JSON_parse := fun s =>
       if String.eqb s "broken" then Some (VObj brokenTour) else None;
     Number_toString := Number_toString (answering "broken") |}.

Lemma answeringBroken_answers (env : ProcessEnv) :
  GEMINI_API_KEY env = Some "gemini-test-key" ->
  modelAnswers answeringBroken env PromptFacts.foodTourSeattle "broken".
Proof.
  intros Hk. exists {| apiKey := Some "gemini-test-key" |}. eexists.
  split; [|split; reflexivity].
  unfold getAiClient, configuredKey. rewrite Hk. reflexivity.
Defined.

(** X13. Without a map key every parsed object is answered with status
    200, whatever its [stops] and [directions] hold: nothing maps over
    them, so a [null] stop or a list that is not an array is passed on. *)
Theorem without_key_every_object_is_returned
    (P : Platform) (env : ProcessEnv) (r : TourRequest)
    (rawText : string) (ps : props) :
  modelAnswers P env r rawText ->
  JSON_parse P rawText = Some (VObj ps) ->
  enrichmentKey env = None ->
  snd (generateTour P env r) =
    inr {| status := 200; body := toJSON (VObj (defaulted ps)) |} /\
  elements (field "stops" (toJSON (VObj (defaulted ps))))
    = map (elementWith toJSON) (elements (field "stops" (VObj ps))).
Proof.
  intros Ha Hp Hk. split.
  - apply (run_resolved P env r rawText _ Ha).
    now apply resolve_object_plain.
  - rewrite field_toJSON by apply truthy_defaulted_stops.
    now rewrite elements_toJSON, elements_defaulted_stops.
Qed.

Lemma without_key_every_object_is_returned_witness :
  snd (generateTour answeringBroken noMapsEnv PromptFacts.foodTourSeattle) =
    inr {| status := 200; body := toJSON (VObj (defaulted brokenTour)) |} /\
  elements (field "stops" (toJSON (VObj (defaulted brokenTour))))
    = map (elementWith toJSON) (elements (field "stops" (VObj brokenTour))).
Proof.
  apply (without_key_every_object_is_returned answeringBroken noMapsEnv
           PromptFacts.foodTourSeattle "broken" brokenTour).
  - now apply answeringBroken_answers.
  - reflexivity.
  - reflexivity.
Defined.

(** *** What the handler leaves alone *)

Lemma field_members (k : string) (ps : props) :
  field k (toJSON (VObj ps)) =
    match lookup k (membersWith toJSON ps) with
    | Some x => x
    | None => VUndefined
    end.
Proof. reflexivity. Qed.

Lemma field_toJSON_withDefault (k k' : string) (ps : props) :
  k <> k' ->
  field k (toJSON (VObj (withDefault k' ps))) = field k (toJSON (VObj ps)).
Proof.
  intros H. unfold withDefault.
  destruct (truthy (field k' (VObj ps))); [reflexivity|].
  rewrite !field_members. now rewrite lookup_members_assign_other.
Qed.

Lemma field_toJSON_defaulted (k : string) (ps : props) :
  k <> "stops" -> k <> "directions" ->
  field k (toJSON (VObj (defaulted ps))) = field k (toJSON (VObj ps)).
Proof.
  intros Hs Hd. unfold defaulted.
  now rewrite !field_toJSON_withDefault.
Qed.

(** X14. Whenever the handler returns a parsed object (status 200),
    with or without a map key, every property other than [stops] and
    [directions] is returned as it was parsed. *)
Theorem other_properties_are_kept
    (P : Platform) (env : ProcessEnv) (r : TourRequest)
    (rawText : string) (ps : props) (resp : Response) :
  modelAnswers P env r rawText ->
  JSON_parse P rawText = Some (VObj ps) ->
  snd (generateTour P env r) = inr resp ->
  status resp = 200 ->
  forall k, k <> "stops" -> k <> "directions" ->
    field k (body resp) = field k (toJSON (VObj ps)).
Proof.
  intros Ha Hp Hrun Hstatus k Hs Hd.
  pose proof (run_ok_resolved P env r rawText resp Ha Hrun Hstatus) as Hres.
  destruct (enrichmentKey env) as [key|] eqn:Hk.
  - destruct (resolve_object_enriched P env rawText key ps resp Hp Hk Hres)
      as [stops' [directions' [_ [_ ->]]]].
    cbn [body]. rewrite field_members.
    rewrite !lookup_members_assign_other by assumption.
    rewrite <- field_members. now apply field_toJSON_defaulted.
  - rewrite (resolve_object_plain P env rawText ps Hp Hk) in Hres.
    injection Hres as <-. cbn [body]. now apply field_toJSON_defaulted.
Qed.

Lemma other_properties_are_kept_witness :
  field "tourName" (body sampleResponse)
    = field "tourName" (toJSON (VObj sampleTour)).
Proof.
  apply (other_properties_are_kept (answering sampleText) keyedEnv
           PromptFacts.foodTourSeattle sampleText sampleTour sampleResponse).
  - apply answering_answers; reflexivity.
  - reflexivity.
  - vm_compute. reflexivity.
  - reflexivity.
  - discriminate.
  - discriminate.
Defined.

(** A returned stop keeps what the parsed stop had, [imageUrl] apart;
    a returned direction likewise, [mapUrl] apart. *)
Definition keepsAllBut (k : string) (parsed out : value) : Prop :=
  forall ps, parsed = VObj ps ->
  forall k', k' <> k -> field k' out = field k' (toJSON parsed).

Lemma enriched_keeps (k : string) (x : value) (ps : props) :
  keepsAllBut k (VObj ps) (elementWith toJSON (VObj (assign k x ps))).
Proof.
  intros ps' E k' Hk. injection E as <-.
  unfold elementWith. rewrite !field_members.
  now rewrite lookup_members_assign_other.
Qed.

Lemma enrichStop_keeps (P : Platform) (key : string) (stop out : value) :
  enrichStop P key stop = inr out ->
  keepsAllBut "imageUrl" stop (elementWith toJSON out).
Proof.
  unfold enrichStop.
  destruct (getProp stop "lat") as [e | lat]; [discriminate|].
  destruct (getProp stop "lng") as [e | lng]; [discriminate|].
  rewrite !andThen_inr.
  destruct (if truthy lat && truthy lng then _ else _) as [e | imageUrl];
    [discriminate|].
  rewrite andThen_inr. intros H. injection H as <-.
  intros ps E. subst stop.
  exact (enriched_keeps "imageUrl" _ ps ps eq_refl).
Qed.

Lemma enrichDirection_keeps (P : Platform) (key : string) (dir out : value) :
  enrichDirection P key dir = inr out ->
  keepsAllBut "mapUrl" dir (elementWith toJSON out).
Proof.
  unfold enrichDirection.
  destruct (getProp dir "fromLatLng") as [e | f]; [discriminate|].
  destruct (getProp dir "toLatLng") as [e | t]; [discriminate|].
  rewrite !andThen_inr.
  destruct (if truthy f && truthy t then _ else _) as [e | mapUrl];
    [discriminate|].
  rewrite andThen_inr. intros H. injection H as <-.
  intros ps E. subst dir.
  exact (enriched_keeps "mapUrl" _ ps ps eq_refl).
Qed.

(** X15. With a map key, when the handler returns the parsed object,
    each returned stop has every property of the parsed stop other than
    [imageUrl] unchanged, and each returned direction every property of
    the parsed direction other than [mapUrl]. *)
Theorem enrichment_keeps_other_properties
    (P : Platform) (env : ProcessEnv) (r : TourRequest)
    (rawText key : string) (ps : props) (resp : Response) :
  modelAnswers P env r rawText ->
  JSON_parse P rawText = Some (VObj ps) ->
  enrichmentKey env = Some key ->
  snd (generateTour P env r) = inr resp ->
  status resp = 200 ->
  Forall2 (keepsAllBut "imageUrl")
    (elements (field "stops" (VObj ps)))
    (elements (field "stops" (body resp))) /\
  Forall2 (keepsAllBut "mapUrl")
    (elements (field "directions" (VObj ps)))
    (elements (field "directions" (body resp))).
Proof.
  intros Ha Hp Hk Hrun Hstatus.
  pose proof (run_ok_resolved P env r rawText resp Ha Hrun Hstatus) as Hres.
  destruct (resolve_object_enriched P env rawText key ps resp Hp Hk Hres)
    as [stops' [directions' [Hs [Hd ->]]]].
  destruct (arrayMap_inr _ _ _ Hs) as [souts [-> Fs]].
  destruct (arrayMap_inr _ _ _ Hd) as [douts [-> Fd]].
  rewrite elements_defaulted_stops in Fs.
  rewrite elements_defaulted_directions in Fd.
  cbn [body].
  rewrite field_enriched_stops, field_enriched_directions by discriminate.
  rewrite !elements_toJSON. cbn [elements]. split.
  - apply Forall2_map_right. revert Fs. apply Forall2_impl.
    intros stop out. apply enrichStop_keeps.
  - apply Forall2_map_right. revert Fd. apply Forall2_impl.
    intros dir out. apply enrichDirection_keeps.
Qed.

Lemma enrichment_keeps_other_properties_witness :
  Forall2 (keepsAllBut "imageUrl")
    (elements (field "stops" (VObj sampleTour)))
    (elements (field "stops" (body sampleResponse))) /\
  Forall2 (keepsAllBut "mapUrl")
    (elements (field "directions" (VObj sampleTour)))
    (elements (field "directions" (body sampleResponse))).
Proof.
  apply (enrichment_keeps_other_properties (answering sampleText) keyedEnv
           PromptFacts.foodTourSeattle sampleText "maps-test-key" sampleTour
           sampleResponse).
  - apply answering_answers; reflexivity.
  - reflexivity.
  - reflexivity.
  - vm_compute. reflexivity.
  - reflexivity.
Defined.

(** *** Directions whose endpoints lack coordinates *)

Lemma Contains_here (s rest : string) : Contains (s ++ rest) s.
Proof. exists EmptyString, rest. reflexivity. Qed.

Ltac find_here :=
  repeat first [ apply Contains_here | apply Contains_app_r ].

Lemma inr_eq {A B} (a b : B) : @inr A B a = inr b -> a = b.
Proof. congruence. Qed.

Lemma directionMapUrl_undefined (P : Platform) (key : string)
    (a b c d : value) (url : string) :
  directionMapUrl P key a b c d = inr url ->
  a = VUndefined \/ b = VUndefined \/ c = VUndefined \/ d = VUndefined ->
  Contains url "undefined".
Proof.
  unfold directionMapUrl.
  destruct (toStr (Number_toString P) a) as [e | x] eqn:Ea; [discriminate|].
  destruct (toStr (Number_toString P) b) as [e | y] eqn:Eb; [discriminate|].
  destruct (toStr (Number_toString P) c) as [e | z] eqn:Ec; [discriminate|].
  destruct (toStr (Number_toString P) d) as [e | w] eqn:Ed; [discriminate|].
  rewrite !andThen_inr. intros H. apply inr_eq in H. subst url.
  intros [-> | [-> | [-> | ->]]].
  - apply inr_eq in Ea. subst x. apply Contains_app_r. apply Contains_here.
  - apply inr_eq in Eb. subst y. do 3 apply Contains_app_r. apply Contains_here.
  - apply inr_eq in Ec. subst z. do 5 apply Contains_app_r. apply Contains_here.
  - apply inr_eq in Ed. subst w. do 7 apply Contains_app_r. apply Contains_here.
Qed.

(** X16. A direction whose [fromLatLng] and [toLatLng] are objects gets
    a [mapUrl] whenever their four coordinates can be printed, with no
    check that they are numbers or that they are there: the link is
    built from [lat] and [lng] as they are, and when one of the four is
    absent the link contains the text [undefined].  When one of them
    cannot be printed (an object with a [toString] property of its own),
    the enrichment throws. *)
Theorem direction_map_ignores_coordinates
    (P : Platform) (key : string) (dir from to : props) :
  lookup "fromLatLng" dir = Some (VObj from) ->
  lookup "toLatLng" dir = Some (VObj to) ->
  let fromLat := field "lat" (VObj from) in
  let fromLng := field "lng" (VObj from) in
  let toLat := field "lat" (VObj to) in
  let toLng := field "lng" (VObj to) in
  if printable fromLat && printable fromLng &&
     printable toLat && printable toLng
  then exists url out,
         directionMapUrl P key fromLat fromLng toLat toLng = inr url /\
         enrichDirection P key (VObj dir) = inr out /\
         field "mapUrl" (toJSON out) = VStr url /\
         (lookup "lat" from = None \/ lookup "lng" from = None \/
          lookup "lat" to = None \/ lookup "lng" to = None ->
          Contains url "undefined")
  else exists e, enrichDirection P key (VObj dir) = inl e.
Proof.
  intros Hf Ht fromLat fromLng toLat toLng.
  assert (enrichDirection P key (VObj dir) =
          andThen (andThen (directionMapUrl P key fromLat fromLng toLat toLng)
                     (fun url => inr (VStr url)))
            (fun mapUrl => inr (VObj (assign "mapUrl" mapUrl dir)))) as Hrun.
  { unfold enrichDirection.
    rewrite !getProp_object. unfold field at 1 2. rewrite Hf, Ht.
    rewrite !andThen_inr. cbn [truthy andb].
    rewrite !getProp_object, !andThen_inr. reflexivity. }
  rewrite Hrun.
  pose proof (directionMapUrl_decides P key fromLat fromLng toLat toLng) as H.
  destruct (printable fromLat && printable fromLng &&
            printable toLat && printable toLng).
  - destruct H as [url Hurl]. exists url. eexists.
    split; [exact Hurl|]. rewrite Hurl, !andThen_inr.
    split; [reflexivity|]. split.
    + rewrite field_members, lookup_members_assign_same. reflexivity.
    + intros Habsent. apply (directionMapUrl_undefined _ _ _ _ _ _ _ Hurl).
      unfold fromLat, fromLng, toLat, toLng, field.
      destruct Habsent as [-> | [-> | [-> | ->]]]; auto.
  - destruct H as [e He]. exists e. rewrite He. reflexivity.
Qed.

Lemma direction_map_ignores_coordinates_witness :
  let P := answering sampleText in
  let from := [("lat", VNum 0); ("lng", VNum 0)] in
  let to := [("lat", VNum 47.625)] in
  let dir := [("fromLatLng", VObj from); ("toLatLng", VObj to)] in
  exists url out,
    directionMapUrl P "maps-test-key"
      (field "lat" (VObj from)) (field "lng" (VObj from))
      (field "lat" (VObj to)) (field "lng" (VObj to)) = inr url /\
    enrichDirection P "maps-test-key" (VObj dir) = inr out /\
    field "mapUrl" (toJSON out) = VStr url /\
    (lookup "lat" from = None \/ lookup "lng" from = None \/
     lookup "lat" to = None \/ lookup "lng" to = None ->
     Contains url "undefined").
Proof.
  apply (direction_map_ignores_coordinates (answering sampleText)
           "maps-test-key"
           [("fromLatLng", VObj [("lat", VNum 0); ("lng", VNum 0)]);
            ("toLatLng", VObj [("lat", VNum 47.625)])]
           [("lat", VNum 0); ("lng", VNum 0)]
           [("lat", VNum 47.625)]).
  - reflexivity.
  - reflexivity.
Defined.

End HandlerFacts.

(** ** Facts about the wizard of [App] *)

Module AppFlowFacts.
Import Js Tour GenAI Runtime AppFlow.
Local Open Scope eff_scope.

Definition categoryChosen (sel : Selection) : Prop :=
  exists c, selCategory sel = Some c /\
            In c (map Wizard.id Wizard.CATEGORIES).

Definition locationGiven (sel : Selection) : Prop :=
  exists l, selLocation sel = Some l /\ l <> EmptyString.

(** What holds of the state between two events. *)
Record Settled (s : AppState) : Prop := {
  settled_step : step s <> StepLoading;
  settled_location : step s = StepLocation -> categoryChosen (selection s);
  settled_duration :
    step s = StepDuration ->
    categoryChosen (selection s) /\ locationGiven (selection s);
  settled_result : step s = StepResult -> itinerary s <> None;
  settled_requests : Forall categoryChosen (locating s);
  settled_locating :
    (isLocating s = false /\ locating s = []) \/
    (isLocating s = true /\ exists sel, locating s = [sel])
}.

Lemma initialState_settled : Settled initialState.
Proof.
  split; simpl; try discriminate; try constructor. split; reflexivity.
Qed.

Lemma nonblank_nonempty (t : string) :
  truthy_string (trim t) = true -> t <> EmptyString.
Proof.
  intros H ->. vm_compute in H. discriminate.
Qed.

Lemma nth_error_map_In {A B} (f : A -> B) (l : list A) i x :
  nth_error l i = Some x -> In (f x) (map f l).
Proof.
  intros H. apply in_map. eapply nth_error_In. exact H.
Qed.

(** At most one request is under way: the one at index 0. *)
Lemma one_request (s : AppState) (k : nat) (sel : Selection) :
  Settled s -> nth_error (locating s) k = Some sel ->
  k = 0 /\ locating s = [sel] /\ isLocating s = true /\ categoryChosen sel.
Proof.
  intros Hs Hk.
  pose proof (settled_requests s Hs) as Hall.
  destruct (settled_locating s Hs) as [[_ Hl] | [Hi [sel0 Hl]]];
    rewrite Hl in Hk, Hall.
  - destruct k; discriminate.
  - destruct k as [| k]; [| destruct k; discriminate].
    injection Hk as ->. rewrite Hl.
    split; [reflexivity |]. split; [reflexivity |]. split; [exact Hi |].
    inversion Hall. assumption.
Qed.

Section WithService.

Variable generateWalkingTour : TourRequest -> Eff App.Itinerary.

(** The handler of the duration buttons catches whatever the service
    throws: it ends on the result or back on the duration step. *)
Lemma handleDurationSelect_cases (d : N) (s : AppState) :
  exists t s',
    handleDurationSelect generateWalkingTour d s = (t, inr s') /\
    selection s' = finalSelection d (selection s) /\
    isLocating s' = isLocating s /\
    locating s' = locating s /\
    ((step s' = StepResult /\ itinerary s' <> None) \/
     (step s' = StepDuration /\ itinerary s' = itinerary s /\
      error s' = Some generationFailed)).
Proof.
  unfold handleDurationSelect.
  destruct (generateWalkingTour (asTourRequest d (selection s)))
    as [t [e | it]]; simpl.
  - eexists _, _. split; [reflexivity |]. simpl.
    split; [reflexivity |]. split; [reflexivity |]. split; [reflexivity |].
    right. split; [reflexivity |]. split; reflexivity.
  - eexists _, _. split; [reflexivity |]. simpl.
    split; [reflexivity |]. split; [reflexivity |]. split; [reflexivity |].
    left. split; [reflexivity | discriminate].
Qed.

Lemma dispatch_settled (ev : UiEvent) (s : AppState) run :
  Settled s ->
  dispatch generateWalkingTour ev s = Some run ->
  exists t s', run = (t, inr s') /\ Settled s'.
Proof.
  intros Hs Hrun.
  destruct ev as [index | | text | supported | request la lo | request | |
                  index | ].
  - (* a category button *)
    unfold dispatch in Hrun. destruct (step s) eqn:Hstep; try discriminate.
    destruct (nth_error Wizard.CATEGORIES index) as [cat |] eqn:Hcat;
      [| discriminate].
    injection Hrun as <-. eexists _, _. split; [reflexivity |].
    destruct Hs as [_ _ _ _ Hreq Hloc].
    split; simpl; try discriminate; try assumption.
    intros _. exists (Wizard.id cat). split; [reflexivity |].
    eapply nth_error_map_In. exact Hcat.
  - (* back to the categories *)
    unfold dispatch in Hrun. destruct (step s) eqn:Hstep; try discriminate.
    injection Hrun as <-. eexists _, _. split; [reflexivity |].
    destruct Hs as [_ _ _ _ Hreq Hloc].
    split; simpl; try discriminate; assumption.
  - (* the form *)
    unfold dispatch in Hrun. destruct (step s) eqn:Hstep; try discriminate.
    injection Hrun as <-. eexists _, _. split; [reflexivity |].
    unfold handleLocationSubmit.
    destruct (truthy_string (trim text)) eqn:Htext; [| exact Hs].
    pose proof (settled_location s Hs Hstep) as Hcat.
    destruct Hs as [_ _ _ _ Hreq Hloc].
    split; simpl; try discriminate; try assumption.
    intros _. split; [exact Hcat |].
    exists text. split; [reflexivity |].
    apply nonblank_nonempty. exact Htext.
  - (* the location button *)
    unfold dispatch in Hrun. destruct (step s) eqn:Hstep; try discriminate.
    destruct (isLocating s) eqn:Hbusy; [discriminate |].
    injection Hrun as <-. eexists _, _. split; [reflexivity |].
    pose proof (settled_location s Hs Hstep) as Hcat.
    assert (locating s = []) as Hnone.
    { destruct (settled_locating s Hs) as [[_ H] | [H _]];
        [exact H | congruence]. }
    unfold useCurrentLocation. destruct supported.
    + split; simpl; rewrite ?Hstep, ?Hnone; try discriminate.
      * intros _. exact Hcat.
      * repeat constructor. exact Hcat.
      * right. split; [reflexivity |]. eexists. reflexivity.
    + split; simpl; rewrite ?Hstep, ?Hnone; try discriminate.
      * intros _. exact Hcat.
      * constructor.
      * left. split; reflexivity.
  - (* a position arrives *)
    assert (exists sel, nth_error (locating s) request = Some sel /\
              run = ret (positionFound sel la lo (answered request s))) as (sel & Hk & ->).
    { unfold dispatch in Hrun.
      destruct (nth_error (locating s) request) as [sel |] eqn:Hk;
        [| destruct (step s); discriminate].
      exists sel. split; [reflexivity |].
      destruct (step s); injection Hrun as <-; reflexivity. }
    destruct (one_request s request sel Hs Hk) as (-> & Hl & _ & Hcat).
    eexists _, _. split; [reflexivity |].
    split; simpl; rewrite ?Hl; simpl; try discriminate.
    + intros _. split; [exact Hcat |].
      eexists. split; [reflexivity | discriminate].
    + constructor.
    + left. split; reflexivity.
  - (* the geolocation fails *)
    assert (exists sel, nth_error (locating s) request = Some sel /\
              run = ret (positionFailed (answered request s)))
      as (sel & Hk & ->).
    { unfold dispatch in Hrun.
      destruct (nth_error (locating s) request) as [sel |] eqn:Hk;
        [| destruct (step s); discriminate].
      exists sel. split; [reflexivity |].
      destruct (step s); injection Hrun as <-; reflexivity. }
    destruct (one_request s request sel Hs Hk) as (-> & Hl & _ & _).
    eexists _, _. split; [reflexivity |].
    destruct Hs as [Hstep Hlocation Hduration Hresult _ _].
    split; simpl; rewrite ?Hl; simpl; try assumption.
    + constructor.
    + left. split; reflexivity.
  - (* back to the location *)
    unfold dispatch in Hrun. destruct (step s) eqn:Hstep; try discriminate.
    injection Hrun as <-. eexists _, _. split; [reflexivity |].
    pose proof (settled_duration s Hs Hstep) as [Hcat _].
    destruct Hs as [_ _ _ _ Hreq Hloc].
    split; simpl; try discriminate; try assumption.
    intros _. exact Hcat.
  - (* a duration button *)
    unfold dispatch in Hrun. destruct (step s) eqn:Hstep; try discriminate.
    destruct (nth_error Wizard.DURATIONS index) as [d |]; [| discriminate].
    injection Hrun as <-.
    destruct (handleDurationSelect_cases d s)
      as (t & s' & Hrun & Hsel & Hbusy & Hpend & Hcases).
    exists t, s'. split; [exact Hrun |].
    pose proof (settled_duration s Hs Hstep) as Hboth.
    destruct Hs as [_ _ _ _ Hreq Hloc].
    destruct Hcases as [[Hs' Hit] | [Hs' _]].
    + split; rewrite ?Hs', ?Hbusy, ?Hpend; try discriminate;
        try assumption.
      intros _. exact Hit.
    + split; rewrite ?Hs', ?Hbusy, ?Hpend; try discriminate;
        try assumption.
      intros _. rewrite Hsel. exact Hboth.
  - (* start over *)
    unfold dispatch in Hrun. destruct (step s) eqn:Hstep; try discriminate.
    destruct (itinerary s); [| discriminate].
    injection Hrun as <-. eexists _, _. split; [reflexivity |].
    destruct Hs as [_ _ _ _ Hreq Hloc].
    split; simpl; try discriminate; assumption.
Qed.

Lemma session_settled (evs : list UiEvent) :
  forall s, Settled s ->
  exists t s', session generateWalkingTour evs s = (t, inr s') /\ Settled s'.
Proof.
  induction evs as [| ev evs IH]; intros s Hs.
  - exists [], s. split; [reflexivity | exact Hs].
  - cbn [session].
    destruct (dispatch generateWalkingTour ev s) as [run |] eqn:Hrun.
    + destruct (dispatch_settled ev s run Hs Hrun) as (t & s' & -> & Hs').
      destruct (IH s' Hs') as (t' & s'' & Heq & Hs'').
      exists (t ++ t')%list, s''. split; [| exact Hs''].
      unfold bind. rewrite Heq. reflexivity.
    + apply IH. exact Hs.
Qed.

Lemma settled_request_valid (d : N) (s : AppState) :
  Settled s -> step s = StepDuration -> In d Wizard.DURATIONS ->
  PromptFacts.validRequest (asTourRequest d (selection s)).
Proof.
  intros Hs Hstep Hd.
  destruct (settled_duration s Hs Hstep) as [(c & Hc & Hin) (l & Hl & Hne)].
  unfold PromptFacts.validRequest, asTourRequest. simpl.
  rewrite Hc, Hl. simpl. split; [exact Hin |]. split; [exact Hne | exact Hd].
Qed.

(** What a session may leave in the trace, when [Sent r e] holds of
    every event [e] of the service called on [r]. *)
Definition allowed (Sent : TourRequest -> Event -> Prop) (e : Event) : Prop :=
  (exists l, e = ConsoleError l) \/
  (exists r, PromptFacts.validRequest r /\ Sent r e).

Variable Sent : TourRequest -> Event -> Prop.
Hypothesis service_sends :
  forall r t res e, generateWalkingTour r = (t, res) -> In e t -> Sent r e.

Lemma dispatch_trace (ev : UiEvent) (s : AppState) t res :
  Settled s ->
  dispatch generateWalkingTour ev s = Some (t, res) ->
  forall e, In e t -> allowed Sent e.
Proof.
  intros Hs Hrun e He.
  destruct ev; unfold dispatch in Hrun.
  - destruct (step s); try discriminate.
    destruct (nth_error Wizard.CATEGORIES index); [| discriminate].
    injection Hrun as <- _. contradiction.
  - destruct (step s); try discriminate.
    injection Hrun as <- _. contradiction.
  - destruct (step s); try discriminate.
    injection Hrun as <- _. contradiction.
  - destruct (step s); try discriminate.
    destruct (isLocating s); [discriminate |].
    injection Hrun as <- _. contradiction.
  - destruct (nth_error (locating s) request);
      destruct (step s); try discriminate;
      injection Hrun as <- _; contradiction.
  - destruct (nth_error (locating s) request);
      destruct (step s); try discriminate;
      injection Hrun as <- _; contradiction.
  - destruct (step s); try discriminate.
    injection Hrun as <- _. contradiction.
  - destruct (step s) eqn:Hstep; try discriminate.
    destruct (nth_error Wizard.DURATIONS index) as [d |] eqn:Hd;
      [| discriminate].
    apply nth_error_In in Hd.
    pose proof (settled_request_valid d s Hs Hstep Hd) as Hvalid.
    unfold handleDurationSelect in Hrun.
    destruct (generateWalkingTour (asTourRequest d (selection s)))
      as [t0 [err | it]] eqn:Hsvc; simpl in Hrun.
    + injection Hrun as <- _. apply in_app_or in He.
      destruct He as [He | [<- | []]].
      * right. eexists. split; [exact Hvalid |].
        eapply service_sends; [exact Hsvc | exact He].
      * left. eexists. reflexivity.
    + injection Hrun as <- _. rewrite app_nil_r in He.
      right. eexists. split; [exact Hvalid |].
      eapply service_sends; [exact Hsvc | exact He].
  - destruct (step s); try discriminate.
    destruct (itinerary s); [| discriminate].
    injection Hrun as <- _. contradiction.
Qed.

Lemma session_trace (evs : list UiEvent) :
  forall s, Settled s ->
  exists t s',
    session generateWalkingTour evs s = (t, inr s') /\ Settled s' /\
    forall e, In e t -> allowed Sent e.
Proof.
  induction evs as [| ev evs IH]; intros s Hs.
  - exists [], s. split; [reflexivity |]. split; [exact Hs |].
    intros e [].
  - cbn [session].
    destruct (dispatch generateWalkingTour ev s) as [run |] eqn:Hrun.
    + destruct (dispatch_settled ev s run Hs Hrun) as (t & s' & -> & Hs').
      destruct (IH s' Hs') as (t' & s'' & Heq & Hs'' & Ht').
      exists (t ++ t')%list, s''. split; [| split; [exact Hs'' |]].
      * unfold bind. rewrite Heq. reflexivity.
      * intros e He. apply in_app_or in He. destruct He as [He | He].
        -- eapply dispatch_trace; [exact Hs | exact Hrun | exact He].
        -- apply Ht'. exact He.
    + apply IH. exact Hs.
Qed.

End WithService.

(** Both grounded services leave one event at most: their model call. *)
Lemma grounded_sends P env r t res e :
  GroundedService.generateWalkingTour P env r = (t, res) -> In e t ->
  exists client, e = ModelCall client (GroundedService.callParams r).
Proof.
  unfold GroundedService.generateWalkingTour, callModel, bind, lift.
  destruct (GroundedService.ai env) as [err | client].
  - intros H. injection H as <- _. intros [].
  - destruct (generateContent P _ _); simpl; intros H;
      injection H as <- _; intros [<- | []]; now exists client.
Qed.

Lemma groundedFood_sends P env r t res e :
  GroundedServiceFood.generateWalkingTour P env r = (t, res) -> In e t ->
  exists client, e = ModelCall client (GroundedServiceFood.callParams r).
Proof.
  unfold GroundedServiceFood.generateWalkingTour, callModel, bind, lift.
  destruct (GroundedServiceFood.ai env) as [err | client].
  - intros H. injection H as <- _. intros [].
  - destruct (generateContent P _ _); simpl; intros H;
      injection H as <- _; intros [<- | []]; now exists client.
Qed.

(** *** The steps of the wizard *)

(** X17. Whatever the user does from the first page, whenever the
    answers of the geolocation come and whatever the service does, as
    long as each generation ends before the next event: no handler
    throws; a result page always has an itinerary; and a duration
    button, when the page offers it, sends a request whose category is
    one of the four of the page, whose location is not empty and whose
    duration is one of the four durations. *)
Theorem wizard_sends_valid_requests
    (service : TourRequest -> Eff App.Itinerary) (evs : list UiEvent) :
  exists t s,
    session service evs initialState = (t, inr s) /\
    (step s = StepResult -> itinerary s <> None) /\
    (forall i run,
       dispatch service (ClickDuration i) s = Some run ->
       exists d,
         run = handleDurationSelect service d s /\
         PromptFacts.validRequest (asTourRequest d (selection s))).
Proof.
  destruct (session_settled service evs initialState initialState_settled)
    as (t & s & Heq & Hs).
  exists t, s. split; [exact Heq |]. split; [exact (settled_result s Hs) |].
  intros i run Hrun. unfold dispatch in Hrun.
  destruct (step s) eqn:Hstep; try discriminate.
  destruct (nth_error Wizard.DURATIONS i) as [d |] eqn:Hd; [| discriminate].
  injection Hrun as <-. exists d. split; [reflexivity |].
  apply settled_request_valid; [exact Hs | exact Hstep |].
  eapply nth_error_In. exact Hd.
Qed.

(** X18. With either grounded service behind the wizard, every model
    call of a session is the call of a valid request: the prompt and the
    call configuration are those the service builds from a category of
    the page, a non-empty location and one of the four durations. *)
Theorem wizard_calls_model_with_valid_requests
    (P : Platform) (env : ProcessEnv) (evs : list UiEvent) :
  (exists t s,
     session (GroundedService.generateWalkingTour P env) evs initialState
       = (t, inr s) /\
     forall ai params, In (ModelCall ai params) t ->
       exists r, PromptFacts.validRequest r /\
                 params = GroundedService.callParams r) /\
  (exists t s,
     session (GroundedServiceFood.generateWalkingTour P env) evs initialState
       = (t, inr s) /\
     forall ai params, In (ModelCall ai params) t ->
       exists r, PromptFacts.validRequest r /\
                 params = GroundedServiceFood.callParams r).
Proof.
  split.
  - destruct (session_trace (GroundedService.generateWalkingTour P env)
                (fun r e => exists client,
                   e = ModelCall client (GroundedService.callParams r))
                (grounded_sends P env) evs initialState initialState_settled)
      as (t & s & Heq & _ & Ht).
    exists t, s. split; [exact Heq |].
    intros ai params Hin.
    destruct (Ht _ Hin) as [(l & Hl) | (r & Hr & client & He)];
      [discriminate |].
    exists r. split; [exact Hr |]. injection He as _ ->. reflexivity.
  - destruct (session_trace (GroundedServiceFood.generateWalkingTour P env)
                (fun r e => exists client,
                   e = ModelCall client (GroundedServiceFood.callParams r))
                (groundedFood_sends P env) evs initialState
                initialState_settled)
      as (t & s & Heq & _ & Ht).
    exists t, s. split; [exact Heq |].
    intros ai params Hin.
    destruct (Ht _ Hin) as [(l & Hl) | (r & Hr & client & He)];
      [discriminate |].
    exists r. split; [exact Hr |]. injection He as _ ->. reflexivity.
Qed.

(** *** Coordinates *)

(** The events that write the coordinates of the selection. *)
Definition keepsCoordinates (ev : UiEvent) : bool :=
  match ev with
  | PositionFound _ _ _ => false
  | StartOver => false
  | _ => true
  end.

Lemma dispatch_keeps_coordinates service (ev : UiEvent) (s : AppState) run :
  dispatch service ev s = Some run ->
  exists t s',
    run = (t, inr s') /\
    (keepsCoordinates ev = true ->
     selLatLng (selection s') = selLatLng (selection s)).
Proof.
  intros Hrun. unfold dispatch in Hrun.
  destruct ev.
  - destruct (step s); try discriminate.
    destruct (nth_error Wizard.CATEGORIES index); [| discriminate].
    injection Hrun as <-. eexists _, _. split; reflexivity.
  - destruct (step s); try discriminate.
    injection Hrun as <-. eexists _, _. split; reflexivity.
  - destruct (step s); try discriminate.
    injection Hrun as <-. eexists _, _. split; [reflexivity |].
    intros _. unfold handleLocationSubmit.
    destruct (truthy_string (trim text)); reflexivity.
  - destruct (step s); try discriminate.
    destruct (isLocating s); [discriminate |].
    injection Hrun as <-. eexists _, _. split; [reflexivity |].
    intros _. destruct supported; reflexivity.
  - destruct (nth_error (locating s) request);
      destruct (step s); try discriminate;
      injection Hrun as <-; eexists _, _;
      (split; [reflexivity | discriminate]).
  - destruct (nth_error (locating s) request);
      destruct (step s); try discriminate;
      injection Hrun as <-; eexists _, _; split; reflexivity.
  - destruct (step s); try discriminate.
    injection Hrun as <-. eexists _, _. split; reflexivity.
  - destruct (step s); try discriminate.
    destruct (nth_error Wizard.DURATIONS index) as [d |]; [| discriminate].
    injection Hrun as <-.
    destruct (handleDurationSelect_cases service d s)
      as (t & s' & Heq & Hsel & _).
    exists t, s'. split; [exact Heq |]. intros _. rewrite Hsel. reflexivity.
  - destruct (step s); try discriminate.
    destruct (itinerary s); [| discriminate].
    injection Hrun as <-. eexists _, _. split; [reflexivity | discriminate].
Qed.

(** X19. Coordinates once taken from the device stay in the selection,
    and so in every later request, through any events other than a new
    position and "Start Over": in particular typing another location
    afterwards replaces the label but not the coordinates. *)
Theorem coordinates_outlive_typed_location
    (service : TourRequest -> Eff App.Itinerary) (evs : list UiEvent) :
  forall s t s',
    forallb keepsCoordinates evs = true ->
    session service evs s = (t, inr s') ->
    selLatLng (selection s') = selLatLng (selection s) /\
    forall d, latLng (asTourRequest d (selection s')) = selLatLng (selection s).
Proof.
  assert (H : forall s t s',
             forallb keepsCoordinates evs = true ->
             session service evs s = (t, inr s') ->
             selLatLng (selection s') = selLatLng (selection s)).
  { induction evs as [| ev evs IH]; intros s t s' Hall Hrun.
    - injection Hrun as _ <-. reflexivity.
    - cbn [forallb] in Hall. apply andb_true_iff in Hall.
      destruct Hall as [Hev Hall]. cbn [session] in Hrun.
      destruct (dispatch service ev s) as [run |] eqn:Hd.
      + destruct (dispatch_keeps_coordinates service ev s run Hd)
          as (t1 & s1 & -> & Hkeep).
        unfold bind in Hrun.
        destruct (session service evs s1) as [t2 r2] eqn:Hrest.
        injection Hrun as _ ->.
        rewrite (IH s1 t2 s' Hall Hrest). apply Hkeep. exact Hev.
      + exact (IH s t s' Hall Hrun). }
  intros s t s' Hall Hrun. split; [exact (H s t s' Hall Hrun) |].
  intros d. simpl. exact (H s t s' Hall Hrun).
Qed.

Definition sampleItinerary : App.Itinerary :=
  {| App.text := "1. Fontana dei Quattro Fiumi";
     App.groundingChunks := Some [] |}.

Definition answeringService (r : TourRequest) : Eff App.Itinerary :=
  ret sampleItinerary.


(** The duration page reached with the position of the device. *)
Definition located : AppState :=
  {| step := StepDuration;
     selection :=
       {| selCategory := Some "Historical";
          selLocation := Some "My Current Location";
          selDuration := None;
          selLatLng := Some {| latitude := 47.625; longitude := -122.375 |} |};
     itinerary := None;
     error := None;
     isLocating := false;
     locating := [] |}.

Example located_reached :
  session answeringService
    [ClickCategory 3; ClickUseMyLocation true;
     PositionFound 0 47.625 (-122.375)] initialState
  = ([], inr located).
Proof. vm_compute. reflexivity. Qed.

Definition retyped : AppState :=
  handleLocationSubmit "Piazza Navona, Rome" (setStep StepLocation located).

Lemma coordinates_outlive_typed_location_witness :
  selLocation (selection retyped) = Some "Piazza Navona, Rome" /\
  selLatLng (selection retyped) = selLatLng (selection located) /\
  forall d, latLng (asTourRequest d (selection retyped))
            = Some {| latitude := 47.625; longitude := -122.375 |}.
Proof.
  split; [reflexivity |].
  apply (coordinates_outlive_typed_location answeringService
           [BackToLocation; SubmitLocation "Piazza Navona, Rome"]
           located [] retyped).
  - reflexivity.
  - vm_compute. reflexivity.
Defined.

(** *** A failed generation *)



(** *** Starting over *)

(** X21. "Start Over", when a session from the first page offers it,
    clears the step, the selection, the itinerary and the error, but not
    a geolocation request that is under way: what it leaves is the state
    of the first page exactly when no such request is pending.  One
    that is pending still answers, and its position then takes the
    wizard from the first page to the duration page, with the category
    that was chosen when the request was made. *)
Theorem start_over_leaves_location_request
    (service : TourRequest -> Eff App.Itinerary) (evs : list UiEvent)
    t (s : AppState) run :
  session service evs initialState = (t, inr s) ->
  dispatch service StartOver s = Some run ->
  exists s',
    run = ret s' /\
    step s' = StepCategory /\
    selection s' = noSelection /\
    itinerary s' = None /\
    error s' = None /\
    (s' = initialState <-> locating s = []) /\
    forall k sel la lo,
      nth_error (locating s) k = Some sel ->
      exists s'',
        dispatch service (PositionFound k la lo) s' = Some (ret s'') /\
        step s'' = StepDuration /\
        selCategory (selection s'') = selCategory sel /\
        categoryChosen sel.
Proof.
  intros Hrun Hd.
  destruct (session_settled service evs initialState initialState_settled)
    as (t' & s' & Heq & Hs).
  rewrite Hrun in Heq. injection Heq as _ <-.
  unfold dispatch in Hd.
  destruct (step s); try discriminate.
  destruct (itinerary s); [| discriminate].
  injection Hd as <-. exists (reset s).
  split; [reflexivity |]. split; [reflexivity |]. split; [reflexivity |].
  split; [reflexivity |]. split; [reflexivity |]. split.
  - unfold reset, initialState, setError, setItinerary, setSelection, setStep.
    cbn [step selection itinerary error isLocating locating].
    destruct (settled_locating s Hs) as [[Hi Hl] | [Hi [sel Hl]]];
      rewrite Hi, Hl; split; intros H; try reflexivity; discriminate.
  - intros k sel la lo Hk.
    destruct (one_request s k sel Hs Hk) as (-> & Hl & _ & Hcat).
    eexists. split; [| split; [| split; [| exact Hcat]]].
    + unfold dispatch. cbn [reset locating setError setItinerary setSelection
                              setStep step].
      rewrite Hl. reflexivity.
    + reflexivity.
    + reflexivity.
Qed.

Definition fullSession : list UiEvent :=
  [ClickCategory 3; ClickUseMyLocation true;
   SubmitLocation "Piazza Navona, Rome"; ClickDuration 2].

(** The category and nothing else: what the location button closed
    over. *)
Definition historical : Selection :=
  {| selCategory := Some "Historical"; selLocation := None;
     selDuration := None; selLatLng := None |}.

Definition shown : AppState :=
  {| step := StepResult;
     selection :=
       {| selCategory := Some "Historical";
          selLocation := Some "Piazza Navona, Rome";
          selDuration := Some 90%N;
          selLatLng := None |};
     itinerary := Some sampleItinerary;
     error := None;
     isLocating := true;
     locating := [historical] |}.

Lemma start_over_leaves_location_request_witness :
  session answeringService fullSession initialState = ([], inr shown) /\
  exists s',
    dispatch answeringService StartOver shown = Some (ret s') /\
    step s' = StepCategory /\
    s' <> initialState /\
    exists s'',
      dispatch answeringService (PositionFound 0 47.625 (-122.375)) s'
        = Some (ret s'') /\
      step s'' = StepDuration /\
      selCategory (selection s'') = Some "Historical".
Proof.
  assert (session answeringService fullSession initialState = ([], inr shown))
    as Hrun by (vm_compute; reflexivity).
  split; [exact Hrun |].
  destruct (start_over_leaves_location_request answeringService fullSession []
              shown (ret (reset shown)) Hrun eq_refl)
    as (s' & Hs' & Hstep & _ & _ & _ & Hinit & Hlate).
  exists s'. split; [rewrite <- Hs'; reflexivity |].
  split; [exact Hstep |]. split.
  - intros H. apply Hinit in H. discriminate.
  - destruct (Hlate 0 historical 47.625%float (-122.375)%float eq_refl)
      as (s'' & Hd & Hstep'' & Hcat & _).
    exists s''. split; [exact Hd |]. split; [exact Hstep'' | exact Hcat].
Defined.

End AppFlowFacts.
